(** * Conformable types and subclass redirection (amaranth/_utils.py)

    A shallow embedding of [ConformableMeta] and [redirect_subclasses].
    The helper functions of the module ([flatten], [union], [memoize],
    [deprecated], [_ignore_deprecated], [get_linter_option]) follow the
    two, each with the part of the interpreter it relies on.

    Both mechanisms are metaclass code: they run inside Python's class
    construction protocol and read and write attributes of class objects.
    The development therefore starts with a small model of that protocol
    (class objects in a heap, attribute lookup along the MRO, C3
    linearisation, metaclass calculation, [type.__new__]) and then gives
    the functions of the source on top of it.

    Scope of the model.
    - A class body defines at most the two capability hooks; user-written
      [__new__], [__init_subclass__], [__instancecheck__] and metaclass
      [__call__] are not modelled, so these are dispatched among the
      implementations of [object], [type] and [ConformableMeta] only.
    - A hook is a function of the class and of the tested object; it may
      raise, and may return any value.
    - [assert] raises [AssertionError] (the interpreter runs without -O).
    - An exception keeps the heap of the moment it is raised: a class
      object allocated by [type.__new__] stays allocated when a later
      step of the same class statement fails.
    - Recursion through [__new__] is bounded by a fuel argument.
    - Keyword arguments of the class statement are left out. *)

From stdpp Require Import gmap strings list fin_maps.

Open Scope string_scope.
Open Scope list_scope.
Open Scope nat_scope.

(** ** Python objects *)

(** A class object is identified by its position in the heap. *)
Abbreviation cid := nat.

Inductive exn :=
  | AssertionError
  | TypeError
  | NotImplementedError
  | AttributeError.

(** The values the two membership hooks may hand back.  [VObj] stands for
    any other object. *)
Inductive pyval :=
  | VNone
  | VBool (b : bool)
  | VNotImplemented
  | VClass (c : cid)
  | VObj (n : nat).

(** An ordinary instance: its class and the names of its attributes. *)
Record pyobj := PyObj { ob_type : cid; ob_attrs : list string }.

Inductive res (A : Type) :=
  | Ret (a : A)
  | Exc (e : exn).
Arguments Ret {A} a.
Arguments Exc {A} e.

(** The [__new__] implementations that can sit in a class dictionary:
    the two built-in ones, [ConformableMeta.__new__], and the closure that
    [redirect_subclasses] creates, which captures [from_cls], [to_cls] and
    [to_mcls_new]. *)
Inductive new_impl :=
  | ObjectNew
  | TypeNew
  | ConformableNew
  | RedirectNew (from_cls to_cls : cid) (to_mcls_new : new_impl).

Inductive attr :=
  | AVal (v : pyval)
  | AInstHook (f : cid → pyobj → res pyval)
  | ASubHook (f : cid → cid → res pyval)
  | ANew (f : new_impl).

Record class_obj := ClassObj {
  c_name : string;
  c_bases : list cid;
  c_mro : list cid;
  c_type : cid;
  c_dict : gmap string attr
}.

Abbreviation heap := (list class_obj).

(** What a class body may define: the two capability hooks. *)
Record class_body := ClassBody {
  b_isinstance : option (cid → pyobj → res pyval);
  b_issubclass : option (cid → cid → res pyval)
}.

Definition opt_entry {A} (key : string) (mk : A → attr) (o : option A)
    (d : gmap string attr) : gmap string attr :=
  match o with
  | Some f => <[key := mk f]> d
  | None => d
  end.

Definition namespace_of (b : class_body) : gmap string attr :=
  opt_entry "conformable_isinstance" AInstHook (b_isinstance b)
    (opt_entry "conformable_issubclass" ASubHook (b_issubclass b) ∅).

(** ** The built-in classes and [ConformableMeta] itself *)

Abbreviation object_id := 0.
Abbreviation type_id := 1.
Abbreviation ConformableMeta_id := 2.

Definition top_key : string := "_ConformableMeta__top".
Definition new_key : string := "__new__".

Definition object_cls : class_obj :=
  ClassObj "object" [] [object_id] type_id {[ new_key := ANew ObjectNew ]}.

Definition type_cls : class_obj :=
  ClassObj "type" [object_id] [type_id; object_id] type_id
           {[ new_key := ANew TypeNew ]}.

(** Lines 149-183: the two hooks of the abstract base raise. *)
Definition conformable_isinstance (cls : cid) (instance : pyobj) : res pyval :=
  Exc NotImplementedError.

Definition conformable_issubclass (cls : cid) (subclass : cid) : res pyval :=
  Exc NotImplementedError.

Definition ConformableMeta_dict : gmap string attr :=
  <[ top_key := AVal VNone ]>
  (<[ new_key := ANew ConformableNew ]>
  (<[ "conformable_isinstance" := AInstHook conformable_isinstance ]>
  (<[ "conformable_issubclass" := ASubHook conformable_issubclass ]> ∅))).

Definition ConformableMeta_cls : class_obj :=
  ClassObj "ConformableMeta" [type_id]
           [ConformableMeta_id; type_id; object_id] type_id
           ConformableMeta_dict.

Definition init_heap : heap := [object_cls; type_cls; ConformableMeta_cls].

(** ** Attribute access *)

Definition mro_of (h : heap) (c : cid) : list cid :=
  match h !! c with
  | Some co => c_mro co
  | None => []
  end.

Definition type_of (h : heap) (c : cid) : option cid := c_type <$> h !! c.

(** [type(c).__mro__] *)
Definition type_mro (h : heap) (c : cid) : list cid :=
  match h !! c with
  | Some co => mro_of h (c_type co)
  | None => []
  end.

Definition dict_get (h : heap) (c : cid) (key : string) : option attr :=
  match h !! c with
  | Some co => c_dict co !! key
  | None => None
  end.

(** First class along [mro] whose own dictionary has [key]. *)
Fixpoint mro_lookup (h : heap) (mro : list cid) (key : string) : option attr :=
  match mro with
  | [] => None
  | c :: rest =>
      match dict_get h c key with
      | Some a => Some a
      | None => mro_lookup h rest key
      end
  end.

(** [cls.key] for a class object: the dictionaries of the MRO of [cls]
    first, then those of the MRO of its metaclass. *)
Inductive found :=
  | OnClass (a : attr)
  | OnMeta (a : attr).

Definition getattr (h : heap) (cls : cid) (key : string) : option found :=
  match mro_lookup h (mro_of h cls) key with
  | Some a => Some (OnClass a)
  | None => OnMeta <$> mro_lookup h (type_mro h cls) key
  end.

Definition found_attr (f : found) : attr :=
  match f with
  | OnClass a | OnMeta a => a
  end.

(** [cls.key = a].  The built-in types [object] and [type] are immutable. *)
Definition setattr (h : heap) (cls : cid) (key : string) (a : attr)
    : option heap :=
  if bool_decide (cls = object_id ∨ cls = type_id) then None
  else match h !! cls with
       | Some co =>
           Some (<[cls := ClassObj (c_name co) (c_bases co) (c_mro co)
                                   (c_type co) (<[key := a]> (c_dict co))]> h)
       | None => None
       end.

(** [super(this, mcls).key]: the lookup resumes after [this] in the MRO. *)
Fixpoint after (this : cid) (mro : list cid) : list cid :=
  match mro with
  | [] => []
  | c :: rest => if bool_decide (c = this) then rest else after this rest
  end.

Definition super_lookup (h : heap) (this mcls : cid) (key : string)
    : option attr :=
  mro_lookup h (after this (mro_of h mcls)) key.

(** ** Nominal subtyping *)

(** [PyType_IsSubtype(a, b)]: [b] occurs in the MRO of [a]. *)
Definition issubtype (h : heap) (a b : cid) : bool :=
  bool_decide (b ∈ mro_of h a).

(** [type.__instancecheck__] and [type.__subclasscheck__]. *)
Definition type___instancecheck__ (h : heap) (cls : cid) (instance : pyobj)
    : bool :=
  issubtype h (ob_type instance) cls.

Definition type___subclasscheck__ (h : heap) (cls : cid) (subclass : cid)
    : bool :=
  issubtype h subclass cls.

(** ** C3 linearisation *)

Definition in_tail (c : cid) (s : list cid) : bool :=
  bool_decide (c ∈ tail s).

Definition good_head (seqs : list (list cid)) (c : cid) : bool :=
  forallb (λ s, negb (in_tail c s)) seqs.

Fixpoint find_candidate (all seqs : list (list cid)) : option cid :=
  match seqs with
  | [] => None
  | [] :: rest => find_candidate all rest
  | (c :: _) :: rest =>
      if good_head all c then Some c else find_candidate all rest
  end.

Definition drop_head (c : cid) (s : list cid) : list cid :=
  match s with
  | x :: t => if bool_decide (x = c) then t else s
  | [] => []
  end.

Definition all_empty (seqs : list (list cid)) : bool :=
  forallb (λ s, bool_decide (s = [])) seqs.

Fixpoint merge (fuel : nat) (seqs : list (list cid)) : option (list cid) :=
  if all_empty seqs then Some []
  else match fuel with
       | 0 => None
       | S n =>
           match find_candidate seqs seqs with
           | None => None
           | Some c => cons c <$> merge n (drop_head c <$> seqs)
           end
       end.

Fixpoint base_mros (h : heap) (bases : list cid) : option (list (list cid)) :=
  match bases with
  | [] => Some []
  | b :: rest =>
      match h !! b, base_mros h rest with
      | Some co, Some ms => Some (c_mro co :: ms)
      | _, _ => None
      end
  end.

Definition linearize (h : heap) (cls : cid) (bases : list cid)
    : option (list cid) :=
  match base_mros h bases with
  | None => None
  | Some ms =>
      let seqs := ms ++ [bases] in
      cons cls <$> merge (length (concat seqs)) seqs
  end.

(** ** Metaclass calculation *)

Fixpoint calculate_metaclass (h : heap) (winner : cid) (bases : list cid)
    : option cid :=
  match bases with
  | [] => Some winner
  | b :: rest =>
      match type_of h b with
      | None => None
      | Some t =>
          if issubtype h winner t then calculate_metaclass h winner rest
          else if issubtype h t winner then calculate_metaclass h t rest
          else None
      end
  end.

(** ** Results of operations that change the heap *)

(** An exception leaves the heap as it was when it was raised.
    [OutOfFuel] is the model's reading of unbounded recursion through
    [__new__] (a RecursionError in Python). *)
Inductive outcome (A : Type) :=
  | Ok (a : A) (h : heap)
  | Raise (e : exn) (h : heap)
  | OutOfFuel.
Arguments Ok {A} a h.
Arguments Raise {A} e h.
Arguments OutOfFuel {A}.

(** ** [ConformableMeta.__init_subclass__] (lines 143-147) *)

Definition absmeths : list string :=
  ["conformable_isinstance"; "conformable_issubclass"].

Fixpoint check_absmeths (names : list string) (vars_cls : gmap string attr)
    : res unit :=
  match names with
  | [] => Ret ()
  | absmeth :: rest =>
      match vars_cls !! absmeth with
      | None => Exc TypeError
      | Some _ => check_absmeths rest vars_cls
      end
  end.

Definition ConformableMeta___init_subclass__ (vars_cls : gmap string attr)
    : res unit :=
  check_absmeths absmeths vars_cls.

(** ** [type.__new__] once the metaclass is settled

    An empty base list becomes [(object,)]; the MRO is computed; the class
    object is allocated; then [super(cls, cls).__init_subclass__()] runs,
    which is [ConformableMeta.__init_subclass__] exactly when
    [ConformableMeta] is a proper ancestor of the new class. *)
Definition actual_bases (bases : list cid) : list cid :=
  match bases with
  | [] => [object_id]
  | _ => bases
  end.

Definition type_build (h : heap) (metatype : cid) (name : string)
    (bases : list cid) (namespace : class_body) : outcome cid :=
  let bases' := actual_bases bases in
  let cls := length h in
  match linearize h cls bases' with
  | None => Raise TypeError h
  | Some mro =>
      let vars_cls := namespace_of namespace in
      let h' := h ++ [ClassObj name bases' mro metatype vars_cls] in
      if bool_decide (ConformableMeta_id ∈ tail mro) then
        match ConformableMeta___init_subclass__ vars_cls with
        | Exc e => Raise e h'
        | Ret _ => Ok cls h'
        end
      else Ok cls h'
  end.

(** The base list that the closure of [redirect_subclasses] builds
    (lines 225-228). *)
Definition redirect_bases (from_cls to_cls : cid) (bases : list cid)
    : list cid :=
  (λ base, if bool_decide (base = from_cls) then to_cls else base) <$> bases.

(** ** Calling a [__new__] implementation

    [TypeNew] is [type.__new__]: it computes the most derived metaclass
    and, when that is not the one it was given and has a [__new__] of its
    own, hands the call over to it.
    [ConformableNew] is lines 135-141.
    [RedirectNew] is the closure of lines 224-229. *)
Fixpoint call_new (fuel : nat) (f : new_impl) (mcls : cid) (name : string)
    (bases : list cid) (namespace : class_body) (h : heap) : outcome cid :=
  match fuel with
  | 0 => OutOfFuel
  | S fuel =>
      match f with
      | ObjectNew => Raise TypeError h
      | TypeNew =>
          match calculate_metaclass h mcls bases with
          | None => Raise TypeError h
          | Some winner =>
              if bool_decide (winner = mcls) then
                type_build h mcls name bases namespace
              else
                match mro_lookup h (mro_of h winner) new_key with
                | Some (ANew TypeNew) =>
                    type_build h winner name bases namespace
                | Some (ANew g) => call_new fuel g winner name bases namespace h
                | _ => Raise TypeError h
                end
          end
      | ConformableNew =>
          (* cls = super().__new__(mcls, name, bases, namespace) *)
          match super_lookup h ConformableMeta_id mcls new_key with
          | Some (ANew g) =>
              match call_new fuel g mcls name bases namespace h with
              | Ok cls h1 =>
                  (* if not bases: *)
                  match bases with
                  | [] =>
                      (* assert mcls.__top is None *)
                      match getattr h1 mcls top_key with
                      | None => Raise AttributeError h1
                      | Some (OnClass (AVal VNone))
                      | Some (OnMeta (AVal VNone)) =>
                          (* mcls.__top = cls *)
                          match setattr h1 mcls top_key (AVal (VClass cls)) with
                          | None => Raise TypeError h1
                          | Some h2 => Ok cls h2
                          end
                      | Some _ => Raise AssertionError h1
                      end
                  | _ :: _ => Ok cls h1
                  end
              | other => other
              end
          | _ => Raise TypeError h
          end
      | RedirectNew from_cls to_cls to_mcls_new =>
          let bases := redirect_bases from_cls to_cls bases in
          match type_of h to_cls with
          | None => Raise TypeError h
          | Some to_mcls =>
              call_new fuel to_mcls_new to_mcls name bases namespace h
          end
      end
  end.

(** The two constructors of the source and of the interpreter under the
    names they have there. *)
Definition type___new__ (fuel : nat) (metatype : cid) (name : string)
    (bases : list cid) (namespace : class_body) (h : heap) : outcome cid :=
  call_new fuel TypeNew metatype name bases namespace h.

Definition ConformableMeta___new__ (fuel : nat) (mcls : cid) (name : string)
    (bases : list cid) (namespace : class_body) (h : heap) : outcome cid :=
  call_new fuel ConformableNew mcls name bases namespace h.

(** ** The class statement

    [class name(bases..., metaclass=m)]: the metaclass is the given one,
    else the type of the first base, else [type]; the most derived
    metaclass is computed; it is called, which runs its [__new__]. *)
Definition resolve_new (h : heap) (meta : cid) : option new_impl :=
  match mro_lookup h (mro_of h meta) new_key with
  | Some (ANew f) => Some f
  | _ => None
  end.

Definition stmt_metaclass (h : heap) (bases : list cid)
    (metaclass : option cid) : option cid :=
  let meta0 :=
    match metaclass, bases with
    | Some m, _ => Some m
    | None, [] => Some type_id
    | None, b :: _ => type_of h b
    end in
  match meta0 with
  | None => None
  | Some m0 => calculate_metaclass h m0 bases
  end.

Definition class_stmt (fuel : nat) (h : heap) (name : string)
    (bases : list cid) (metaclass : option cid) (body : class_body)
    : outcome cid :=
  match stmt_metaclass h bases metaclass with
  | None => Raise TypeError h
  | Some meta =>
      match resolve_new h meta with
      | Some f => call_new fuel f meta name bases body h
      | None => Raise TypeError h
      end
  end.

(** ** [ConformableMeta.__instancecheck__] (lines 185-192) and
       [ConformableMeta.__subclasscheck__] (lines 194-201) *)

(** [cls is not top], for the value [top] that the lookup of
    [cls.__top] found. *)
Definition is_not (f : found) (cls : cid) : bool :=
  match found_attr f with
  | AVal (VClass c) => negb (bool_decide (c = cls))
  | _ => true
  end.

(** [super().__instancecheck__(instance)] and
    [super().__subclasscheck__(subclass)] inside the two methods, that is
    [super(ConformableMeta, cls)].  As an instance of its metaclass [cls]
    gets the method of [type] bound to it, the nominal test.  But [super]
    first asks whether [cls] is a subclass of [ConformableMeta]; for such
    a [cls] (a class that derives from its own metaclass) it binds
    class-style, the method of [type] comes back unbound, and the call,
    one argument short, is a [TypeError]. *)
Definition super___instancecheck__ (h : heap) (cls : cid) (instance : pyobj)
    : res pyval :=
  if issubtype h cls ConformableMeta_id then Exc TypeError
  else Ret (VBool (type___instancecheck__ h cls instance)).

Definition super___subclasscheck__ (h : heap) (cls : cid) (subclass : cid)
    : res pyval :=
  if issubtype h cls ConformableMeta_id then Exc TypeError
  else Ret (VBool (type___subclasscheck__ h cls subclass)).

(* The hook is called as [cls.conformable_isinstance(instance)]: found on
   the metaclass it is a method bound to [cls]; found in the dictionary of
   a class of the MRO of [cls] it is a plain function that lacks an
   argument, a [TypeError]. *)
Definition ConformableMeta___instancecheck__ (h : heap) (cls : cid)
    (instance : pyobj) : res pyval :=
  match getattr h cls top_key with
  | None => Exc AttributeError
  | Some top =>
      if is_not top cls then
        super___instancecheck__ h cls instance
      else
        match getattr h cls "conformable_isinstance" with
        | None => Exc AttributeError
        | Some (OnMeta (AInstHook hook)) =>
            match hook cls instance with
            | Exc e => Exc e
            | Ret VNotImplemented => super___instancecheck__ h cls instance
            | Ret result => Ret result
            end
        | Some _ => Exc TypeError
        end
  end.

Definition ConformableMeta___subclasscheck__ (h : heap) (cls : cid)
    (subclass : cid) : res pyval :=
  match getattr h cls top_key with
  | None => Exc AttributeError
  | Some top =>
      if is_not top cls then
        super___subclasscheck__ h cls subclass
      else
        match getattr h cls "conformable_issubclass" with
        | None => Exc AttributeError
        | Some (OnMeta (ASubHook hook)) =>
            match hook cls subclass with
            | Exc e => Exc e
            | Ret VNotImplemented => super___subclasscheck__ h cls subclass
            | Ret result => Ret result
            end
        | Some _ => Exc TypeError
        end
  end.

(** ** [redirect_subclasses] (lines 204-230) *)

Definition redirect_subclasses (h : heap) (target_mcls from_cls to_cls : cid)
    : outcome unit :=
  (* assert target_mcls in type(from_cls).__mro__ *)
  if negb (bool_decide (target_mcls ∈ type_mro h from_cls)) then
    Raise AssertionError h
  else
    (* to_mcls_new = type(to_cls).__new__ *)
    match type_of h to_cls with
    | None => Raise TypeError h
    | Some to_mcls =>
        match getattr h to_mcls new_key with
        | Some (OnClass (ANew to_mcls_new))
        | Some (OnMeta (ANew to_mcls_new)) =>
            (* target_mcls.__new__ = __new__ *)
            match setattr h target_mcls new_key
                          (ANew (RedirectNew from_cls to_cls to_mcls_new)) with
            | None => Raise TypeError h
            | Some h' => Ok () h'
            end
        | _ => Raise AttributeError h
        end
    end.

(** ** Programs: sequences of class statements and redirections *)

Inductive op :=
  | OpClass (name : string) (bases : list cid) (metaclass : option cid)
            (body : class_body)
  | OpRedirect (target_mcls from_cls to_cls : cid).

Definition heap_after {A} (h : heap) (o : outcome A) : heap :=
  match o with
  | Ok _ h' | Raise _ h' => h'
  | OutOfFuel => h
  end.

Definition exec (fuel : nat) (h : heap) (o : op) : heap :=
  match o with
  | OpClass name bases metaclass body =>
      heap_after h (class_stmt fuel h name bases metaclass body)
  | OpRedirect target_mcls from_cls to_cls =>
      heap_after h (redirect_subclasses h target_mcls from_cls to_cls)
  end.

Definition run (fuel : nat) (ops : list op) (h : heap) : heap :=
  foldl (exec fuel) h ops.

Inductive reachable : heap → Prop :=
  | reach_init : reachable init_heap
  | reach_step h fuel o : reachable h → reachable (exec fuel h o).

(** ** Well-formed heaps *)

(** Name, bases, MRO and metaclass of a class object never change; only its
    dictionary does. *)
Definition same_shape (a b : class_obj) : Prop :=
  c_name a = c_name b ∧ c_bases a = c_bases b ∧
  c_mro a = c_mro b ∧ c_type a = c_type b.

(** A registered top type stays registered. *)
Definition keeps_top (a b : class_obj) : Prop :=
  ∀ T, c_dict a !! top_key = Some (AVal (VClass T)) →
       c_dict b !! top_key = Some (AVal (VClass T)).

Definition extends (h h' : heap) : Prop :=
  ∀ i co, h !! i = Some co →
    ∃ co', h' !! i = Some co' ∧ same_shape co co' ∧ keeps_top co co'.

Record wf (h : heap) : Prop := {
  wf_object : h !! object_id = Some object_cls;
  wf_type : h !! type_id = Some type_cls;
  wf_meta : ∃ co, h !! ConformableMeta_id = Some co ∧
                  c_mro co = [ConformableMeta_id; type_id; object_id] ∧
                  is_Some (c_dict co !! top_key);
  wf_mro : ∀ i co, h !! i = Some co →
             (∃ tl, c_mro co = i :: tl) ∧ NoDup (c_mro co) ∧
             ∀ x, x ∈ c_mro co → x < length h;
  wf_slot : ∀ i co, h !! i = Some co → is_Some (c_dict co !! top_key) →
              ConformableMeta_id ∈ c_mro co;
  wf_tops : ∀ i co c, h !! i = Some co →
              c_dict co !! top_key = Some (AVal (VClass c)) →
              3 ≤ c ∧ mro_of h c = [c; object_id]
}.

(** What every [__new__] guarantees about its outcome. *)
Definition new_post (h : heap) (bases : list cid) (body : class_body)
    (o : outcome cid) : Prop :=
  wf (heap_after h o) ∧ extends h (heap_after h o) ∧
  ∀ cls h', o = Ok cls h' →
    3 ≤ cls ∧ length h ≤ cls < length h' ∧
    (bases = [] → mro_of h' cls = [cls; object_id]) ∧
    (ConformableMeta_id ∈ tail (mro_of h' cls) →
     ConformableMeta___init_subclass__ (namespace_of body) = Ret ()).

(** [T] is the registered top type of the family [mcls]. *)
Definition top_of (h : heap) (mcls : cid) (T : cid) : Prop :=
  dict_get h mcls top_key = Some (AVal (VClass T)).

(** [mcls.__top is None] *)
Definition top_is_None (h : heap) (mcls : cid) : Prop :=
  ∃ fd, getattr h mcls top_key = Some fd ∧ found_attr fd = AVal VNone.

(** The class object that [type.__new__] allocates. *)
Definition new_class (h : heap) (metatype : cid) (name : string)
    (bases mro_tail : list cid) (body : class_body) : class_obj :=
  ClassObj name bases (length h :: mro_tail) metatype (namespace_of body).

(** [type(cls).__subclasscheck__(cls, subclass)], which is what
    [issubclass(subclass, cls)] evaluates: the method of [ConformableMeta]
    when the metaclass of [cls] derives from it, that of [type] otherwise. *)
Definition class___subclasscheck__ (h : heap) (cls subclass : cid)
    : res pyval :=
  if bool_decide (ConformableMeta_id ∈ type_mro h cls)
  then ConformableMeta___subclasscheck__ h cls subclass
  else Ret (VBool (type___subclasscheck__ h cls subclass)).

(** A constructor that builds the class itself: [type.__new__], or
    [ConformableMeta.__new__] on top of it. *)
Definition plain_new (h : heap) (mcls : cid) (f : new_impl) : Prop :=
  f = TypeNew ∨
  (f = ConformableNew ∧
   super_lookup h ConformableMeta_id mcls new_key = Some (ANew TypeNew)).

(** The constructors under which a family keeps registering its top type:
    [ConformableMeta.__new__] itself, possibly wrapped in closures of
    [redirect_subclasses] whose [to_cls] has the family's metaclass. *)
Fixpoint family_new (h : heap) (mcls : cid) (f : new_impl) : Prop :=
  match f with
  | ConformableNew => True
  | RedirectNew _ to_cls to_mcls_new =>
      type_of h to_cls = Some mcls ∧ family_new h mcls to_mcls_new
  | _ => False
  end.

Fixpoint new_depth (f : new_impl) : nat :=
  match f with
  | RedirectNew _ _ to_mcls_new => S (new_depth to_mcls_new)
  | _ => 0
  end.

(** ** A sample program

    [ShapeMeta] is a family whose instance hook accepts every object that
    has the attribute [is_shape_like] and defers otherwise; [Shape] is its
    top type, [Circle] and [Impl] derive from it. *)

Definition shape_isinstance (cls : cid) (instance : pyobj) : res pyval :=
  if bool_decide ("is_shape_like" ∈ ob_attrs instance)
  then Ret (VBool true) else Ret VNotImplemented.

Definition shape_issubclass (cls : cid) (subclass : cid) : res pyval :=
  if bool_decide (subclass = object_id)
  then Ret (VBool true) else Ret VNotImplemented.

Definition hooks_body : class_body :=
  ClassBody (Some shape_isinstance) (Some shape_issubclass).

Definition empty_body : class_body := ClassBody None None.

Abbreviation ShapeMeta := 3.
Abbreviation Shape := 4.
Abbreviation Circle := 5.
Abbreviation Impl := 6.

Definition shape_program : list op :=
  [ OpClass "ShapeMeta" [ConformableMeta_id] None hooks_body;
    OpClass "Shape" [] (Some ShapeMeta) empty_body;
    OpClass "Circle" [Shape] None empty_body;
    OpClass "Impl" [Shape] None empty_body ].

Definition shape_heap : heap := run 4 shape_program init_heap.

Definition shape_like : pyobj := PyObj object_id ["is_shape_like"].
Definition plain_object : pyobj := PyObj object_id [].
Definition a_circle : pyobj := PyObj Circle [].

(** The sample program continued: subclassing of [Shape] is redirected
    to [Impl]. *)
Definition redirected_heap : heap :=
  exec 0 shape_heap (OpRedirect ShapeMeta Shape Impl).

(** Two redirections in one family: [Shape] to [Impl], then [Circle] to
    [Disc], all four classes having the metaclass [ShapeMeta]. *)
Abbreviation Disc := 7.

Definition rules_heap0 : heap :=
  exec 4 shape_heap (OpClass "Disc" [Shape] None empty_body).
Definition rules_heap1 : heap :=
  exec 0 rules_heap0 (OpRedirect ShapeMeta Shape Impl).
Definition rules_heap2 : heap :=
  exec 0 rules_heap1 (OpRedirect ShapeMeta Circle Disc).

(** The same with the second target taken from another family:
    [Other] is the top type of [OtherMeta]. *)
Abbreviation OtherMeta := 7.
Abbreviation Other := 8.

Definition clash_heap0 : heap :=
  run 4 [ OpClass "OtherMeta" [ConformableMeta_id] None hooks_body;
          OpClass "Other" [] (Some OtherMeta) empty_body ] shape_heap.
Definition clash_heap1 : heap :=
  exec 0 clash_heap0 (OpRedirect ShapeMeta Shape Impl).
Definition clash_heap2 : heap :=
  exec 0 clash_heap1 (OpRedirect ShapeMeta Circle Other).

(** Three redirections in one family: [Disc] to [Impl] first, then the
    two rules above. *)
Definition prior_heap0 : heap :=
  exec 0 rules_heap0 (OpRedirect ShapeMeta Disc Impl).
Definition prior_heap1 : heap :=
  exec 0 prior_heap0 (OpRedirect ShapeMeta Shape Impl).
Definition prior_heap2 : heap :=
  exec 0 prior_heap1 (OpRedirect ShapeMeta Circle Disc).

(** The second rule leading back to the first rule's [from_cls]:
    [Shape] to [Impl], then [Circle] to [Shape]. *)
Definition back_heap : heap :=
  exec 0 rules_heap1 (OpRedirect ShapeMeta Circle Shape).

(** The heap in which the family [ShapeMeta] exists and nothing else. *)
Definition family_heap : heap :=
  exec 4 init_heap (OpClass "ShapeMeta" [ConformableMeta_id] None hooks_body).

(** A family in which a redirection is installed before any top type
    exists: [P] and [Q] name [object] as their base. *)
Definition early_heap : heap :=
  run 4 [ OpClass "ShapeMeta" [ConformableMeta_id] None hooks_body;
          OpClass "P" [object_id] (Some ShapeMeta) empty_body;
          OpClass "Q" [object_id] (Some ShapeMeta) empty_body;
          OpRedirect ShapeMeta 4 5 ] init_heap.

(** A family whose hooks reject everything: [StrictMeta], its top type
    [Strict], and [Placeholder], a class of the family built on [object];
    then subclassing of [Placeholder] is redirected to [Strict]. *)
Definition strict_isinstance (cls : cid) (instance : pyobj) : res pyval :=
  Ret (VBool false).

Definition strict_issubclass (cls : cid) (subclass : cid) : res pyval :=
  Ret (VBool false).

Definition strict_body : class_body :=
  ClassBody (Some strict_isinstance) (Some strict_issubclass).

Abbreviation StrictMeta := 7.
Abbreviation Strict := 8.
Abbreviation Placeholder := 9.

Definition strict_heap0 : heap :=
  run 4 [ OpClass "StrictMeta" [ConformableMeta_id] None strict_body;
          OpClass "Strict" [] (Some StrictMeta) empty_body;
          OpClass "Placeholder" [object_id] (Some StrictMeta) empty_body ]
        shape_heap.

Definition strict_heap1 : heap :=
  exec 0 strict_heap0 (OpRedirect StrictMeta Placeholder Strict).

(** The sample heap with subclassing of [Shape] redirected to [object],
    whose metaclass is [type]. *)
Definition escaped_heap : heap :=
  exec 0 shape_heap (OpRedirect ShapeMeta Shape object_id).

(** A class that derives from its own metaclass: [Odd] has the bases
    [ShapeMeta] and [Shape]; its metaclass is [ShapeMeta]. *)
Abbreviation Odd := 7.

Definition odd_heap : heap :=
  exec 4 shape_heap (OpClass "Odd" [ShapeMeta; Shape] None hooks_body).

Definition an_odd : pyobj := PyObj Odd [].

(** Two redirections whose second target derives from the metaclass:
    [Shape] to [Impl], then [Circle] to [Odd]. *)
Definition oddrule_heap1 : heap :=
  exec 0 odd_heap (OpRedirect ShapeMeta Shape Impl).
Definition oddrule_heap2 : heap :=
  exec 0 oddrule_heap1 (OpRedirect ShapeMeta Circle Odd).

(** ** Frame conditions of the operations

    What an operation leaves alone: class objects stay where they are and
    no attribute other than [__top] and [__new__] is written; and a class
    that becomes a top type is one that did not exist before. *)
Definition grows (h h' : heap) : Prop :=
  ∀ c, is_Some (h !! c) →
    is_Some (h' !! c) ∧
    ∀ key, key ≠ top_key → key ≠ new_key →
      dict_get h' c key = dict_get h c key.

Definition tops_fresh (h h' : heap) : Prop :=
  ∀ m T, top_of h' m T → top_of h m T ∨ length h ≤ T.

(** A later program on the sample heap: a class under [ShapeMeta], a
    metaclass deriving from [ShapeMeta], and a redirection. *)
Abbreviation SubMeta := 8.

Definition later_program : list op :=
  [ OpClass "Square" [Shape] None empty_body;
    OpClass "SubMeta" [ShapeMeta] None hooks_body;
    OpRedirect ShapeMeta Circle Impl;
    OpClass "Again" [] (Some ShapeMeta) empty_body ].

Definition later_heap : heap := run 4 later_program shape_heap.

(** The sample heap with [Square] and [SubMeta] only. *)
Definition sub_heap : heap := run 4 (take 2 later_program) shape_heap.

(** A redirection of [Shape] onto itself, installed after the one onto
    [Impl]. *)
Definition selfrule_heap : heap :=
  exec 0 rules_heap1 (OpRedirect ShapeMeta Shape Shape).

(** A second family without a top type, [Q] being an ordinary class of
    it, and subclassing of [Circle] redirected to [Q]. *)
Definition alien_heap0 : heap :=
  run 4 [ OpClass "OtherMeta" [ConformableMeta_id] None hooks_body;
          OpClass "Q" [object_id] (Some OtherMeta) empty_body ] shape_heap.
Definition alien_heap1 : heap :=
  exec 0 alien_heap0 (OpRedirect ShapeMeta Circle 8).

(** * The helper functions of the module *)

(** ** [flatten] *)

(** What [flatten] distinguishes in a value: a string, an object that is
    not iterable, and any other iterable, given by the finite sequence of
    the items it yields. *)
#[warnings="-register-all"]
Inductive pyitem :=
  | Atom (n : nat)
  | Str (s : string)
  | Iter (items : list pyitem).

(** [isinstance(e, str) or not isinstance(e, Iterable)] *)
Definition is_leaf (e : pyitem) : bool :=
  match e with
  | Iter _ => false
  | _ => true
  end.

(** One turn of the loop of [flatten]: a leaf is yielded, another iterable
    is flattened in turn.  The generator is given by the list of what it
    yields. *)
Fixpoint flatten_step (e : pyitem) : list pyitem :=
  match e with
  | Iter items =>
      (fix flatten (i : list pyitem) : list pyitem :=
         match i with
         | [] => []
         | e :: i => flatten_step e ++ flatten i
         end) items
  | _ => [e]
  end.

Definition flatten : list pyitem → list pyitem :=
  fix flatten (i : list pyitem) : list pyitem :=
    match i with
    | [] => []
    | e :: i => flatten_step e ++ flatten i
    end.

(** ** [union] *)

(** A value is [None] or an object, and [start=None] is at the same time
    the absent start value.  [ior r e] is the outcome of [r |= e] for an
    object [r] without identity (an integer, a frozen set, a value with
    [__or__] only): the value [r] is bound to afterwards, or the exception
    raised, which ends the loop. *)
Definition union_step {A : Type} (ior : A → option A → res (option A))
    (r : res (option A)) (e : option A) : res (option A) :=
  match r with
  | Exc x => Exc x
  | Ret None => Ret e
  | Ret (Some r) => ior r e
  end.

Definition union {A : Type} (ior : A → option A → res (option A))
    (i : list (option A)) (start : option A) : res (option A) :=
  foldl (union_step ior) (Ret start) i.

(** [|=] on non-negative integers: bitwise or, and [TypeError] when the
    right operand is [None]. *)
Definition int_ior (r : nat) (e : option nat) : res (option nat) :=
  match e with
  | Some e => Ret (Some (Nat.lor r e))
  | None => Exc TypeError
  end.

(** On mutable sets [r |= e] is [set.__ior__]: it updates the object [r]
    refers to and leaves [r] referring to it.  The sets live in a store,
    a reference is a position in it. *)
Abbreviation set_store := (list (gset nat)).

Definition set___ior__ (r e : nat) (σ : set_store) : set_store :=
  <[r := (σ !!! r) ∪ (σ !!! e)]> σ.

Definition union_sets_step (st : option nat * set_store) (e : nat)
    : option nat * set_store :=
  match st.1 with
  | None => (Some e, st.2)
  | Some r => (Some r, set___ior__ r e st.2)
  end.

Definition union_sets (i : list nat) (start : option nat) (σ : set_store)
    : option nat * set_store :=
  foldl union_sets_step (start, σ) i.

(** ** [memoize] *)

(** The state of one memoized function: the dictionary [memo] of the
    closure, and the arguments [f] has been applied to so far, oldest
    first.  A dictionary finds an entry by hash and [==], so two argument
    tuples that are equal share one entry, as [(1,)], [(1.0,)] and
    [(True,)] do: [key args] stands for the class of the tuples equal to
    [args].  The arguments are hashable and [f] returns. *)
Record memo_state (Q K V : Type) `{Countable Q} := MemoState {
  memo : gmap Q V;
  calls : list K
}.
Arguments MemoState {Q K V _ _} memo calls.
Arguments memo {Q K V _ _} m.
Arguments calls {Q K V _ _} m.

(** The function [g] that [memoize f] returns. *)
Definition memoize `{Countable Q} {K V : Type} (key : K → Q) (f : K → V)
    (args : K) (st : memo_state Q K V) : V * memo_state Q K V :=
  match memo st !! key args with
  | None =>
      let v := f args in
      (v, MemoState (<[key args := v]> (memo st)) (calls st ++ [args]))
  | Some v => (v, st)
  end.

(** A sequence of calls of [g]. *)
Fixpoint memoize_calls `{Countable Q} {K V : Type} (key : K → Q) (f : K → V)
    (argss : list K) (st : memo_state Q K V) : list V * memo_state Q K V :=
  match argss with
  | [] => ([], st)
  | args :: argss =>
      let (v, st) := memoize key f args st in
      let (vs, st) := memoize_calls key f argss st in
      (v :: vs, st)
  end.

(** What holds of the state of a memoized function after the calls
    [pre]: the dictionary holds, for each class of equal arguments met so
    far, [f]'s value at the first of them, and [f] has been applied to
    these first ones only. *)
Definition memo_inv `{Countable Q} {K V : Type} (key : K → Q) (f : K → V)
    (pre : list K) (st : memo_state Q K V) : Prop :=
  (∀ q, memo st !! q = (f ∘ snd) <$> list_find (λ c, key c = q) pre) ∧
  NoDup (key <$> calls st) ∧
  (∀ a, a ∈ calls st
        ↔ ∃ m, list_find (λ c, key c = key a) pre = Some (m, a)).

(** Numbers as arguments: the integer, the float and the boolean of one
    numeric value are equal and have one hash. *)
Inductive pynum :=
  | PyInt (n : nat)
  | PyFloat (n : nat)
  | PyBool (b : bool).

Definition pynum_key (x : pynum) : nat :=
  match x with
  | PyInt n => n
  | PyFloat n => n
  | PyBool b => if b then 1 else 0
  end.

Definition type_name (x : pynum) : string :=
  match x with
  | PyInt _ => "int"
  | PyFloat _ => "float"
  | PyBool _ => "bool"
  end.

(** ** [deprecated] and [_ignore_deprecated] *)

Inductive wcategory :=
  | DeprecationWarning
  | OtherWarning (n : nat).

Inductive waction :=
  | AIgnore
  | AOther (n : nat).

(** An entry of [warnings.filters]: its action and the warnings it
    applies to (category, message, module and line taken together). *)
Record wfilter := WFilter {
  flt_action : waction;
  flt_applies : wcategory → string → bool
}.

(** The state of the [warnings] module: the filter list, and everything
    else a warning that is not ignored may read or write (registries,
    the output stream). *)
Record wstate (W : Type) := WState {
  filters : list wfilter;
  wrest : W
}.
Arguments WState {W} filters wrest.
Arguments filters {W} w.
Arguments wrest {W} w.

Inductive wres (W A : Type) :=
  | WRet (a : A) (s : wstate W)
  | WRaise (s : wstate W).
Arguments WRet {W A} a s.
Arguments WRaise {W A} s.

Definition wres_state {W A : Type} (r : wres W A) : wstate W :=
  match r with
  | WRet _ s => s
  | WRaise s => s
  end.

Section warnings.
Context {W : Type}.

(** What the module does with a warning whose action is not [ignore]:
    it is shown, recorded, dropped as a repetition, or raised ([inr]). *)
Variable emit : option waction → wcategory → string → W → W + W.

(** [_filters_mutated()], which every change of the filter list calls. *)
Variable filters_mutated : W → W.

(** The first filter that applies decides. *)
Fixpoint find_action (fs : list wfilter) (c : wcategory) (m : string)
    : option waction :=
  match fs with
  | [] => None
  | f :: fs => if flt_applies f c m then Some (flt_action f) else find_action fs c m
  end.

Definition warnings_warn (message : string) (c : wcategory) (s : wstate W)
    : wres W unit :=
  match find_action (filters s) c message with
  | Some AIgnore => WRet () s
  | a =>
      match emit a c message (wrest s) with
      | inl w => WRet () (WState (filters s) w)
      | inr w => WRaise (WState (filters s) w)
      end
  end.

(** [warnings.filterwarnings(action, category=category)]: the entry goes
    to the front of the list.  (An equal entry further down is dropped by
    the module; being shadowed by the new one it decides nothing, and it
    is kept here.) *)
Definition is_category (c0 c : wcategory) : bool :=
  match c0, c with
  | DeprecationWarning, DeprecationWarning => true
  | OtherWarning n, OtherWarning m => bool_decide (n = m)
  | _, _ => false
  end.

Definition warnings_filterwarnings (a : waction) (c : wcategory)
    (s : wstate W) : wstate W :=
  WState (WFilter a (λ c' _, is_category c c') :: filters s)
         (filters_mutated (wrest s)).

(** [with warnings.catch_warnings(): body]: the filter list is put back
    when the body is left, by return or by exception. *)
Definition warnings_catch_warnings {A : Type}
    (body : wstate W → wres W A) (s : wstate W) : wres W A :=
  match body (WState (filters s) (filters_mutated (wrest s))) with
  | WRet a s' => WRet a (WState (filters s) (filters_mutated (wrest s')))
  | WRaise s' => WRaise (WState (filters s) (filters_mutated (wrest s')))
  end.

(** [deprecated(message)(f)], the [wrapper]. *)
Definition deprecated {K V : Type} (message : string)
    (f : K → wstate W → wres W V) (args : K) (s : wstate W) : wres W V :=
  match warnings_warn message DeprecationWarning s with
  | WRet _ s => f args s
  | WRaise s => WRaise s
  end.

(** [_ignore_deprecated(f)], the [decorator_like]. *)
Definition _ignore_deprecated {K V : Type}
    (f : K → wstate W → wres W V) (args : K) (s : wstate W) : wres W V :=
  warnings_catch_warnings
    (λ s, f args (warnings_filterwarnings AIgnore DeprecationWarning s)) s.

End warnings.

(** ** [get_linter_option] *)

Inductive option_type :=
  | TBool
  | TInt
  | TOther.

(** What the function returns: the caller's [default], a boolean or an
    integer. *)
Inductive option_value :=
  | UseDefault
  | BoolValue (b : bool)
  | IntValue (z : Z).

Section linter.

(** [int(option, 0)]; [None] when it raises [ValueError]. *)
Variable int_of_literal : string → option Z.

(** [options] is the dictionary [get_linter_options(filename)] returns. *)
Definition get_linter_option (options : gmap string string) (name : string)
    (type : option_type) : res option_value :=
  match options !! name with
  | None => Ret UseDefault
  | Some option =>
      match type with
      | TBool =>
          if bool_decide (option ∈ ["1"; "yes"; "enable"]) then Ret (BoolValue true)
          else if bool_decide (option ∈ ["0"; "no"; "disable"]) then Ret (BoolValue false)
          else Ret UseDefault
      | TInt =>
          match int_of_literal option with
          | Some z => Ret (IntValue z)
          | None => Ret UseDefault
          end
      | TOther => Exc AssertionError
      end
  end.

End linter.

(** * Properties *)

(** ** C3 linearisation *)

Section merge_facts.
Implicit Types (seqs : list (list cid)) (s m : list cid) (c x : cid).

Lemma find_candidate_head all seqs c :
  find_candidate all seqs = Some c →
  good_head all c = true ∧ ∃ t, (c :: t) ∈ seqs.
Proof.
  induction seqs as [|s seqs IH]; simpl; [done|].
  destruct s as [|y t].
  - intros [? [t ?]]%IH. split; [done|]. exists t. by right.
  - destruct (good_head all y) eqn:Hg.
    + intros [= <-]. split; [done|]. exists t. by left.
    + intros [? [t' ?]]%IH. split; [done|]. exists t'. by right.
Qed.

Lemma good_head_not_in_tail seqs c s :
  good_head seqs c = true → s ∈ seqs → c ∉ tail s.
Proof.
  unfold good_head. rewrite forallb_forall. intros Hall Hs Hin.
  apply list_elem_of_In in Hs. specialize (Hall _ Hs).
  unfold in_tail in Hall. by rewrite bool_decide_eq_true_2 in Hall.
Qed.

Lemma elem_of_drop_head c s x : x ∈ drop_head c s → x ∈ s.
Proof.
  destruct s as [|y t]; simpl; [done|].
  case_bool_decide; [by right | done].
Qed.

Lemma elem_of_drop_head_ne c s x : x ∈ s → x ≠ c → x ∈ drop_head c s.
Proof.
  destruct s as [|y t]; simpl; [done|].
  case_bool_decide; [|done]. subst y.
  intros [->|Hx]%elem_of_cons Hne; [done | done].
Qed.

Lemma not_elem_of_drop_head c s : c ∉ tail s → c ∉ drop_head c s.
Proof.
  destruct s as [|y t]; simpl; [done|].
  case_bool_decide as Hy; [done|].
  intros Hc [->|Hx]%elem_of_cons; [by apply Hy | by apply Hc].
Qed.

Lemma all_empty_elem seqs s x : all_empty seqs = true → s ∈ seqs → x ∉ s.
Proof.
  unfold all_empty. rewrite forallb_forall. intros Hall Hs.
  apply list_elem_of_In in Hs. specialize (Hall _ Hs).
  apply bool_decide_eq_true_1 in Hall. subst s. apply not_elem_of_nil.
Qed.

(** Every element of the result comes from one of the sequences. *)
Lemma merge_subset fuel : ∀ seqs m,
  merge fuel seqs = Some m → ∀ x, x ∈ m → ∃ s, s ∈ seqs ∧ x ∈ s.
Proof.
  induction fuel as [|n IH]; intros seqs m; simpl.
  - destruct (all_empty seqs); [|done]. intros [= <-] x Hx.
    by apply not_elem_of_nil in Hx.
  - destruct (all_empty seqs).
    { intros [= <-] x Hx. by apply not_elem_of_nil in Hx. }
    destruct (find_candidate seqs seqs) as [c|] eqn:Hc; [|done].
    destruct (merge n (drop_head c <$> seqs)) as [m'|] eqn:Hm; [|done].
    simpl. intros [= <-] x [->|Hx]%elem_of_cons.
    + apply find_candidate_head in Hc as [_ [t Ht]].
      exists (c :: t). split; [done | by left].
    + destruct (IH _ _ Hm _ Hx) as (s' & Hs' & Hxs').
      apply list_elem_of_fmap in Hs' as (s & -> & Hs).
      exists s. split; [done|]. by eapply elem_of_drop_head.
Qed.

(** No class is listed twice. *)
Lemma merge_NoDup fuel : ∀ seqs m, merge fuel seqs = Some m → NoDup m.
Proof.
  induction fuel as [|n IH]; intros seqs m; simpl.
  - destruct (all_empty seqs); [|done]. intros [= <-]. constructor.
  - destruct (all_empty seqs); [intros [= <-]; constructor|].
    destruct (find_candidate seqs seqs) as [c|] eqn:Hc; [|done].
    destruct (merge n (drop_head c <$> seqs)) as [m'|] eqn:Hm; [|done].
    simpl. intros [= <-]. apply NoDup_cons. split; [|by eapply IH].
    intros Hin. destruct (merge_subset _ _ _ Hm _ Hin) as (s' & Hs' & Hcs').
    apply list_elem_of_fmap in Hs' as (s & -> & Hs).
    apply find_candidate_head in Hc as [Hg _].
    apply (not_elem_of_drop_head c s); [|done].
    by eapply good_head_not_in_tail.
Qed.

(** Nothing is lost: every element of every sequence is in the result. *)
Lemma merge_complete fuel : ∀ seqs m,
  merge fuel seqs = Some m → ∀ s x, s ∈ seqs → x ∈ s → x ∈ m.
Proof.
  induction fuel as [|n IH]; intros seqs m; simpl.
  - destruct (all_empty seqs) eqn:He; [|done]. intros _ s x Hs Hx.
    by eapply all_empty_elem in Hx.
  - destruct (all_empty seqs) eqn:He.
    { intros _ s x Hs Hx. by eapply all_empty_elem in Hx. }
    destruct (find_candidate seqs seqs) as [c|] eqn:Hc; [|done].
    destruct (merge n (drop_head c <$> seqs)) as [m'|] eqn:Hm; [|done].
    simpl. intros [= <-] s x Hs Hx.
    destruct (decide (x = c)) as [->|Hne]; [by left|]. right.
    eapply (IH _ _ Hm (drop_head c s)).
    + apply list_elem_of_fmap. by exists s.
    + by apply elem_of_drop_head_ne.
Qed.

(** One duplicate-free sequence, possibly followed by exhausted ones,
    merges to itself. *)
Lemma merge_single s : ∀ fuel,
  NoDup s → length s ≤ fuel → merge fuel [s; []] = Some s.
Proof.
  induction s as [|y t IH]; intros fuel Hnd Hlen.
  - by destruct fuel.
  - destruct fuel as [|n]; simpl in Hlen; [lia|].
    apply NoDup_cons in Hnd as [Hy Hnd].
    cbn [merge all_empty forallb find_candidate good_head fmap list_fmap
         drop_head in_tail tail andb negb].
    unfold in_tail. cbn [tail andb].
    rewrite (bool_decide_eq_false_2 (y ∈ t)); [|done].
    rewrite (bool_decide_eq_false_2 (y ∈ [])); [|apply not_elem_of_nil].
    cbn [andb negb]. rewrite (bool_decide_eq_true_2 (y = y)); [|done].
    rewrite IH; [done | done | lia].
Qed.
End merge_facts.

Section linearize_facts.
Implicit Types (h : heap) (bases mro : list cid).

Lemma base_mros_Some h bases ms :
  base_mros h bases = Some ms →
  (∀ b, b ∈ bases → ∃ co, h !! b = Some co ∧ c_mro co ∈ ms) ∧
  (∀ m, m ∈ ms → ∃ b co, b ∈ bases ∧ h !! b = Some co ∧ m = c_mro co).
Proof.
  revert ms. induction bases as [|b bases IH]; simpl; intros ms.
  - intros [= <-]. split; intros ? H; by apply not_elem_of_nil in H.
  - destruct (h !! b) as [co|] eqn:Hb; [|done].
    destruct (base_mros h bases) as [ms'|]; [|done].
    intros [= <-]. destruct (IH _ eq_refl) as [IH1 IH2]. split.
    + intros b' [->|Hb']%elem_of_cons.
      * exists co. split; [done | by left].
      * destruct (IH1 _ Hb') as (co' & ? & ?). exists co'.
        split; [done | by right].
    + intros m [->|Hm]%elem_of_cons.
      * exists b, co. split; [by left | done].
      * destruct (IH2 _ Hm) as (b' & co' & ? & ? & ?).
        exists b', co'. split; [by right | done].
Qed.

(** The MRO starts with the class itself, lists nothing twice, and its
    other entries are bases or come from the MRO of a base. *)
Lemma linearize_Some h cls bases mro :
  linearize h cls bases = Some mro →
  ∃ m, mro = cls :: m ∧ NoDup m ∧
       (∀ b, b ∈ bases → is_Some (h !! b) ∧ b ∈ m) ∧
       (∀ x, x ∈ m → ∃ b co, b ∈ bases ∧ h !! b = Some co ∧
                             (x = b ∨ x ∈ c_mro co)).
Proof.
  unfold linearize. destruct (base_mros h bases) as [ms|] eqn:Hms; [|done].
  destruct (merge _ _) as [m|] eqn:Hm; [|done]. simpl. intros [= <-].
  apply base_mros_Some in Hms as [Hb Hmro].
  exists m. split; [done|]. split; [by eapply merge_NoDup|]. split.
  - intros b Hin. destruct (Hb _ Hin) as (co & Hco & _). split; [by eexists|].
    eapply (merge_complete _ _ _ Hm bases); [|done].
    apply elem_of_app. right. by left.
  - intros x Hx. destruct (merge_subset _ _ _ Hm _ Hx) as (s & Hs & Hxs).
    apply elem_of_app in Hs as [Hs|Hs].
    + destruct (Hmro _ Hs) as (b & co & ? & ? & ->). exists b, co. auto.
    + apply list_elem_of_singleton in Hs as ->.
      destruct (Hb _ Hxs) as (co & ? & _). exists x, co. auto.
Qed.

(** A single base whose own MRO is in order: the new MRO is the class
    followed by the MRO of the base. *)
Lemma linearize_single h cls b co tl :
  h !! b = Some co → c_mro co = b :: tl → NoDup (c_mro co) →
  linearize h cls [b] = Some (cls :: b :: tl).
Proof.
  intros Hb Hmro Hnd. unfold linearize. simpl. rewrite Hb, Hmro. simpl.
  rewrite Hmro in Hnd. apply NoDup_cons in Hnd as [Hb' Hnd].
  unfold in_tail. cbn [tail].
  rewrite (bool_decide_eq_false_2 (b ∈ tl)); [|done].
  simpl. rewrite (bool_decide_eq_true_2 (b = b)); [|done].
  rewrite merge_single; [done | done |]. rewrite length_app. lia.
Qed.
End linearize_facts.

(** ** Frame lemmas for the heap *)

Section heap_facts.
Implicit Types (h : heap) (c cls : cid) (key : string).

Lemma extends_refl h : extends h h.
Proof.
  intros i co ?. exists co. split; [done|].
  split; [by repeat split | by intros ?].
Qed.

Lemma extends_top_of h h' mcls T :
  extends h h' → top_of h mcls T → top_of h' mcls T.
Proof.
  unfold top_of, dict_get. intros He.
  destruct (h !! mcls) as [co|] eqn:Hco; [|done].
  destruct (He _ _ Hco) as (co' & -> & _ & Hk). apply Hk.
Qed.

Lemma extends_trans h1 h2 h3 : extends h1 h2 → extends h2 h3 → extends h1 h3.
Proof.
  intros H12 H23 i co Hi. destruct (H12 _ _ Hi) as (co2 & H2 & S2 & K2).
  destruct (H23 _ _ H2) as (co3 & H3 & S3 & K3). exists co3. split; [done|].
  split; [|intros T ?; by apply K3, K2].
  destruct S2 as (?&?&?&?), S3 as (?&?&?&?). repeat split; congruence.
Qed.

Lemma extends_app h l : extends h (h ++ l).
Proof.
  intros i co Hi. exists co. split; [by apply lookup_app_l_Some|].
  split; [by repeat split | by intros ?].
Qed.

Lemma extends_length h h' : extends h h' → length h ≤ length h'.
Proof.
  intros He. destruct (decide (length h = 0)) as [|Hn]; [lia|].
  destruct (lookup_lt_is_Some_2 h (length h - 1)) as [co Hco]; [lia|].
  destruct (He _ _ Hco) as (co' & Hco' & _).
  apply lookup_lt_Some in Hco'. lia.
Qed.

Lemma extends_mro_of h h' c :
  extends h h' → is_Some (h !! c) → mro_of h' c = mro_of h c.
Proof.
  intros He [co Hco].
  destruct (He _ _ Hco) as (co' & Hco' & (_ & _ & Hm & _) & _).
  unfold mro_of. by rewrite Hco, Hco'.
Qed.

Lemma extends_type_of h h' c t :
  extends h h' → type_of h c = Some t → type_of h' c = Some t.
Proof.
  unfold type_of. intros He. destruct (h !! c) as [co|] eqn:Hco; [|done].
  destruct (He _ _ Hco) as (co' & -> & (_ & _ & _ & Ht) & _). simpl.
  intros [= <-]. by rewrite Ht.
Qed.

Lemma setattr_Some h cls key a h' :
  setattr h cls key a = Some h' →
  cls ≠ object_id ∧ cls ≠ type_id ∧
  ∃ co, h !! cls = Some co ∧
        h' = <[cls := ClassObj (c_name co) (c_bases co) (c_mro co)
                               (c_type co) (<[key := a]> (c_dict co))]> h.
Proof.
  unfold setattr. case_bool_decide as Hb; [done|].
  destruct (h !! cls) as [co|] eqn:Hco; [|done]. intros [= <-].
  split; [tauto|]. split; [tauto|]. by exists co.
Qed.

Lemma setattr_lookup h cls key a h' i :
  setattr h cls key a = Some h' →
  h' !! i = (λ co, if bool_decide (i = cls)
                   then ClassObj (c_name co) (c_bases co) (c_mro co)
                                 (c_type co) (<[key := a]> (c_dict co))
                   else co) <$> h !! i.
Proof.
  intros (_ & _ & co & Hco & ->)%setattr_Some.
  case_bool_decide as Hi.
  - subst i. rewrite list_lookup_insert_eq; [|by eapply lookup_lt_Some].
    by rewrite Hco.
  - rewrite list_lookup_insert_ne; [|done]. by destruct (h !! i).
Qed.

Lemma setattr_length h cls key a h' :
  setattr h cls key a = Some h' → length h' = length h.
Proof.
  intros (_ & _ & co & Hco & ->)%setattr_Some. apply length_insert.
Qed.

Lemma setattr_extends h cls key a h' :
  setattr h cls key a = Some h' →
  (key = top_key → ∀ T, dict_get h cls top_key ≠ Some (AVal (VClass T))) →
  extends h h'.
Proof.
  intros Hs Hkey i co Hi. rewrite (setattr_lookup _ _ _ _ _ i Hs), Hi. simpl.
  eexists. split; [done|].
  case_bool_decide as Hic; [|split; [by repeat split | by intros ?]].
  split; [by repeat split|]. intros T HT. simpl. rewrite lookup_insert.
  case_decide as Hk; [|done]. subst i. destruct (Hkey Hk T).
  unfold dict_get. by rewrite Hi.
Qed.

Lemma setattr_mro_of h cls key a h' c :
  setattr h cls key a = Some h' → mro_of h' c = mro_of h c.
Proof.
  intros Hs. unfold mro_of. rewrite (setattr_lookup _ _ _ _ _ c Hs).
  destruct (h !! c); simpl; [|done]. by case_bool_decide.
Qed.

Lemma setattr_type_of h cls key a h' c :
  setattr h cls key a = Some h' → type_of h' c = type_of h c.
Proof.
  intros Hs. unfold type_of. rewrite (setattr_lookup _ _ _ _ _ c Hs).
  destruct (h !! c); simpl; [|done]. by case_bool_decide.
Qed.

Lemma setattr_type_mro h cls key a h' c :
  setattr h cls key a = Some h' → type_mro h' c = type_mro h c.
Proof.
  intros Hs. unfold type_mro. rewrite (setattr_lookup _ _ _ _ _ c Hs).
  destruct (h !! c); simpl; [|done].
  case_bool_decide; simpl; by eapply setattr_mro_of.
Qed.

Lemma setattr_dict_get h cls key a h' c key' :
  setattr h cls key a = Some h' →
  dict_get h' c key' =
    if bool_decide (c = cls ∧ key' = key) then Some a else dict_get h c key'.
Proof.
  intros Hs. unfold dict_get. rewrite (setattr_lookup _ _ _ _ _ c Hs).
  destruct (h !! c) as [co|] eqn:Hc; simpl.
  - destruct (decide (c = cls)) as [->|Hne].
    + rewrite (bool_decide_eq_true_2 (cls = cls)); [|done]. simpl.
      destruct (decide (key' = key)) as [->|Hk].
      * rewrite bool_decide_eq_true_2; [|done]. apply lookup_insert_eq.
      * rewrite bool_decide_eq_false_2; [|by intros [_ ?]].
        by rewrite lookup_insert_ne.
    + rewrite (bool_decide_eq_false_2 (c = cls)); [|done].
      by rewrite bool_decide_eq_false_2; [|by intros [? _]].
  - case_bool_decide as Hck; [|done]. destruct Hck as [-> ->].
    apply setattr_Some in Hs as (_ & _ & co & Hco & _). congruence.
Qed.

(** Writing one key leaves the lookup of every other key alone. *)
Lemma setattr_mro_lookup_ne h cls key a h' mro key' :
  setattr h cls key a = Some h' → key' ≠ key →
  mro_lookup h' mro key' = mro_lookup h mro key'.
Proof.
  intros Hs Hne. induction mro as [|c mro IH]; simpl; [done|].
  rewrite (setattr_dict_get _ _ _ _ _ c key' Hs).
  rewrite bool_decide_eq_false_2; [|by intros [_ ?]]. by rewrite IH.
Qed.

Lemma app_dict_get h l c key :
  is_Some (h !! c) → dict_get (h ++ l) c key = dict_get h c key.
Proof.
  intros [co Hco]. unfold dict_get.
  by rewrite (lookup_app_l_Some _ _ _ _ Hco), Hco.
Qed.

Lemma app_mro_of h l c : is_Some (h !! c) → mro_of (h ++ l) c = mro_of h c.
Proof. intros ?. apply extends_mro_of; [apply extends_app | done]. Qed.

Lemma app_mro_lookup h l mro key :
  (∀ x, x ∈ mro → x < length h) →
  mro_lookup (h ++ l) mro key = mro_lookup h mro key.
Proof.
  induction mro as [|c mro IH]; simpl; intros Hlt; [done|].
  rewrite app_dict_get.
  - rewrite IH; [done|]. intros x Hx. apply Hlt. by right.
  - apply lookup_lt_is_Some_2, Hlt. by left.
Qed.

Lemma after_elem this mro x : x ∈ after this mro → x ∈ mro.
Proof.
  induction mro as [|c mro IH]; simpl; [done|].
  case_bool_decide; intros ?; right; auto.
Qed.

Lemma after_nonempty this mro : after this mro ≠ [] → this ∈ mro.
Proof.
  induction mro as [|c mro IH]; simpl; [done|].
  case_bool_decide as Hc; [subst c; by left|]. intros ?. right. auto.
Qed.

Lemma mro_lookup_Some h mro key a :
  mro_lookup h mro key = Some a → ∃ c, c ∈ mro ∧ dict_get h c key = Some a.
Proof.
  induction mro as [|c mro IH]; simpl; [done|].
  destruct (dict_get h c key) as [a'|] eqn:Hd.
  - intros [= <-]. exists c. split; [by left | done].
  - intros (c' & ? & ?)%IH. exists c'. split; [by right | done].
Qed.

Lemma mro_lookup_is_Some h mro key c :
  c ∈ mro → is_Some (dict_get h c key) → is_Some (mro_lookup h mro key).
Proof.
  induction mro as [|c' mro IH]; simpl; [by intros ?%not_elem_of_nil|].
  intros [->|Hc]%elem_of_cons Hd.
  - destruct Hd as [a ->]. by eexists.
  - destruct (dict_get h c' key); [by eexists | by apply IH].
Qed.

Lemma mro_lookup_None h mro key :
  (∀ c, c ∈ mro → dict_get h c key = None) → mro_lookup h mro key = None.
Proof.
  induction mro as [|c mro IH]; simpl; intros Hn; [done|].
  rewrite Hn; [|by left]. apply IH. intros ??. apply Hn. by right.
Qed.
End heap_facts.

(** ** Well-formedness is preserved *)

(** Reduce projections of class objects and maps over options, and leave
    dictionary operations folded. *)
Ltac simp_cls :=
  cbn [c_name c_bases c_mro c_type c_dict fmap option_fmap option_map].

Section wf_facts.
Implicit Types (h : heap) (c cls mcls : cid) (key : string).

Lemma namespace_of_top body : namespace_of body !! top_key = None.
Proof.
  destruct body as [[f|] [g|]]; unfold namespace_of; simpl;
    repeat (rewrite lookup_insert_ne; [|done]); apply lookup_empty.
Qed.

Lemma wf_init : wf init_heap.
Proof.
  split.
  - done.
  - done.
  - exists ConformableMeta_cls. split; [done|]. split; [done|].
    by eexists.
  - intros [|[|[|i]]] co; simpl; intros [= <-]; simpl.
    all: split; [by eexists|]; split; [compute_done|].
    all: intros x Hx; repeat (apply elem_of_cons in Hx as [->|Hx]);
      [simpl; lia.. | by apply not_elem_of_nil in Hx].
  - intros [|[|[|i]]] co; simpl; intros [= <-]; simpl; intros [a Ha].
    + by vm_compute in Ha.
    + by vm_compute in Ha.
    + by left.
  - intros [|[|[|i]]] co c; simpl; intros [= <-]; simpl; intros Ha;
      by vm_compute in Ha.
Qed.

Lemma wf_length h : wf h → 3 ≤ length h.
Proof.
  intros [_ _ (co & Hco & _) _ _ _]. apply lookup_lt_Some in Hco. lia.
Qed.

Lemma wf_mro_of_head h c : wf h → is_Some (h !! c) → ∃ tl, mro_of h c = c :: tl.
Proof.
  intros Hwf [co Hco]. unfold mro_of. rewrite Hco.
  by destruct (wf_mro _ Hwf _ _ Hco) as [? _].
Qed.

Lemma wf_mro_of_lt h c x : wf h → x ∈ mro_of h c → x < length h.
Proof.
  intros Hwf. unfold mro_of. destruct (h !! c) as [co|] eqn:Hco.
  - by apply (wf_mro _ Hwf _ _ Hco).
  - by intros ?%not_elem_of_nil.
Qed.

(** Appending a fresh class object whose MRO is in order. *)
Lemma wf_alloc h co :
  wf h →
  (∃ tl, c_mro co = length h :: tl) → NoDup (c_mro co) →
  (∀ x, x ∈ c_mro co → x < S (length h)) →
  c_dict co !! top_key = None →
  wf (h ++ [co]).
Proof.
  intros Hwf Hhd Hnd Hlt Hd. pose proof (wf_length _ Hwf) as Hlen. split.
  - apply lookup_app_l_Some, Hwf.
  - apply lookup_app_l_Some, Hwf.
  - destruct (wf_meta _ Hwf) as (co' & ? & ?). exists co'.
    split; [by apply lookup_app_l_Some | done].
  - intros i co' [Hi|[Hi Hco']]%lookup_app_Some.
    + destruct (wf_mro _ Hwf _ _ Hi) as (? & ? & Hb).
      split; [done|]. split; [done|]. intros x Hx.
      rewrite length_app. specialize (Hb _ Hx). simpl. lia.
    + apply list_lookup_singleton_Some in Hco' as [Hz <-].
      assert (i = length h) as -> by lia.
      split; [done|]. split; [done|]. intros x Hx.
      rewrite length_app. specialize (Hlt _ Hx). simpl. lia.
  - intros i co' [Hi|[Hi Hco']]%lookup_app_Some.
    + by eapply (wf_slot _ Hwf); eauto.
    + apply list_lookup_singleton_Some in Hco' as [_ <-].
      rewrite Hd. by intros [? ?].
  - intros i co' c [Hi|[Hi Hco']]%lookup_app_Some Hc.
    + destruct (wf_tops _ Hwf _ _ _ Hi Hc) as [? Hm]. split; [done|].
      rewrite app_mro_of; [done|]. unfold mro_of in Hm.
      by destruct (h !! c).
    + apply list_lookup_singleton_Some in Hco' as [_ <-]. congruence.
Qed.

(** Writing an attribute: any key but the top slot is harmless, and the
    top slot may receive a class whose MRO is itself and [object]. *)
Lemma wf_setattr h mcls key a h' :
  wf h → setattr h mcls key a = Some h' →
  (key = top_key →
     ConformableMeta_id ∈ mro_of h mcls ∧
     ∃ c, a = AVal (VClass c) ∧ 3 ≤ c ∧ mro_of h c = [c; object_id]) →
  wf h'.
Proof.
  intros Hwf Hs Hkey.
  pose proof (setattr_Some _ _ _ _ _ Hs) as (Ho & Ht & com & Hcom & _).
  split.
  - rewrite (setattr_lookup _ _ _ _ _ object_id Hs), (wf_object _ Hwf).
    simp_cls. by rewrite bool_decide_eq_false_2.
  - rewrite (setattr_lookup _ _ _ _ _ type_id Hs), (wf_type _ Hwf).
    simp_cls. by rewrite bool_decide_eq_false_2.
  - destruct (wf_meta _ Hwf) as (co & Hco & Hm & Hd).
    rewrite (setattr_lookup _ _ _ _ _ ConformableMeta_id Hs), Hco. simp_cls.
    eexists. split; [done|]. case_bool_decide; simp_cls; [|auto].
    split; [done|]. rewrite lookup_insert. case_decide; [by eexists | done].
  - intros i co'. rewrite (setattr_lookup _ _ _ _ _ i Hs).
    destruct (h !! i) as [co|] eqn:Hi; simp_cls; [|done]. intros [= <-].
    rewrite (setattr_length _ _ _ _ _ Hs).
    destruct (wf_mro _ Hwf _ _ Hi) as (? & ? & ?). by case_bool_decide.
  - intros i co'. rewrite (setattr_lookup _ _ _ _ _ i Hs).
    destruct (h !! i) as [co|] eqn:Hi; simp_cls; [|done]. intros [= <-].
    case_bool_decide as Him; simp_cls; [|by eapply (wf_slot _ Hwf); eauto].
    subst i. rewrite lookup_insert. case_decide as Hk.
    + intros _. destruct (Hkey Hk) as [Hin _].
      unfold mro_of in Hin. by rewrite Hi in Hin.
    + by eapply (wf_slot _ Hwf); eauto.
  - intros i co' c. rewrite (setattr_lookup _ _ _ _ _ i Hs).
    destruct (h !! i) as [co|] eqn:Hi; simp_cls; [|done]. intros [= <-].
    rewrite (setattr_mro_of _ _ _ _ _ c Hs).
    case_bool_decide as Him; simp_cls; [|by eapply (wf_tops _ Hwf); eauto].
    subst i. rewrite lookup_insert. case_decide as Hk.
    + intros [= ->]. destruct (Hkey Hk) as (_ & c' & [= <-] & ? & ?). done.
    + by eapply (wf_tops _ Hwf); eauto.
Qed.
End wf_facts.

(** ** What class construction does to the heap *)

Section construction_facts.
Implicit Types (h : heap) (c cls mcls : cid) (bases : list cid).

(** [type_build] either fails before allocating, or appends exactly one
    class object and then succeeds or fails in [__init_subclass__]. *)
Lemma type_build_cases h mt name bases body :
  type_build h mt name bases body = Raise TypeError h ∨
  ∃ mro, linearize h (length h) (actual_bases bases) = Some mro ∧
    let h' := h ++ [ClassObj name (actual_bases bases) mro mt
                             (namespace_of body)] in
    (type_build h mt name bases body = Ok (length h) h' ∧
     (ConformableMeta_id ∈ tail mro →
      ConformableMeta___init_subclass__ (namespace_of body) = Ret ())) ∨
    (type_build h mt name bases body = Raise TypeError h' ∧
     ConformableMeta_id ∈ tail mro ∧
     ConformableMeta___init_subclass__ (namespace_of body) = Exc TypeError).
Proof.
  unfold type_build.
  destruct (linearize h (length h) (actual_bases bases)) as [mro|];
    [|by left].
  right. exists mro. split; [done|]. simpl.
  case_bool_decide as Hin; [|by left].
  destruct (ConformableMeta___init_subclass__ (namespace_of body))
    as [[]|e] eqn:Hc; [by left|]. right.
  assert (e = TypeError) as ->; [|done].
  unfold ConformableMeta___init_subclass__, absmeths in Hc. simpl in Hc.
  repeat (destruct (_ !! _) in Hc; [|by inversion Hc]). done.
Qed.

Lemma linearize_wf h bases mro :
  wf h → linearize h (length h) bases = Some mro →
  (∃ tl, mro = length h :: tl) ∧ NoDup mro ∧
  ∀ x, x ∈ mro → x < S (length h).
Proof.
  intros Hwf (m & -> & Hnd & _ & Hsub)%linearize_Some.
  assert (∀ x, x ∈ m → x < length h) as Hlt.
  { intros x (b & co & _ & Hb & [->|Hx])%Hsub.
    - by eapply lookup_lt_Some.
    - by apply (wf_mro _ Hwf _ _ Hb). }
  split; [by eexists|]. split.
  - apply NoDup_cons. split; [|done]. intros ?%Hlt. lia.
  - intros x [->|?%Hlt]%elem_of_cons; lia.
Qed.

Lemma linearize_object h cls :
  wf h → linearize h cls [object_id] = Some [cls; object_id].
Proof.
  intros Hwf.
  rewrite (linearize_single h cls object_id object_cls []);
    [done | apply Hwf | done | compute_done].
Qed.

Lemma new_post_raise h bases body e : wf h → new_post h bases body (Raise e h).
Proof. intros ?. split; [done|]. split; [apply extends_refl | done]. Qed.

Lemma new_post_fuel h bases body : wf h → new_post h bases body OutOfFuel.
Proof. intros ?. split; [done|]. split; [apply extends_refl | done]. Qed.

Lemma type_build_post h mt name bases body :
  wf h → new_post h bases body (type_build h mt name bases body).
Proof.
  intros Hwf. pose proof (wf_length _ Hwf) as Hlen.
  destruct (type_build_cases h mt name bases body)
    as [->|(mro & Hlin & [[-> Hck]|[-> _]])]; simpl.
  - by apply new_post_raise.
  - destruct (linearize_wf _ _ _ Hwf Hlin) as (? & ? & ?).
    split; [by apply wf_alloc; [| | | |apply namespace_of_top]|].
    split; [apply extends_app|]. intros cls h' [= <- <-].
    rewrite length_app. simpl.
    assert (mro_of (h ++ [ClassObj name (actual_bases bases) mro mt
                                    (namespace_of body)]) (length h) = mro)
      as ->.
    { unfold mro_of. by rewrite lookup_app_r, Nat.sub_diag. }
    split; [lia|]. split; [lia|]. split; [|done].
    intros ->. simpl in Hlin. rewrite linearize_object in Hlin; [|done].
    by injection Hlin as <-.
  - destruct (linearize_wf _ _ _ Hwf Hlin) as (? & ? & ?).
    split; [by apply wf_alloc; [| | | |apply namespace_of_top]|].
    split; [apply extends_app | done].
Qed.

Lemma super_lookup_family h this mcls key a :
  super_lookup h this mcls key = Some a →
  this ∈ mro_of h mcls ∧ is_Some (h !! mcls).
Proof.
  unfold super_lookup. intros Hl. assert (after this (mro_of h mcls) ≠ []).
  { intros Heq. by rewrite Heq in Hl. }
  split; [by apply after_nonempty|]. unfold mro_of in *.
  by destruct (h !! mcls).
Qed.

(** An attribute in the class's own dictionary is the one found. *)
Lemma getattr_own h c key a :
  wf h → dict_get h c key = Some a → getattr h c key = Some (OnClass a).
Proof.
  intros Hwf Hd. unfold getattr.
  destruct (wf_mro_of_head h c Hwf) as [tl ->].
  { unfold dict_get in Hd. by destruct (h !! c). }
  simpl. by rewrite Hd.
Qed.

(** Every [__new__] keeps the heap well-formed, only ever adds to it, and
    a class it returns for an empty base list has the MRO
    [[cls; object]]. *)
Lemma call_new_sound fuel : ∀ f mcls name bases body h,
  wf h → new_post h bases body (call_new fuel f mcls name bases body h).
Proof.
  induction fuel as [|n IH]; intros f mcls name bases body h Hwf; simpl.
  { by apply new_post_fuel. }
  destruct f as [| | |from_cls to_cls inner].
  - by apply new_post_raise.
  - destruct (calculate_metaclass h mcls bases) as [winner|];
      [|by apply new_post_raise].
    case_bool_decide; [by apply type_build_post|].
    destruct (mro_lookup h (mro_of h winner) new_key) as [[| | |[]]|];
      first [by apply new_post_raise | by apply type_build_post
            | by apply IH].
  - destruct (super_lookup h ConformableMeta_id mcls new_key)
      as [[| | |g]|] eqn:Hsup; try by apply new_post_raise.
    apply super_lookup_family in Hsup as [Hfam Hmcls].
    specialize (IH g mcls name bases body h Hwf).
    destruct (call_new n g mcls name bases body h) as [cls h1| |];
      [|done..].
    destruct IH as (Hwf1 & Hext & Hok). simpl in Hwf1, Hext.
    destruct (Hok _ _ eq_refl) as (Hcls & Hlen & Hmro & Hck).
    destruct bases as [|b bases]; [|done].
    specialize (Hmro eq_refl).
    assert (∀ e, new_post h [] body (Raise e h1)) as Hr by done.
    destruct (getattr h1 mcls top_key) as [fd|] eqn:Hg; [|apply Hr].
    assert (found_attr fd = AVal VNone →
      new_post h [] body
        match setattr h1 mcls top_key (AVal (VClass cls)) with
        | Some h2 => Ok cls h2
        | None => Raise TypeError h1
        end) as Hset.
    { intros Hfd.
      destruct (setattr h1 mcls top_key (AVal (VClass cls))) as [h2|] eqn:Hs;
        [|apply Hr]. split; [|split]; simpl.
      - apply (wf_setattr h1 mcls top_key _ h2 Hwf1 Hs). intros _. split.
        + by rewrite (extends_mro_of h h1).
        + by exists cls.
      - eapply extends_trans; [done|]. eapply setattr_extends; [done|].
        intros _ T HT. rewrite (getattr_own _ _ _ _ Hwf1 HT) in Hg.
        injection Hg as <-. done.
      - intros ?? [= <- <-]. rewrite (setattr_length _ _ _ _ _ Hs).
        rewrite (setattr_mro_of _ _ _ _ _ cls Hs). done. }
    destruct fd as [[[]| | |]|[[]| | |]]; first [apply Hr | by apply Hset].
  - destruct (type_of h to_cls) as [to_mcls|]; [|by apply new_post_raise].
    specialize (IH inner to_mcls name (redirect_bases from_cls to_cls bases)
                  body h Hwf).
    destruct IH as (? & ? & Hok). split; [done|]. split; [done|].
    intros cls h' Ho. destruct (Hok _ _ Ho) as (? & ? & Hm & ?).
    split; [done|]. split; [done|]. split; [|done]. intros ->. by apply Hm.
Qed.
End construction_facts.

Section program_facts.
Implicit Types (h : heap) (c cls mcls : cid) (bases : list cid).

Lemma class_stmt_sound fuel h name bases metaclass body :
  wf h →
  let o := class_stmt fuel h name bases metaclass body in
  wf (heap_after h o) ∧ extends h (heap_after h o).
Proof.
  intros Hwf. unfold class_stmt.
  destruct (stmt_metaclass h bases metaclass) as [meta|];
    [|by split; [|apply extends_refl]].
  destruct (resolve_new h meta) as [f|];
    [|by split; [|apply extends_refl]].
  destruct (call_new_sound fuel f meta name bases body h Hwf) as (?&?&_).
  by split.
Qed.

(** [redirect_subclasses] either raises and leaves the heap alone, or
    stores a closure under [__new__] of [target_mcls]. *)
Lemma redirect_subclasses_cases h target_mcls from_cls to_cls :
  (∃ e, redirect_subclasses h target_mcls from_cls to_cls = Raise e h) ∨
  ∃ to_mcls to_mcls_new h',
    target_mcls ∈ type_mro h from_cls ∧
    type_of h to_cls = Some to_mcls ∧
    (∃ fd, getattr h to_mcls new_key = Some fd ∧
           found_attr fd = ANew to_mcls_new) ∧
    setattr h target_mcls new_key
            (ANew (RedirectNew from_cls to_cls to_mcls_new)) = Some h' ∧
    redirect_subclasses h target_mcls from_cls to_cls = Ok () h'.
Proof.
  unfold redirect_subclasses.
  case_bool_decide as Hin; simpl; [|left; by eexists].
  destruct (type_of h to_cls) as [to_mcls|]; [|left; by eexists].
  destruct (getattr h to_mcls new_key) as [[[]|[]]|] eqn:Hg;
    try (left; by eexists).
  all: match goal with
       | |- context [setattr ?a ?b ?c ?d] =>
           destruct (setattr a b c d) as [h'|] eqn:Hs;
             [|left; by eexists]
       end.
  all: right; eexists _, _, h'; repeat split; try done; by eexists.
Qed.

Lemma redirect_subclasses_sound h target_mcls from_cls to_cls :
  wf h →
  let o := redirect_subclasses h target_mcls from_cls to_cls in
  wf (heap_after h o) ∧ extends h (heap_after h o).
Proof.
  intros Hwf.
  destruct (redirect_subclasses_cases h target_mcls from_cls to_cls)
    as [[e ->]|(? & ? & h' & _ & _ & _ & Hs & ->)]; simpl.
  - by split; [|apply extends_refl].
  - split; [|by eapply setattr_extends].
    eapply wf_setattr; [done | done |]. by intros [=].
Qed.

Lemma exec_sound fuel h o : wf h → wf (exec fuel h o) ∧ extends h (exec fuel h o).
Proof.
  intros Hwf. destruct o; simpl.
  - by apply class_stmt_sound.
  - by apply redirect_subclasses_sound.
Qed.

Lemma reachable_wf h : reachable h → wf h.
Proof.
  induction 1 as [|h fuel o _ IH]; [apply wf_init|].
  by apply exec_sound.
Qed.

Lemma run_reachable fuel ops h : reachable h → reachable (run fuel ops h).
Proof.
  revert h. induction ops as [|o ops IH]; intros h Hr; simpl; [done|].
  apply IH. by constructor.
Qed.

Lemma run_extends fuel ops h : wf h → extends h (run fuel ops h).
Proof.
  revert h. induction ops as [|o ops IH]; intros h Hwf; simpl.
  - apply extends_refl.
  - destruct (exec_sound fuel h o Hwf) as [Hwf' Hext].
    eapply extends_trans; [done | by apply IH].
Qed.
End program_facts.

(** ** The top slot as seen from a class *)

Section top_facts.
Implicit Types (h : heap) (c cls mcls T : cid).

Lemma app_top_of h co m T :
  c_dict co !! top_key = None → top_of (h ++ [co]) m T → top_of h m T.
Proof.
  unfold top_of, dict_get. intros Hd.
  destruct ((h ++ [co]) !! m) as [cm|] eqn:Hm; [|done].
  apply lookup_app_Some in Hm as [-> | [_ Hm]]; [done|].
  apply list_lookup_singleton_Some in Hm as [_ <-]. by rewrite Hd.
Qed.

Lemma top_of_mro h mcls T :
  wf h → top_of h mcls T → 3 ≤ T ∧ mro_of h T = [T; object_id].
Proof.
  unfold top_of, dict_get. intros Hwf.
  destruct (h !! mcls) as [co|] eqn:Hco; [|done].
  by apply (wf_tops _ Hwf mcls).
Qed.

(** A top type has no top slot of its own, so [T.__top] is read from
    its metaclass. *)
Lemma getattr_top_registered h T mcls :
  wf h → type_of h T = Some mcls → top_of h mcls T →
  getattr h T top_key = Some (OnMeta (AVal (VClass T))).
Proof.
  intros Hwf Hty Htop. destruct (top_of_mro _ _ _ Hwf Htop) as [HT Hmro].
  unfold getattr. rewrite Hmro.
  rewrite mro_lookup_None.
  - unfold type_of in Hty. unfold type_mro.
    destruct (h !! T) as [ct|]; [|done]. injection Hty as ->.
    destruct (wf_mro_of_head h mcls Hwf) as [tl ->].
    { unfold top_of, dict_get in Htop. by destruct (h !! mcls). }
    simpl. by rewrite Htop.
  - intros c [->|[->|[]%not_elem_of_nil]%elem_of_cons]%elem_of_cons.
    + unfold dict_get. destruct (h !! T) as [ct|] eqn:Hct; [|done].
      destruct (c_dict ct !! top_key) as [a|] eqn:Ha; [|done].
      assert (ConformableMeta_id ∈ c_mro ct) as Hin.
      { apply (wf_slot _ Hwf T); [done | by eexists]. }
      unfold mro_of in Hmro. rewrite Hct in Hmro. rewrite Hmro in Hin.
      apply elem_of_cons in Hin as [?|Hin]; [lia|].
      by apply list_elem_of_singleton in Hin.
    + unfold dict_get. by rewrite (wf_object _ Hwf).
Qed.

(** In a [ConformableMeta] family the top slot can always be read. *)
Lemma getattr_top_exists h cls :
  wf h → ConformableMeta_id ∈ type_mro h cls →
  is_Some (getattr h cls top_key).
Proof.
  intros Hwf Hin. unfold getattr.
  destruct (mro_lookup h (mro_of h cls) top_key); [by eexists|].
  destruct (wf_meta _ Hwf) as (co & Hco & _ & Hd).
  destruct (mro_lookup_is_Some h (type_mro h cls) top_key ConformableMeta_id)
    as [a ->]; [done | | by eexists].
  unfold dict_get. by rewrite Hco.
Qed.

(** Whatever class the top slot names is a registered top type. *)
Lemma getattr_top_class h cls fd c :
  getattr h cls top_key = Some fd → found_attr fd = AVal (VClass c) →
  ∃ m, top_of h m c.
Proof.
  unfold getattr.
  destruct (mro_lookup h (mro_of h cls) top_key) as [a|] eqn:Hl.
  - intros [= <-]. simpl. intros ->.
    apply mro_lookup_Some in Hl as (m & _ & ?). by exists m.
  - destruct (mro_lookup h (type_mro h cls) top_key) as [a|] eqn:Hl';
      [|done]. intros [= <-]. simpl. intros ->.
    apply mro_lookup_Some in Hl' as (m & _ & ?). by exists m.
Qed.

Lemma not_top_is_not h cls fd :
  getattr h cls top_key = Some fd → (∀ m, ¬ top_of h m cls) →
  is_not fd cls = true.
Proof.
  intros Hg Hno. unfold is_not.
  destruct (found_attr fd) as [[|b| |c|n]| | |] eqn:Hfd; try done.
  case_bool_decide as Hc; [|done]. subst c.
  destruct (getattr_top_class _ _ _ _ Hg Hfd) as [m Hm]. by destruct (Hno m).
Qed.

(** A class with a top type among its proper ancestors is no top type. *)
Lemma derived_not_top h D T mcls :
  wf h → top_of h mcls T → T ∈ mro_of h D → D ≠ T →
  ∀ m, ¬ top_of h m D.
Proof.
  intros Hwf HT Hin Hne m Hm.
  destruct (top_of_mro _ _ _ Hwf HT) as [H3 _].
  destruct (top_of_mro _ _ _ Hwf Hm) as [_ Hmro]. rewrite Hmro in Hin.
  apply elem_of_cons in Hin as [?|Hin]; [done|].
  apply list_elem_of_singleton in Hin. lia.
Qed.

(** A top type is built on [object] alone, so it is no subclass of
    [ConformableMeta], and [super()] in the two tests binds to it as an
    instance. *)
Lemma top_is_no_metaclass h mcls T :
  wf h → top_of h mcls T → issubtype h T ConformableMeta_id = false.
Proof.
  intros Hwf Htop. destruct (top_of_mro _ _ _ Hwf Htop) as [H3 Hmro].
  unfold issubtype. rewrite Hmro. apply bool_decide_eq_false_2.
  intros [?|[?|[]%not_elem_of_nil]%elem_of_cons]%elem_of_cons; lia.
Qed.

Lemma shape_heap_reachable : reachable shape_heap.
Proof. apply run_reachable, reach_init. Qed.

Lemma odd_heap_reachable : reachable odd_heap.
Proof. apply reach_step, shape_heap_reachable. Qed.
End top_facts.

(** * The claims *)

(** C1.  For the registered top type [T] of a family, [__instancecheck__]
    on [T] returns exactly the boolean the hook [conformable_isinstance]
    returns, and the nominal membership result when the hook returns
    [NotImplemented]. *)
Theorem instancecheck_top_follows_hook h T mcls hook v :
  reachable h →
  type_of h T = Some mcls →
  top_of h mcls T →
  getattr h T "conformable_isinstance" = Some (OnMeta (AInstHook hook)) →
  (∀ b, hook T v = Ret (VBool b) →
        ConformableMeta___instancecheck__ h T v = Ret (VBool b)) ∧
  (hook T v = Ret VNotImplemented →
   ConformableMeta___instancecheck__ h T v =
     Ret (VBool (type___instancecheck__ h T v))).
Proof.
  intros Hr%reachable_wf Hty Htop Hhook.
  unfold ConformableMeta___instancecheck__, super___instancecheck__.
  rewrite (top_is_no_metaclass _ _ _ Hr Htop).
  rewrite (getattr_top_registered _ _ _ Hr Hty Htop), Hhook.
  unfold is_not. simpl. rewrite bool_decide_eq_true_2; [|done]. simpl.
  split; [intros b -> | intros ->]; done.
Qed.

Lemma instancecheck_top_follows_hook_witness :
  ConformableMeta___instancecheck__ shape_heap Shape shape_like
    = Ret (VBool true) ∧
  ConformableMeta___instancecheck__ shape_heap Shape plain_object
    = Ret (VBool false).
Proof.
  split.
  - apply (proj1 (instancecheck_top_follows_hook shape_heap Shape ShapeMeta
                    shape_isinstance shape_like shape_heap_reachable
                    eq_refl eq_refl eq_refl)).
    reflexivity.
  - apply (proj2 (instancecheck_top_follows_hook shape_heap Shape ShapeMeta
                    shape_isinstance plain_object shape_heap_reachable
                    eq_refl eq_refl eq_refl)).
    reflexivity.
Defined.

(** C2 at the input where the code departs from it.  [Odd] is declared
    as [class Odd(ShapeMeta, Shape)]: a type derived from the top type
    [Shape], different from it, constructed under [ShapeMeta], and a
    subclass of [ShapeMeta] as well.  [__instancecheck__] on [Odd] does not
    give the nominal result, which is [True] for an instance of [Odd] and
    [False] for an instance of [Circle]: it raises [TypeError], on every
    object. *)
Theorem instancecheck_raises_on_metaclass_subclass :
  class_stmt 4 shape_heap "Odd" [ShapeMeta; Shape] None hooks_body
    = Ok Odd odd_heap ∧
  type_of odd_heap Odd = Some ShapeMeta ∧
  top_of odd_heap ShapeMeta Shape ∧
  Shape ∈ mro_of odd_heap Odd ∧
  type___instancecheck__ odd_heap Odd an_odd = true ∧
  type___instancecheck__ odd_heap Odd a_circle = false ∧
  ConformableMeta___instancecheck__ odd_heap Odd an_odd = Exc TypeError ∧
  ConformableMeta___instancecheck__ odd_heap Odd a_circle = Exc TypeError ∧
  ∀ v, ConformableMeta___instancecheck__ odd_heap Odd v = Exc TypeError.
Proof.
  repeat (split; [first [compute_done | vm_compute; reflexivity]|]).
  intros v. vm_compute. reflexivity.
Qed.

(** C3 at the same input: [__subclasscheck__] on [Odd], which is no top
    type, does not give the nominal result, [True] for [Odd] itself and
    [False] for [Circle]; it raises [TypeError], on every class. *)
Theorem subclasscheck_raises_on_metaclass_subclass :
  class_stmt 4 shape_heap "Odd" [ShapeMeta; Shape] None hooks_body
    = Ok Odd odd_heap ∧
  type_of odd_heap Odd = Some ShapeMeta ∧
  top_of odd_heap ShapeMeta Shape ∧
  type___subclasscheck__ odd_heap Odd Odd = true ∧
  type___subclasscheck__ odd_heap Odd Circle = false ∧
  ConformableMeta___subclasscheck__ odd_heap Odd Odd = Exc TypeError ∧
  ConformableMeta___subclasscheck__ odd_heap Odd Circle = Exc TypeError ∧
  ∀ subclass,
    ConformableMeta___subclasscheck__ odd_heap Odd subclass = Exc TypeError.
Proof.
  repeat (split; [first [compute_done | vm_compute; reflexivity]|]).
  intros subclass. vm_compute. reflexivity.
Qed.

(** ** The tests on classes that are no top type *)

(** X18.  For every type [D] derived from a family's top type [T] and
    different from it, [__instancecheck__] on [D] is the nominal membership
    result, whatever hooks the family defines, provided [D] is not itself
    a subclass of [ConformableMeta]; when it is, the test raises
    [TypeError]. *)
Theorem instancecheck_derived_nominal h D T mcls v :
  reachable h →
  top_of h mcls T →
  T ∈ mro_of h D →
  D ≠ T →
  ConformableMeta_id ∈ type_mro h D →
  (ConformableMeta_id ∉ mro_of h D →
   ConformableMeta___instancecheck__ h D v =
     Ret (VBool (type___instancecheck__ h D v))) ∧
  (ConformableMeta_id ∈ mro_of h D →
   ConformableMeta___instancecheck__ h D v = Exc TypeError).
Proof.
  intros Hr%reachable_wf Htop Hin Hne Hfam.
  unfold ConformableMeta___instancecheck__, super___instancecheck__, issubtype.
  destruct (getattr_top_exists _ _ Hr Hfam) as [fd Hfd]. rewrite Hfd.
  rewrite (not_top_is_not _ _ _ Hfd); [|by eapply derived_not_top].
  split; intros Hmeta.
  - by rewrite bool_decide_eq_false_2.
  - by rewrite bool_decide_eq_true_2.
Qed.

Lemma instancecheck_derived_nominal_witness :
  ConformableMeta___instancecheck__ shape_heap Circle shape_like
    = Ret (VBool false) ∧
  ConformableMeta___instancecheck__ shape_heap Circle a_circle
    = Ret (VBool true).
Proof.
  split.
  - apply (proj1 (instancecheck_derived_nominal shape_heap Circle Shape
                    ShapeMeta shape_like shape_heap_reachable eq_refl
                    ltac:(compute_done) ltac:(lia) ltac:(compute_done))).
    compute_done.
  - apply (proj1 (instancecheck_derived_nominal shape_heap Circle Shape
                    ShapeMeta a_circle shape_heap_reachable eq_refl
                    ltac:(compute_done) ltac:(lia) ltac:(compute_done))).
    compute_done.
Defined.

(** X19.  [__subclasscheck__] mirrors [__instancecheck__]: on the top type
    it returns the boolean the hook [conformable_issubclass] returns, the
    nominal subclass result when the hook returns [NotImplemented]; on a
    class that is no top type it returns the nominal result, provided the
    class is not itself a subclass of [ConformableMeta], and raises
    [TypeError] when it is. *)
Theorem subclasscheck_symmetric h cls subclass :
  reachable h →
  ConformableMeta_id ∈ type_mro h cls →
  (∀ mcls hook,
     type_of h cls = Some mcls → top_of h mcls cls →
     getattr h cls "conformable_issubclass" = Some (OnMeta (ASubHook hook)) →
     (∀ b, hook cls subclass = Ret (VBool b) →
           ConformableMeta___subclasscheck__ h cls subclass = Ret (VBool b)) ∧
     (hook cls subclass = Ret VNotImplemented →
      ConformableMeta___subclasscheck__ h cls subclass =
        Ret (VBool (type___subclasscheck__ h cls subclass)))) ∧
  ((∀ m, ¬ top_of h m cls) →
   (ConformableMeta_id ∉ mro_of h cls →
    ConformableMeta___subclasscheck__ h cls subclass =
      Ret (VBool (type___subclasscheck__ h cls subclass))) ∧
   (ConformableMeta_id ∈ mro_of h cls →
    ConformableMeta___subclasscheck__ h cls subclass = Exc TypeError)).
Proof.
  intros Hr%reachable_wf Hfam.
  unfold ConformableMeta___subclasscheck__, super___subclasscheck__.
  split.
  - intros mcls hook Hty Htop Hhook.
    rewrite (top_is_no_metaclass _ _ _ Hr Htop).
    rewrite (getattr_top_registered _ _ _ Hr Hty Htop), Hhook.
    unfold is_not. simpl. rewrite bool_decide_eq_true_2; [|done]. simpl.
    split; [intros b -> | intros ->]; done.
  - intros Hno. destruct (getattr_top_exists _ _ Hr Hfam) as [fd Hfd].
    rewrite Hfd, (not_top_is_not _ _ _ Hfd); [|done].
    unfold issubtype. split; intros Hmeta.
    + by rewrite bool_decide_eq_false_2.
    + by rewrite bool_decide_eq_true_2.
Qed.

Lemma subclasscheck_symmetric_witness :
  ConformableMeta___subclasscheck__ shape_heap Shape object_id
    = Ret (VBool true) ∧
  ConformableMeta___subclasscheck__ shape_heap Shape Circle
    = Ret (VBool true) ∧
  ConformableMeta___subclasscheck__ shape_heap Circle Shape
    = Ret (VBool false).
Proof.
  split; [|split].
  - apply (proj1 (proj1 (subclasscheck_symmetric shape_heap Shape object_id
                           shape_heap_reachable ltac:(compute_done))
                    ShapeMeta shape_issubclass eq_refl eq_refl eq_refl)).
    reflexivity.
  - apply (proj2 (proj1 (subclasscheck_symmetric shape_heap Shape Circle
                           shape_heap_reachable ltac:(compute_done))
                    ShapeMeta shape_issubclass eq_refl eq_refl eq_refl)).
    reflexivity.
  - apply (proj2 (subclasscheck_symmetric shape_heap Circle Shape
                    shape_heap_reachable ltac:(compute_done))).
    + eapply (derived_not_top shape_heap Circle Shape ShapeMeta).
      * apply reachable_wf, shape_heap_reachable.
      * reflexivity.
      * compute_done.
      * lia.
    + compute_done.
Defined.

(** ** Baseless construction under [ConformableMeta.__new__] *)

Section baseless_facts.
Implicit Types (h : heap) (c cls mcls T : cid).

Lemma app_getattr_on_class h l c key a :
  wf h → getattr h c key = Some (OnClass a) →
  getattr (h ++ l) c key = Some (OnClass a).
Proof.
  intros Hwf. unfold getattr.
  destruct (mro_lookup h (mro_of h c) key) as [a'|] eqn:Hl.
  - intros [= ->].
    assert (is_Some (h !! c)) as Hc.
    { unfold mro_of in Hl. by destruct (h !! c). }
    rewrite app_mro_of; [|done]. rewrite app_mro_lookup; [by rewrite Hl|].
    intros x. by apply wf_mro_of_lt.
  - by destruct (mro_lookup h (type_mro h c) key).
Qed.

(** In a [ConformableMeta] family the top slot is found along the MRO of
    the metaclass itself. *)
Lemma getattr_family_on_class h mcls fd :
  wf h → ConformableMeta_id ∈ mro_of h mcls →
  getattr h mcls top_key = Some fd → ∃ a, fd = OnClass a.
Proof.
  intros Hwf Hin. unfold getattr.
  destruct (wf_meta _ Hwf) as (co & Hco & _ & Hd).
  destruct (mro_lookup_is_Some h (mro_of h mcls) top_key ConformableMeta_id)
    as [a ->]; [done | | ].
  - unfold dict_get. by rewrite Hco.
  - intros [= <-]. by exists a.
Qed.

Lemma family_mutable h mcls :
  wf h → ConformableMeta_id ∈ mro_of h mcls →
  mcls ≠ object_id ∧ mcls ≠ type_id ∧ is_Some (h !! mcls).
Proof.
  intros Hwf Hin. unfold mro_of in Hin. split; [|split].
  - intros ->. rewrite (wf_object _ Hwf) in Hin. simpl in Hin.
    apply list_elem_of_singleton in Hin. lia.
  - intros ->. rewrite (wf_type _ Hwf) in Hin. simpl in Hin.
    apply elem_of_cons in Hin as [?|?%list_elem_of_singleton]; lia.
  - destruct (h !! mcls); [by eexists|]. by apply not_elem_of_nil in Hin.
Qed.

Lemma type_build_baseless h mt name body :
  wf h →
  type_build h mt name [] body =
    Ok (length h) (h ++ [new_class h mt name [object_id] [object_id] body]).
Proof.
  intros Hwf. unfold type_build. cbn [actual_bases].
  rewrite linearize_object; [|done]. cbn [tail].
  rewrite bool_decide_eq_false_2; [done|].
  intros ?%list_elem_of_singleton. lia.
Qed.

(** The first baseless class of a family becomes its top type. *)
Lemma conformable_new_first n h mcls name body :
  wf h →
  super_lookup h ConformableMeta_id mcls new_key = Some (ANew TypeNew) →
  top_is_None h mcls →
  ∃ h1,
    call_new (S (S n)) ConformableNew mcls name [] body h
      = Ok (length h) h1 ∧
    setattr (h ++ [new_class h mcls name [object_id] [object_id] body])
            mcls top_key (AVal (VClass (length h))) = Some h1 ∧
    top_of h1 mcls (length h).
Proof.
  intros Hwf Hsup (fd & Hfd & Hnone).
  pose proof (super_lookup_family _ _ _ _ _ Hsup) as [Hfam _].
  destruct (family_mutable _ _ Hwf Hfam) as (Ho & Ht & [cm Hcm]).
  destruct (getattr_family_on_class _ _ _ Hwf Hfam Hfd) as [a ->].
  simpl in Hnone. subst a.
  set (h0 := h ++ [new_class h mcls name [object_id] [object_id] body]).
  assert (∃ h1, setattr h0 mcls top_key (AVal (VClass (length h))) = Some h1)
    as [h1 Hs].
  { unfold setattr. rewrite bool_decide_eq_false_2; [|by intros [?|?]].
    unfold h0. rewrite (lookup_app_l_Some _ _ _ _ Hcm). by eexists. }
  exists h1. split; [|split; [done|]].
  - cbn [call_new calculate_metaclass]. rewrite Hsup.
    rewrite bool_decide_eq_true_2; [|done].
    rewrite type_build_baseless; [|done].
    rewrite (app_getattr_on_class _ _ _ _ _ Hwf Hfd). fold h0. by rewrite Hs.
  - unfold top_of. rewrite (setattr_dict_get _ _ _ _ _ mcls top_key Hs).
    by rewrite bool_decide_eq_true_2.
Qed.

(** A baseless class of a family that already has a top type: the class
    object is allocated, then the assertion fails. *)
Lemma conformable_new_second n h mcls name body T :
  wf h →
  super_lookup h ConformableMeta_id mcls new_key = Some (ANew TypeNew) →
  top_of h mcls T →
  call_new (S (S n)) ConformableNew mcls name [] body h
    = Raise AssertionError
        (h ++ [new_class h mcls name [object_id] [object_id] body]).
Proof.
  intros Hwf Hsup Htop.
  cbn [call_new calculate_metaclass]. rewrite Hsup.
  rewrite bool_decide_eq_true_2; [|done].
  rewrite type_build_baseless; [|done].
  rewrite (app_getattr_on_class _ _ _ _ (AVal (VClass T)) Hwf); [done|].
  by apply getattr_own.
Qed.

(** With an empty base list the closures of a family constructor have
    nothing to rewrite: the call arrives at [ConformableMeta.__new__]
    with the family's metaclass. *)
Lemma call_family_new_baseless f : ∀ n h mcls name body,
  family_new h mcls f →
  call_new (new_depth f + n) f mcls name [] body h
    = call_new n ConformableNew mcls name [] body h.
Proof.
  induction f as [| | |from_cls to_cls inner IH];
    intros n h mcls name body Hfam; try done.
  destruct Hfam as [Hty Hfam]. cbn [new_depth Nat.add call_new].
  rewrite Hty. by apply IH.
Qed.

Lemma family_new_extends h h' mcls f :
  extends h h' → family_new h mcls f → family_new h' mcls f.
Proof.
  intros Hext. induction f as [| | |from_cls to_cls inner IH]; try done.
  intros [Hty Hfam]. split; [by eapply extends_type_of | by apply IH].
Qed.

Lemma class_stmt_explicit fuel h name mcls body f :
  resolve_new h mcls = Some f →
  class_stmt fuel h name [] (Some mcls) body
    = call_new fuel f mcls name [] body h.
Proof. intros Hf. unfold class_stmt. simpl. by rewrite Hf. Qed.

Lemma setattr_resolve_new h cls a h' meta :
  setattr h cls top_key a = Some h' → resolve_new h' meta = resolve_new h meta.
Proof.
  intros Hs. unfold resolve_new.
  rewrite (setattr_mro_of _ _ _ _ _ meta Hs).
  by rewrite (setattr_mro_lookup_ne _ _ _ _ _ _ new_key Hs).
Qed.

Lemma setattr_super_lookup h cls a h' this mcls :
  setattr h cls top_key a = Some h' →
  super_lookup h' this mcls new_key = super_lookup h this mcls new_key.
Proof.
  intros Hs. unfold super_lookup.
  rewrite (setattr_mro_of _ _ _ _ _ mcls Hs).
  by rewrite (setattr_mro_lookup_ne _ _ _ _ _ _ new_key Hs).
Qed.

Lemma app_resolve_new h l meta :
  wf h → is_Some (h !! meta) →
  resolve_new (h ++ l) meta = resolve_new h meta.
Proof.
  intros Hwf Hm. unfold resolve_new. rewrite app_mro_of; [|done].
  rewrite app_mro_lookup; [done|]. intros x. by apply wf_mro_of_lt.
Qed.

Lemma app_super_lookup h l this mcls key :
  wf h → is_Some (h !! mcls) →
  super_lookup (h ++ l) this mcls key = super_lookup h this mcls key.
Proof.
  intros Hwf Hm. unfold super_lookup. rewrite app_mro_of; [|done].
  rewrite app_mro_lookup; [done|].
  intros x Hx%after_elem. by eapply wf_mro_of_lt.
Qed.
End baseless_facts.

(** C4, as the code has it.  In a family that constructs its classes
    through [ConformableMeta.__new__] and has no top type, neither its own
    nor one inherited from a parent metaclass, the first class constructed
    with an empty base list becomes the top type.  It stays the top type
    of the family for ever, no other class becomes one, and in every later
    state in which the family still constructs through
    [ConformableMeta.__new__] a class statement with an empty base list
    raises [AssertionError] and leaves all top slots as they were. *)
Theorem single_top_per_family h mcls f fuel name1 body1 :
  reachable h →
  resolve_new h mcls = Some f →
  family_new h mcls f →
  new_depth f + 2 ≤ fuel →
  super_lookup h ConformableMeta_id mcls new_key = Some (ANew TypeNew) →
  top_is_None h mcls →
  ∃ T h1,
    class_stmt fuel h name1 [] (Some mcls) body1 = Ok T h1 ∧
    top_of h1 mcls T ∧
    (∀ fuel' ops, top_of (run fuel' ops h1) mcls T) ∧
    (∀ fuel' ops T', top_of (run fuel' ops h1) mcls T' → T' = T) ∧
    (∀ fuel' ops f' fuel2 name2 body2,
       resolve_new (run fuel' ops h1) mcls = Some f' →
       family_new (run fuel' ops h1) mcls f' →
       super_lookup (run fuel' ops h1) ConformableMeta_id mcls new_key
         = Some (ANew TypeNew) →
       new_depth f' + 2 ≤ fuel2 →
       ∃ h3,
         class_stmt fuel2 (run fuel' ops h1) name2 [] (Some mcls) body2
           = Raise AssertionError h3 ∧
         top_of h3 mcls T ∧
         (∀ m T', top_of h3 m T' ↔ top_of (run fuel' ops h1) m T')).
Proof.
  intros Hreach Hnew Hfam Hfuel Hsup Hnone.
  pose proof (reachable_wf _ Hreach) as Hr.
  assert (∃ n, fuel = new_depth f + S (S n)) as [n ->].
  { exists (fuel - new_depth f - 2). lia. }
  destruct (conformable_new_first n h mcls name1 body1 Hr Hsup Hnone)
    as (h1 & Hcall & Hs & Htop).
  assert (class_stmt (new_depth f + S (S n)) h name1 [] (Some mcls) body1
            = Ok (length h) h1) as Hstmt.
  { rewrite (class_stmt_explicit _ _ _ _ _ _ Hnew).
    by rewrite call_family_new_baseless. }
  assert (reachable h1) as Hreach1.
  { pose proof (reach_step h (new_depth f + S (S n))
                  (OpClass name1 [] (Some mcls) body1) Hreach) as Hstep.
    simpl in Hstep. by rewrite Hstmt in Hstep. }
  pose proof (reachable_wf _ Hreach1) as Hwf1.
  assert (∀ fuel' ops, top_of (run fuel' ops h1) mcls (length h)) as Hkeep.
  { intros fuel' ops. eapply extends_top_of; [|done]. by apply run_extends. }
  exists (length h), h1.
  split; [done|]. split; [done|]. split; [done|]. split.
  - intros fuel' ops T' HT'. specialize (Hkeep fuel' ops).
    unfold top_of in HT', Hkeep. rewrite Hkeep in HT'. by injection HT'.
  - intros fuel' ops f' fuel2 name2 body2 Hnew2 Hfam2 Hsup2 Hfuel2.
    assert (∃ n2, fuel2 = new_depth f' + S (S n2)) as [n2 ->].
    { exists (fuel2 - new_depth f' - 2). lia. }
    pose proof (reachable_wf _ (run_reachable fuel' ops h1 Hreach1)) as Hwf2.
    eexists. split; [|split].
    + rewrite (class_stmt_explicit _ _ _ _ _ _ Hnew2).
      rewrite call_family_new_baseless; [|done].
      by apply conformable_new_second with (T := length h).
    + eapply extends_top_of; [apply extends_app | apply Hkeep].
    + intros m T'. split.
      * apply app_top_of, namespace_of_top.
      * apply extends_top_of, extends_app.
Qed.

Lemma single_top_per_family_witness :
  ∃ T h1,
    class_stmt 3 early_heap "Shape" [] (Some ShapeMeta) empty_body
      = Ok T h1 ∧
    top_of h1 ShapeMeta T ∧
    (∀ fuel' ops, top_of (run fuel' ops h1) ShapeMeta T) ∧
    (∀ fuel' ops T', top_of (run fuel' ops h1) ShapeMeta T' → T' = T) ∧
    (∀ fuel' ops f' fuel2 name2 body2,
       resolve_new (run fuel' ops h1) ShapeMeta = Some f' →
       family_new (run fuel' ops h1) ShapeMeta f' →
       super_lookup (run fuel' ops h1) ConformableMeta_id ShapeMeta new_key
         = Some (ANew TypeNew) →
       new_depth f' + 2 ≤ fuel2 →
       ∃ h3,
         class_stmt fuel2 (run fuel' ops h1) name2 [] (Some ShapeMeta) body2
           = Raise AssertionError h3 ∧
         top_of h3 ShapeMeta T ∧
         (∀ m T', top_of h3 m T' ↔ top_of (run fuel' ops h1) m T')).
Proof.
  apply (single_top_per_family early_heap ShapeMeta
           (RedirectNew 4 5 ConformableNew)).
  - apply run_reachable, reach_init.
  - vm_compute; reflexivity.
  - split; [vm_compute; reflexivity | exact I].
  - simpl; lia.
  - vm_compute; reflexivity.
  - eexists. split; vm_compute; reflexivity.
Defined.

(** C4 as stated fails in two kinds of family.  Once subclassing of
    [Shape] is redirected to [object], class statements of the family
    [ShapeMeta] are carried out by [type.__new__]: a second class with an
    empty base list is built without any error, as an ordinary class, and
    [Shape] remains the top type.  And [SubMeta], which derives from
    [ShapeMeta], finds the top type of [ShapeMeta] in its own top slot:
    already the first class constructed under it with an empty base list
    raises [AssertionError], and [SubMeta] never gets a top type. *)
Lemma baseless_construction_depends_on_family :
  top_of shape_heap ShapeMeta Shape ∧
  redirect_subclasses shape_heap ShapeMeta Shape object_id
    = Ok () escaped_heap ∧
  (∃ c h', class_stmt 3 escaped_heap "Second" [] (Some ShapeMeta) empty_body
             = Ok c h' ∧
           type_of h' c = Some type_id ∧
           top_of h' ShapeMeta Shape) ∧
  dict_get sub_heap SubMeta top_key = None ∧
  (∃ h', class_stmt 3 sub_heap "SubShape" [] (Some SubMeta) empty_body
           = Raise AssertionError h' ∧
         dict_get h' SubMeta top_key = None).
Proof.
  split; [vm_compute; reflexivity|]. split; [vm_compute; reflexivity|].
  split.
  { eexists _, _. split; [vm_compute; reflexivity|].
    split; vm_compute; reflexivity. }
  split; [vm_compute; reflexivity|].
  eexists. split; vm_compute; reflexivity.
Qed.

(** ** Installing a redirection *)

Section redirect_facts.
Implicit Types (h : heap) (c cls mcls : cid) (bases : list cid).

(** A successful call stores the closure in the dictionary of
    [target_mcls], where the class statement then finds it. *)
Lemma redirect_installed h target_mcls from_cls to_cls h1 :
  wf h →
  redirect_subclasses h target_mcls from_cls to_cls = Ok () h1 →
  ∃ to_mcls to_mcls_new fd,
    target_mcls ∈ type_mro h from_cls ∧
    type_of h to_cls = Some to_mcls ∧
    getattr h to_mcls new_key = Some fd ∧
    found_attr fd = ANew to_mcls_new ∧
    setattr h target_mcls new_key
            (ANew (RedirectNew from_cls to_cls to_mcls_new)) = Some h1 ∧
    resolve_new h1 target_mcls
      = Some (RedirectNew from_cls to_cls to_mcls_new) ∧
    type_of h1 to_cls = Some to_mcls.
Proof.
  intros Hwf Hok.
  destruct (redirect_subclasses_cases h target_mcls from_cls to_cls)
    as [[e He]|(to_mcls & inner & h' & Hin & Hty & (fd & Hfd & Hinner)
                & Hs & Hok')]; [congruence|].
  rewrite Hok in Hok'. injection Hok' as <-.
  exists to_mcls, inner, fd. repeat (split; [done|]). split.
  - unfold resolve_new. rewrite (setattr_mro_of _ _ _ _ _ target_mcls Hs).
    apply setattr_Some in Hs as Hs'. destruct Hs' as (_ & _ & co & Hco & _).
    destruct (wf_mro_of_head h target_mcls Hwf) as [tl ->]; [by eexists|].
    simpl. rewrite (setattr_dict_get _ _ _ _ _ target_mcls new_key Hs).
    by rewrite bool_decide_eq_true_2.
  - by rewrite (setattr_type_of _ _ _ _ _ to_cls Hs).
Qed.

(** One step of the closure: rewrite the bases, call the captured
    constructor with [type(to_cls)]. *)
Lemma call_redirect_new n h from_cls to_cls to_mcls_new to_mcls mcls name
    bases body :
  type_of h to_cls = Some to_mcls →
  call_new (S n) (RedirectNew from_cls to_cls to_mcls_new) mcls name bases
           body h
    = call_new n to_mcls_new to_mcls name
               (redirect_bases from_cls to_cls bases) body h.
Proof. intros Hty. cbn [call_new]. by rewrite Hty. Qed.

Lemma redirect_bases_single from_cls to_cls :
  redirect_bases from_cls to_cls [from_cls] = [to_cls].
Proof.
  unfold redirect_bases. rewrite fmap_cons.
  by rewrite bool_decide_eq_true_2.
Qed.

Lemma redirect_bases_id from_cls to_cls bases :
  from_cls ∉ bases → redirect_bases from_cls to_cls bases = bases.
Proof.
  induction bases as [|b bases IH]; [done|].
  intros [Hb Hin]%not_elem_of_cons. unfold redirect_bases in *.
  rewrite fmap_cons, IH; [|done]. by rewrite bool_decide_eq_false_2.
Qed.

Lemma redirect_bases_lookup from_cls to_cls bases i :
  redirect_bases from_cls to_cls bases !! i =
    (λ base, if bool_decide (base = from_cls) then to_cls else base)
      <$> bases !! i.
Proof. apply list_lookup_fmap. Qed.

Lemma redirect_bases_length from_cls to_cls bases :
  length (redirect_bases from_cls to_cls bases) = length bases.
Proof. apply length_fmap. Qed.

Lemma redirected_heap_installed :
  redirect_subclasses shape_heap ShapeMeta Shape Impl = Ok () redirected_heap.
Proof. reflexivity. Qed.
End redirect_facts.

(** C7.  A redirection is not retroactive: a class built before
    [redirect_subclasses] keeps its base list, [from_cls] included, after
    the call and after any later program. *)
Theorem redirect_not_retroactive h target_mcls from_cls to_cls c co :
  reachable h →
  h !! c = Some co →
  from_cls ∈ c_bases co →
  let h1 := heap_after h
              (redirect_subclasses h target_mcls from_cls to_cls) in
  (∃ co1, h1 !! c = Some co1 ∧ c_bases co1 = c_bases co ∧
          from_cls ∈ c_bases co1) ∧
  (∀ fuel ops, ∃ co2, run fuel ops h1 !! c = Some co2 ∧
                      c_bases co2 = c_bases co ∧ from_cls ∈ c_bases co2).
Proof.
  intros Hr%reachable_wf Hc Hin h1.
  destruct (redirect_subclasses_sound h target_mcls from_cls to_cls Hr)
    as [Hwf1 Hext]. fold h1 in Hwf1, Hext.
  destruct (Hext _ _ Hc) as (co1 & Hc1 & (_ & Hb1 & _) & _).
  split.
  - exists co1. rewrite <- Hb1. done.
  - intros fuel ops.
    destruct (run_extends fuel ops h1 Hwf1 _ _ Hc1)
      as (co2 & Hc2 & (_ & Hb2 & _) & _).
    exists co2. rewrite <- Hb2, <- Hb1. done.
Qed.

Lemma redirect_not_retroactive_witness :
  ∃ co1, redirected_heap !! Circle = Some co1 ∧ c_bases co1 = [Shape] ∧
         Shape ∈ c_bases co1.
Proof.
  refine (proj1 (redirect_not_retroactive shape_heap ShapeMeta Shape Impl
                   Circle (ClassObj "Circle" [Shape] [Circle; Shape; 0]
                                    ShapeMeta ∅)
                   shape_heap_reachable eq_refl _)).
  simpl. apply list_elem_of_singleton. reflexivity.
Defined.

(** C8.  When [target_mcls] is not among the metaclasses of [from_cls],
    [redirect_subclasses] raises the assertion error and the heap, hence
    every later class construction, is as before the call. *)
Theorem redirect_invalid_target h target_mcls from_cls to_cls :
  target_mcls ∉ type_mro h from_cls →
  redirect_subclasses h target_mcls from_cls to_cls = Raise AssertionError h ∧
  ∀ fuel name bases metaclass body,
    class_stmt fuel
      (heap_after h (redirect_subclasses h target_mcls from_cls to_cls))
      name bases metaclass body
    = class_stmt fuel h name bases metaclass body.
Proof.
  intros Hnot.
  assert (redirect_subclasses h target_mcls from_cls to_cls
            = Raise AssertionError h) as ->; [|done].
  unfold redirect_subclasses. by rewrite bool_decide_eq_false_2.
Qed.

Lemma redirect_invalid_target_witness :
  redirect_subclasses shape_heap Shape Circle Impl
    = Raise AssertionError shape_heap.
Proof.
  apply (proj1 (redirect_invalid_target shape_heap Shape Circle Impl
                  ltac:(compute_done))).
Defined.

(** C10.  After a successful [redirect_subclasses], every class statement
    whose metaclass is [target_mcls], whether or not its base list names
    [from_cls], is carried out by the [__new__] that [type(to_cls)] had at
    the time of the call, invoked with [type(to_cls)] as metaclass
    argument. *)
Theorem redirect_changes_construction_path
    h target_mcls from_cls to_cls h1 :
  reachable h →
  redirect_subclasses h target_mcls from_cls to_cls = Ok () h1 →
  ∃ to_mcls to_mcls_new fd,
    type_of h to_cls = Some to_mcls ∧
    getattr h to_mcls new_key = Some fd ∧
    found_attr fd = ANew to_mcls_new ∧
    ∀ fuel name bases metaclass body,
      stmt_metaclass h1 bases metaclass = Some target_mcls →
      class_stmt (S fuel) h1 name bases metaclass body
        = call_new fuel to_mcls_new to_mcls name
                   (redirect_bases from_cls to_cls bases) body h1 ∧
      (from_cls ∉ bases →
       class_stmt (S fuel) h1 name bases metaclass body
         = call_new fuel to_mcls_new to_mcls name bases body h1).
Proof.
  intros Hr%reachable_wf Hok.
  destruct (redirect_installed _ _ _ _ _ Hr Hok)
    as (to_mcls & inner & fd & _ & Hty & Hfd & Hinner & _ & Hnew & Hty1).
  exists to_mcls, inner, fd. repeat (split; [done|]).
  intros fuel name bases metaclass body Hmeta.
  assert (class_stmt (S fuel) h1 name bases metaclass body
            = call_new fuel inner to_mcls name
                       (redirect_bases from_cls to_cls bases) body h1) as Heq.
  { unfold class_stmt. rewrite Hmeta, Hnew. cbn [call_new]. by rewrite Hty1. }
  split; [done|]. intros Hnot. by rewrite Heq, redirect_bases_id.
Qed.

Lemma redirect_changes_construction_path_witness :
  ∃ to_mcls to_mcls_new fd,
    type_of shape_heap Impl = Some to_mcls ∧
    getattr shape_heap to_mcls new_key = Some fd ∧
    found_attr fd = ANew to_mcls_new ∧
    ∀ fuel name bases metaclass body,
      stmt_metaclass redirected_heap bases metaclass = Some ShapeMeta →
      class_stmt (S fuel) redirected_heap name bases metaclass body
        = call_new fuel to_mcls_new to_mcls name
                   (redirect_bases Shape Impl bases) body redirected_heap ∧
      (Shape ∉ bases →
       class_stmt (S fuel) redirected_heap name bases metaclass body
         = call_new fuel to_mcls_new to_mcls name bases body redirected_heap).
Proof.
  apply (redirect_changes_construction_path shape_heap ShapeMeta Shape Impl
           redirected_heap shape_heap_reachable redirected_heap_installed).
Defined.

(** ** Building a class with one base *)

Section single_base_facts.
Implicit Types (h : heap) (c cls mcls b : cid) (bases : list cid).

Lemma issubtype_refl h c : wf h → is_Some (h !! c) → issubtype h c c = true.
Proof.
  intros Hwf Hc. unfold issubtype.
  destruct (wf_mro_of_head h c Hwf Hc) as [tl ->].
  apply bool_decide_eq_true_2. by left.
Qed.

Lemma calculate_metaclass_single h b mcls :
  wf h → type_of h b = Some mcls → is_Some (h !! mcls) →
  calculate_metaclass h mcls [b] = Some mcls.
Proof.
  intros Hwf Hty Hm. simpl. rewrite Hty. by rewrite issubtype_refl.
Qed.

Lemma type_build_single h mt name b cb body :
  wf h → h !! b = Some cb → ConformableMeta_id ∉ c_mro cb →
  type_build h mt name [b] body =
    Ok (length h) (h ++ [new_class h mt name [b] (c_mro cb) body]).
Proof.
  intros Hwf Hb Hno. unfold type_build. cbn [actual_bases].
  destruct (wf_mro _ Hwf _ _ Hb) as ([tl Hmro] & Hnd & _).
  rewrite (linearize_single h (length h) b cb tl Hb Hmro Hnd).
  cbn [tail]. rewrite <- Hmro. by rewrite bool_decide_eq_false_2.
Qed.

(** A plain constructor called with the metaclass of its single base
    builds the class directly. *)
Lemma build_single_base n h mcls f name b cb body :
  wf h → plain_new h mcls f →
  h !! b = Some cb → c_type cb = mcls → is_Some (h !! mcls) →
  ConformableMeta_id ∉ c_mro cb →
  call_new (S (S n)) f mcls name [b] body h =
    Ok (length h) (h ++ [new_class h mcls name [b] (c_mro cb) body]).
Proof.
  intros Hwf Hplain Hb Hty Hm Hno.
  assert (calculate_metaclass h mcls [b] = Some mcls) as Hcalc.
  { apply calculate_metaclass_single; [done | | done].
    unfold type_of. by rewrite Hb, <- Hty. }
  destruct Hplain as [-> | [-> Hsup]].
  - cbn [call_new]. rewrite Hcalc, bool_decide_eq_true_2; [|done].
    by apply type_build_single.
  - cbn [call_new]. rewrite Hsup, Hcalc, bool_decide_eq_true_2; [|done].
    by rewrite (type_build_single _ _ _ _ _ _ Hwf Hb Hno).
Qed.

(** The class just built is a nominal subclass of its base. *)
Lemma new_class_subclass h mt name b cb body :
  wf h → h !! b = Some cb →
  type___subclasscheck__ (h ++ [new_class h mt name [b] (c_mro cb) body])
                         b (length h) = true.
Proof.
  intros Hwf Hb. unfold type___subclasscheck__, issubtype, mro_of.
  rewrite lookup_app_r, Nat.sub_diag; [|done]. simpl.
  destruct (wf_mro _ Hwf _ _ Hb) as ([tl ->] & _).
  apply bool_decide_eq_true_2. right. by left.
Qed.

Lemma getattr_is_Some h c key fd :
  getattr h c key = Some fd → is_Some (h !! c).
Proof.
  unfold getattr, mro_of, type_mro. by destruct (h !! c); [eexists|].
Qed.

Lemma setattr_new_top_of h cls a h' m T :
  setattr h cls new_key a = Some h' → top_of h' m T → top_of h m T.
Proof.
  intros Hs. unfold top_of.
  rewrite (setattr_dict_get _ _ _ _ _ m top_key Hs).
  by rewrite bool_decide_eq_false_2; [|by intros [_ ?]].
Qed.

End single_base_facts.

(** ** The hook check of [__init_subclass__] *)

Section hook_check_facts.
Implicit Types (h : heap) (c cls b : cid) (body : class_body).

Lemma init_subclass_missing body :
  b_isinstance body = None ∨ b_issubclass body = None →
  ConformableMeta___init_subclass__ (namespace_of body) = Exc TypeError.
Proof.
  destruct body as [[f|] [g|]]; simpl; intros [?|?]; try done;
    by vm_compute.
Qed.

Lemma init_subclass_passed body :
  ConformableMeta___init_subclass__ (namespace_of body) = Ret () →
  is_Some (b_isinstance body) ∧ is_Some (b_issubclass body).
Proof.
  destruct body as [[f|] [g|]]; simpl; intros Hc;
    first [by vm_compute in Hc | split; by eexists].
Qed.

Lemma resolve_new_type h : wf h → resolve_new h type_id = Some TypeNew.
Proof.
  intros Hwf. unfold resolve_new, mro_of. rewrite (wf_type _ Hwf). simpl.
  unfold dict_get. by rewrite (wf_type _ Hwf).
Qed.

Lemma stmt_metaclass_single h b mcls :
  wf h → type_of h b = Some mcls → is_Some (h !! mcls) →
  stmt_metaclass h [b] None = Some mcls.
Proof.
  intros Hwf Hty Hm. unfold stmt_metaclass. rewrite Hty.
  by apply calculate_metaclass_single.
Qed.
End hook_check_facts.

(** C5, as the code has it.  The hook check belongs to
    [__init_subclass__] of [ConformableMeta], so it runs when a class
    deriving from [ConformableMeta], that is a metaclass of a family, is
    defined: such a definition without both hooks in its own body raises
    [TypeError], and no class statement ever returns a class that derives
    from [ConformableMeta] without them. *)
Theorem missing_hook_fails_metaclass_definition fuel h name b body :
  reachable h →
  1 ≤ fuel →
  ConformableMeta_id ∈ mro_of h b →
  type_of h b = Some type_id →
  b_isinstance body = None ∨ b_issubclass body = None →
  (∃ h', class_stmt fuel h name [b] None body = Raise TypeError h') ∧
  (∀ fuel' name' bases metaclass body' cls h',
     class_stmt fuel' h name' bases metaclass body' = Ok cls h' →
     ConformableMeta_id ∈ tail (mro_of h' cls) →
     is_Some (b_isinstance body') ∧ is_Some (b_issubclass body')).
Proof.
  intros Hr%reachable_wf Hfuel Hin Hty Hmiss. split.
  - destruct fuel as [|n]; [lia|].
    assert (is_Some (h !! type_id)) as Ht by (rewrite (wf_type _ Hr); eauto).
    unfold class_stmt.
    rewrite (stmt_metaclass_single _ _ _ Hr Hty Ht), resolve_new_type; [|done].
    cbn [call_new].
    rewrite calculate_metaclass_single, bool_decide_eq_true_2; [|done..].
    unfold type_build, mro_of in *. cbn [actual_bases].
    destruct (h !! b) as [cb|] eqn:Hb; [|by apply not_elem_of_nil in Hin].
    destruct (wf_mro _ Hr _ _ Hb) as ([tl Hmro] & Hnd & _).
    rewrite (linearize_single h (length h) b cb tl Hb Hmro Hnd).
    cbn [tail]. rewrite <- Hmro, bool_decide_eq_true_2; [|done].
    rewrite init_subclass_missing; [|done]. by eexists.
  - intros fuel' name' bases metaclass body' cls h'. unfold class_stmt.
    destruct (stmt_metaclass h bases metaclass) as [meta|]; [|done].
    destruct (resolve_new h meta) as [f|]; [|done].
    intros Hok Htail. apply init_subclass_passed.
    destruct (call_new_sound fuel' f meta name' bases body' h Hr)
      as (_ & _ & Hpost).
    destruct (Hpost _ _ Hok) as (_ & _ & _ & Hck). by apply Hck.
Qed.

Lemma missing_hook_fails_metaclass_definition_witness :
  ∃ h', class_stmt 1 init_heap "ShapeMeta" [ConformableMeta_id] None
                   empty_body = Raise TypeError h'.
Proof.
  apply (missing_hook_fails_metaclass_definition 1 init_heap "ShapeMeta"
           ConformableMeta_id empty_body reach_init).
  - lia.
  - compute_done.
  - vm_compute; reflexivity.
  - left. reflexivity.
Defined.

(** C5 as stated fails: classes constructed with the family's metaclass
    supply no hooks and are constructed all the same, the top type and a
    derived type alike. *)
Lemma hookless_classes_are_constructed :
  b_isinstance empty_body = None ∧ b_issubclass empty_body = None ∧
  (∃ h', class_stmt 2 family_heap "Shape" [] (Some ShapeMeta) empty_body
           = Ok Shape h' ∧
         type_of h' Shape = Some ShapeMeta ∧
         ∃ h'', class_stmt 2 h' "Circle" [Shape] None empty_body
                  = Ok Circle h'' ∧
                type_of h'' Circle = Some ShapeMeta).
Proof.
  split; [reflexivity|]. split; [reflexivity|].
  eexists. split; [vm_compute; reflexivity|].
  split; [vm_compute; reflexivity|].
  eexists. split; vm_compute; reflexivity.
Qed.

(** ** Two redirections in one family *)

Section chain_facts.
Implicit Types (h : heap) (c cls mcls b : cid) (body : class_body).

Lemma resolve_new_getattr h mcls f :
  resolve_new h mcls = Some f →
  getattr h mcls new_key = Some (OnClass (ANew f)).
Proof.
  unfold resolve_new, getattr.
  destruct (mro_lookup h (mro_of h mcls) new_key) as [[| | |g]|]; try done.
  by intros [= ->].
Qed.

Lemma redirect_bases_other from_cls to_cls b :
  b ≠ from_cls → redirect_bases from_cls to_cls [b] = [b].
Proof.
  intros Hne. apply redirect_bases_id.
  intros ?%list_elem_of_singleton. by apply Hne.
Qed.

(** A class statement with one base under a constructor made of two
    nested closures: both rewritings are applied, the later rule first,
    and a plain constructor builds the class on what results. *)
Lemma chain_build n h M A B C D f X Y cY name body :
  wf h →
  resolve_new h M = Some (RedirectNew C D (RedirectNew A B f)) →
  plain_new h M f →
  type_of h B = Some M → type_of h D = Some M → type_of h X = Some M →
  redirect_bases A B (redirect_bases C D [X]) = [Y] →
  h !! Y = Some cY → c_type cY = M → ConformableMeta_id ∉ c_mro cY →
  class_stmt (S (S (S (S n)))) h name [X] None body
    = Ok (length h) (h ++ [new_class h M name [Y] (c_mro cY) body]).
Proof.
  intros Hwf Hnew Hplain HB HD HX Hbases HY HtY HnoY.
  assert (is_Some (h !! M)) as HM.
  { unfold resolve_new, mro_of in Hnew. by destruct (h !! M). }
  unfold class_stmt.
  rewrite (stmt_metaclass_single _ _ _ Hwf HX HM), Hnew.
  rewrite (call_redirect_new _ _ _ _ _ M); [|done].
  rewrite (call_redirect_new _ _ _ _ _ M); [|done].
  rewrite Hbases. by apply build_single_base.
Qed.
End chain_facts.

(** C9, as the code has it.  The family's [__new__] holds one closure;
    each redirection stores a new one around the constructor that
    [type(to_class)] had at that moment.  Take a family on which no
    redirection is installed yet (its constructor is
    [ConformableMeta.__new__] on top of [type.__new__], or [type.__new__]
    itself), and install the rules (A, B) and then (C, D), where A, B, C
    and D all have the family's metaclass, neither B nor D derives from
    [ConformableMeta], and D is not A.  Then the second closure wraps the
    first: a class declared on C is built on D, also when C is A, and for
    A distinct from C a class declared on A is still built on B. *)
Theorem redirect_rules_chain h0 h1 h2 M A B C D to_mcls_new :
  reachable h0 →
  type_of h0 A = Some M → type_of h0 B = Some M →
  type_of h0 C = Some M → type_of h0 D = Some M →
  ConformableMeta_id ∉ mro_of h0 B → ConformableMeta_id ∉ mro_of h0 D →
  resolve_new h0 M = Some to_mcls_new →
  redirect_subclasses h0 M A B = Ok () h1 →
  redirect_subclasses h1 M C D = Ok () h2 →
  plain_new h2 M to_mcls_new →
  D ≠ A →
  resolve_new h2 M = Some (RedirectNew C D (RedirectNew A B to_mcls_new)) ∧
  (∀ fuel name body, 4 ≤ fuel →
     ∃ Bar h3 co,
       class_stmt fuel h2 name [C] None body = Ok Bar h3 ∧
       h3 !! Bar = Some co ∧ c_bases co = [D]) ∧
  (A ≠ C →
   ∀ fuel name body, 4 ≤ fuel →
     ∃ Foo h3 co,
       class_stmt fuel h2 name [A] None body = Ok Foo h3 ∧
       h3 !! Foo = Some co ∧ c_bases co = [B]).
Proof.
  intros Hr%reachable_wf HA HB HC HD HnoB HnoD Hres H1 H2 Hplain HDA.
  destruct (redirect_subclasses_sound h0 M A B Hr) as [Hwf1 _].
  rewrite H1 in Hwf1. simpl in Hwf1.
  destruct (redirect_subclasses_sound h1 M C D Hwf1) as [Hwf2 _].
  rewrite H2 in Hwf2. simpl in Hwf2.
  destruct (redirect_installed _ _ _ _ _ Hr H1)
    as (m1 & f1 & fd1 & _ & Hty1 & Hfd1 & Hf1 & Hs1 & Hnew1 & _).
  rewrite HB in Hty1. injection Hty1 as <-.
  rewrite (resolve_new_getattr _ _ _ Hres) in Hfd1. injection Hfd1 as <-.
  simpl in Hf1. injection Hf1 as <-.
  destruct (redirect_installed _ _ _ _ _ Hwf1 H2)
    as (m2 & f2 & fd2 & _ & Hty2 & Hfd2 & Hf2 & Hs2 & Hnew2 & _).
  rewrite (setattr_type_of _ _ _ _ _ D Hs1), HD in Hty2.
  injection Hty2 as <-.
  rewrite (resolve_new_getattr _ _ _ Hnew1) in Hfd2. injection Hfd2 as <-.
  simpl in Hf2. injection Hf2 as <-.
  assert (∀ X, type_of h2 X = type_of h0 X) as Hty.
  { intros X. rewrite (setattr_type_of _ _ _ _ _ X Hs2).
    apply (setattr_type_of _ _ _ _ _ X Hs1). }
  assert (∀ X, mro_of h2 X = mro_of h0 X) as Hmro.
  { intros X. rewrite (setattr_mro_of _ _ _ _ _ X Hs2).
    apply (setattr_mro_of _ _ _ _ _ X Hs1). }
  assert (∀ Y, type_of h0 Y = Some M → ConformableMeta_id ∉ mro_of h0 Y →
               ∃ cY, h2 !! Y = Some cY ∧ c_type cY = M ∧
                     ConformableMeta_id ∉ c_mro cY) as Hcls.
  { intros Y HY HnoY. rewrite <- Hty in HY. rewrite <- Hmro in HnoY.
    unfold type_of, mro_of in *. destruct (h2 !! Y) as [cY|]; [|done].
    exists cY. by injection HY as ->. }
  split; [done|]. split.
  - intros fuel name body Hfuel. destruct fuel as [|[|[|[|n]]]]; [lia.. |].
    destruct (Hcls D HD HnoD) as (cD & HcD & HtD & HmD).
    eexists _, _, _. split; [|split].
    + eapply (chain_build n h2 M A B C D to_mcls_new C D cD);
        try done; try by rewrite Hty.
      rewrite redirect_bases_single. by apply redirect_bases_other.
    + by rewrite lookup_app_r, Nat.sub_diag.
    + done.
  - intros HAC fuel name body Hfuel.
    destruct fuel as [|[|[|[|n]]]]; [lia.. |].
    destruct (Hcls B HB HnoB) as (cB & HcB & HtB & HmB).
    eexists _, _, _. split; [|split].
    + eapply (chain_build n h2 M A B C D to_mcls_new A B cB);
        try done; try by rewrite Hty.
      rewrite redirect_bases_other; [|done]. apply redirect_bases_single.
    + by rewrite lookup_app_r, Nat.sub_diag.
    + done.
Qed.

Lemma redirect_rules_chain_witness :
  resolve_new rules_heap2 ShapeMeta
    = Some (RedirectNew Circle Disc (RedirectNew Shape Impl ConformableNew)) ∧
  (∀ fuel name body, 4 ≤ fuel →
     ∃ Bar h3 co,
       class_stmt fuel rules_heap2 name [Circle] None body = Ok Bar h3 ∧
       h3 !! Bar = Some co ∧ c_bases co = [Disc]) ∧
  (Shape ≠ Circle →
   ∀ fuel name body, 4 ≤ fuel →
     ∃ Foo h3 co,
       class_stmt fuel rules_heap2 name [Shape] None body = Ok Foo h3 ∧
       h3 !! Foo = Some co ∧ c_bases co = [Impl]).
Proof.
  apply (redirect_rules_chain rules_heap0 rules_heap1 rules_heap2 ShapeMeta
           Shape Impl Circle Disc ConformableNew).
  - apply reach_step, shape_heap_reachable.
  - vm_compute; reflexivity.
  - vm_compute; reflexivity.
  - vm_compute; reflexivity.
  - vm_compute; reflexivity.
  - compute_done.
  - compute_done.
  - vm_compute; reflexivity.
  - vm_compute; reflexivity.
  - vm_compute; reflexivity.
  - right. split; [reflexivity | vm_compute; reflexivity].
  - lia.
Defined.

(** C9 as stated fails in four ways.  With the second rule's [to_class]
    taken from another family, the closure of the second rule does not
    reach the first one, and a class declared on the first rule's
    [from_class] is not built on its [to_class]: the statement raises
    [TypeError] (metaclass conflict).  With a rule from [Disc] to [Impl]
    installed before the two rules, a class declared on [Circle] is
    rewritten to [Disc] and then to [Impl].  With the second rule leading
    to the first rule's [from_class], a class declared on [Circle] is
    rewritten to [Shape] and then to [Impl].  And with a second
    [to_class] that derives from [ConformableMeta], the class declared on
    [Circle] is a metaclass without hooks and raises [TypeError]. *)
Lemma rules_do_not_chain_across_families :
  redirect_subclasses clash_heap0 ShapeMeta Shape Impl = Ok () clash_heap1 ∧
  redirect_subclasses clash_heap1 ShapeMeta Circle Other
    = Ok () clash_heap2 ∧
  Shape ≠ Circle ∧
  class_stmt 3 clash_heap2 "Foo" [Shape] None empty_body
    = Raise TypeError clash_heap2 ∧
  (∀ fuel Foo h3,
     class_stmt fuel clash_heap2 "Foo" [Shape] None empty_body ≠ Ok Foo h3) ∧
  (redirect_subclasses rules_heap0 ShapeMeta Disc Impl = Ok () prior_heap0 ∧
   redirect_subclasses prior_heap0 ShapeMeta Shape Impl = Ok () prior_heap1 ∧
   redirect_subclasses prior_heap1 ShapeMeta Circle Disc
     = Ok () prior_heap2 ∧
   ∃ Bar h3 co,
     class_stmt 5 prior_heap2 "Bar" [Circle] None empty_body = Ok Bar h3 ∧
     h3 !! Bar = Some co ∧ c_bases co = [Impl]) ∧
  (redirect_subclasses rules_heap0 ShapeMeta Shape Impl = Ok () rules_heap1 ∧
   redirect_subclasses rules_heap1 ShapeMeta Circle Shape = Ok () back_heap ∧
   ∃ Bar h3 co,
     class_stmt 4 back_heap "Bar" [Circle] None empty_body = Ok Bar h3 ∧
     h3 !! Bar = Some co ∧ c_bases co = [Impl]) ∧
  (redirect_subclasses odd_heap ShapeMeta Shape Impl = Ok () oddrule_heap1 ∧
   redirect_subclasses oddrule_heap1 ShapeMeta Circle Odd
     = Ok () oddrule_heap2 ∧
   type_of odd_heap Odd = Some ShapeMeta ∧
   ∃ h3,
     class_stmt 4 oddrule_heap2 "Bar" [Circle] None empty_body
       = Raise TypeError h3).
Proof.
  split; [vm_compute; reflexivity|]. split; [vm_compute; reflexivity|].
  split; [lia|]. split; [vm_compute; reflexivity|].
  split.
  { intros fuel Foo h3.
    destruct fuel as [|[|[|n]]]; vm_compute; discriminate. }
  split.
  { do 3 (split; [vm_compute; reflexivity|]).
    eexists _, _, _. split; [vm_compute; reflexivity|].
    split; vm_compute; reflexivity. }
  split.
  { do 2 (split; [vm_compute; reflexivity|]).
    eexists _, _, _. split; [vm_compute; reflexivity|].
    split; vm_compute; reflexivity. }
  do 3 (split; [vm_compute; reflexivity|]).
  eexists. vm_compute; reflexivity.
Qed.

(** * Further properties of the two mechanisms *)

(** ** What the operations never touch *)

Section frame_facts.
Implicit Types (h : heap) (c cls mcls : cid) (bases : list cid).

Lemma grows_refl h : grows h h.
Proof. by intros c Hc. Qed.

Lemma grows_trans h1 h2 h3 : grows h1 h2 → grows h2 h3 → grows h1 h3.
Proof.
  intros H12 H23 c Hc. destruct (H12 c Hc) as [Hc2 Hk2].
  destruct (H23 c Hc2) as [Hc3 Hk3]. split; [done|].
  intros key ??. by rewrite Hk3, Hk2.
Qed.

Lemma grows_app h l : grows h (h ++ l).
Proof.
  intros c Hc. split.
  - destruct Hc as [co Hco]. exists co. by apply lookup_app_l_Some.
  - intros key _ _. by apply app_dict_get.
Qed.

Lemma grows_setattr h cls key a h' :
  setattr h cls key a = Some h' → key = top_key ∨ key = new_key →
  grows h h'.
Proof.
  intros Hs Hkey c [co Hco]. split.
  - rewrite (setattr_lookup _ _ _ _ _ c Hs), Hco. by eexists.
  - intros key' Ht Hn. rewrite (setattr_dict_get _ _ _ _ _ c key' Hs).
    rewrite bool_decide_eq_false_2; [done|]. intros [_ ->].
    by destruct Hkey.
Qed.

Lemma tops_fresh_refl h : tops_fresh h h.
Proof. intros m T ?. by left. Qed.

Lemma tops_fresh_trans h1 h2 h3 :
  length h1 ≤ length h2 →
  tops_fresh h1 h2 → tops_fresh h2 h3 → tops_fresh h1 h3.
Proof.
  intros Hlen H12 H23 m T [HT|HT]%H23; [by apply H12 | right; lia].
Qed.

Lemma tops_fresh_app h co :
  c_dict co !! top_key = None → tops_fresh h (h ++ [co]).
Proof. intros Hd m T HT. left. by eapply app_top_of. Qed.

Lemma type_build_frame h mt name bases body :
  grows h (heap_after h (type_build h mt name bases body)) ∧
  tops_fresh h (heap_after h (type_build h mt name bases body)).
Proof.
  destruct (type_build_cases h mt name bases body)
    as [->|(mro & _ & [[-> _]|[-> _]])]; simpl.
  - split; [apply grows_refl | apply tops_fresh_refl].
  - split; [apply grows_app | apply tops_fresh_app, namespace_of_top].
  - split; [apply grows_app | apply tops_fresh_app, namespace_of_top].
Qed.

(** No [__new__] writes an attribute other than [__top], and the class
    it stores there is the one it has just built. *)
Lemma call_new_frame fuel : ∀ f mcls name bases body h,
  wf h →
  grows h (heap_after h (call_new fuel f mcls name bases body h)) ∧
  tops_fresh h (heap_after h (call_new fuel f mcls name bases body h)).
Proof.
  assert (∀ h, grows h h ∧ tops_fresh h h) as Hsame.
  { intros h. split; [apply grows_refl | apply tops_fresh_refl]. }
  induction fuel as [|n IH]; intros f mcls name bases body h Hwf; simpl.
  { apply Hsame. }
  destruct f as [| | |from_cls to_cls inner].
  - apply Hsame.
  - destruct (calculate_metaclass h mcls bases) as [winner|];
      [|apply Hsame].
    case_bool_decide; [apply type_build_frame|].
    destruct (mro_lookup h (mro_of h winner) new_key) as [[| | |[]]|];
      first [apply Hsame | apply type_build_frame | by apply IH].
  - destruct (super_lookup h ConformableMeta_id mcls new_key)
      as [[| | |g]|]; try apply Hsame.
    specialize (IH g mcls name bases body h Hwf).
    pose proof (call_new_sound n g mcls name bases body h Hwf)
      as (_ & Hext & Hok).
    destruct (call_new n g mcls name bases body h) as [cls h1| |];
      [|done..].
    simpl in IH, Hext. destruct IH as [Hg Ht].
    destruct (Hok _ _ eq_refl) as (_ & Hlen & _).
    destruct bases as [|b bases]; [|done].
    destruct (getattr h1 mcls top_key) as [fd|]; [|done].
    assert (
      let o := match setattr h1 mcls top_key (AVal (VClass cls)) with
               | Some h2 => Ok cls h2
               | None => Raise TypeError h1
               end in
      grows h (heap_after h o) ∧ tops_fresh h (heap_after h o)) as Hset.
    { destruct (setattr h1 mcls top_key (AVal (VClass cls))) as [h2|] eqn:Hs;
        [|done]. simpl. split.
      - eapply grows_trans; [done|]. eapply grows_setattr; [done | by left].
      - intros m T. unfold top_of.
        rewrite (setattr_dict_get _ _ _ _ _ m top_key Hs).
        case_bool_decide; [intros [= <-]; right; lia | apply Ht]. }
    destruct fd as [[[]| | |]|[[]| | |]]; first [done | apply Hset].
  - destruct (type_of h to_cls) as [to_mcls|]; [|apply Hsame].
    by apply IH.
Qed.

Lemma exec_frame fuel h o :
  wf h → grows h (exec fuel h o) ∧ tops_fresh h (exec fuel h o).
Proof.
  intros Hwf. destruct o as [name bases metaclass body|t f c]; simpl.
  - unfold class_stmt.
    destruct (stmt_metaclass h bases metaclass) as [meta|];
      [|split; [apply grows_refl | apply tops_fresh_refl]].
    destruct (resolve_new h meta) as [g|];
      [|split; [apply grows_refl | apply tops_fresh_refl]].
    by apply call_new_frame.
  - destruct (redirect_subclasses_cases h t f c)
      as [[e ->]|(? & ? & h' & _ & _ & _ & Hs & ->)]; simpl.
    + split; [apply grows_refl | apply tops_fresh_refl].
    + split; [eapply grows_setattr; [done | by right]|].
      intros m T HT. left. by eapply setattr_new_top_of.
Qed.

Lemma run_frame fuel ops : ∀ h,
  wf h → grows h (run fuel ops h) ∧ tops_fresh h (run fuel ops h).
Proof.
  induction ops as [|o ops IH]; intros h Hwf; simpl.
  - split; [apply grows_refl | apply tops_fresh_refl].
  - destruct (exec_sound fuel h o Hwf) as [Hwf' Hext].
    destruct (exec_frame fuel h o Hwf) as [Hg Ht].
    destruct (IH _ Hwf') as [Hg' Ht']. split.
    + by eapply grows_trans.
    + eapply tops_fresh_trans; [by apply extends_length | done | done].
Qed.

(** Attribute lookup along a list of existing classes is unchanged. *)
Lemma grows_mro_lookup h h' mro key :
  grows h h' → key ≠ top_key → key ≠ new_key →
  (∀ x, x ∈ mro → x < length h) →
  mro_lookup h' mro key = mro_lookup h mro key.
Proof.
  intros Hg Ht Hn. induction mro as [|c mro IH]; intros Hlt; [done|].
  assert (is_Some (h !! c)) as Hc.
  { apply lookup_lt_is_Some_2, Hlt. by left. }
  destruct (Hg c Hc) as [_ Hk]. simpl. rewrite (Hk key Ht Hn).
  rewrite IH; [done|]. intros x ?. apply Hlt. by right.
Qed.
End frame_facts.

Section stability_facts.
Implicit Types (h : heap) (c cls mcls : cid).

Lemma type_mro_is_Some h c : type_mro h c ≠ [] → is_Some (h !! c).
Proof. unfold type_mro. by destruct (h !! c); [eexists|]. Qed.

Lemma extends_type_mro h h' c :
  extends h h' → type_mro h c ≠ [] → type_mro h' c = type_mro h c.
Proof.
  intros Hext Hne. unfold type_mro in *.
  destruct (h !! c) as [co|] eqn:Hco; [|done].
  destruct (Hext _ _ Hco) as (co' & -> & (_ & _ & _ & <-) & _).
  apply extends_mro_of; [done|]. unfold mro_of in Hne.
  by destruct (h !! c_type co); [eexists|].
Qed.

(** An attribute other than [__top] and [__new__] of an existing class
    resolves the same way after any number of operations. *)
Lemma grows_getattr h h' c key :
  wf h → extends h h' → grows h h' →
  key ≠ top_key → key ≠ new_key → type_mro h c ≠ [] →
  getattr h' c key = getattr h c key.
Proof.
  intros Hwf Hext Hg Ht Hn Hne. unfold getattr.
  rewrite (extends_mro_of h h'); [|done | by apply type_mro_is_Some].
  rewrite (extends_type_mro h h'); [|done..].
  rewrite (grows_mro_lookup h h' (mro_of h c)); [|done..|].
  2: { intros x. by apply wf_mro_of_lt. }
  rewrite (grows_mro_lookup h h' (type_mro h c)); [done..|].
  intros x. unfold type_mro. destruct (h !! c); [|by intros ?%not_elem_of_nil].
  by apply wf_mro_of_lt.
Qed.

Lemma elem_of_not_nil {A} (x : A) (l : list A) : x ∈ l → l ≠ [].
Proof. intros Hx ->. by apply not_elem_of_nil in Hx. Qed.

Lemma later_heap_reachable : reachable later_heap.
Proof. apply run_reachable, shape_heap_reachable. Qed.
End stability_facts.

(** ** The class built on the rewritten bases *)

Section built_facts.
Implicit Types (h : heap) (c cls mcls : cid) (bases : list cid).

(** A plain constructor called with the most derived metaclass of a
    non-empty base list allocates the class on these bases, or fails. *)
Lemma plain_new_builds fuel h mcls f name bases body Foo h2 :
  plain_new h mcls f → bases ≠ [] →
  calculate_metaclass h mcls bases = Some mcls →
  call_new fuel f mcls name bases body h = Ok Foo h2 →
  Foo = length h ∧
  ∃ mro, linearize h (length h) bases = Some mro ∧
         h2 = h ++ [ClassObj name bases mro mcls (namespace_of body)].
Proof.
  intros Hplain Hne Hcalc.
  assert (∀ c h', type_build h mcls name bases body = Ok c h' →
            c = length h ∧
            ∃ mro, linearize h (length h) bases = Some mro ∧
                   h' = h ++ [ClassObj name bases mro mcls (namespace_of body)])
    as Hbuild.
  { intros c h' Hb.
    destruct (type_build_cases h mcls name bases body)
      as [Hr|(mro & Hlin & [[Hok _]|[Hr _]])]; simpl in *.
    - by rewrite Hr in Hb.
    - rewrite Hok in Hb. injection Hb as <- <-. split; [done|].
      exists mro. by destruct bases.
    - by rewrite Hr in Hb. }
  assert (∀ n c h', call_new n TypeNew mcls name bases body h = Ok c h' →
            c = length h ∧
            ∃ mro, linearize h (length h) bases = Some mro ∧
                   h' = h ++ [ClassObj name bases mro mcls (namespace_of body)])
    as Htype.
  { intros [|n] c h'; [done|]. cbn [call_new].
    rewrite Hcalc, bool_decide_eq_true_2 by done. apply Hbuild. }
  destruct Hplain as [-> | [-> Hsup]]; [apply Htype|].
  destruct fuel as [|n]; [done|]. cbn [call_new]. rewrite Hsup.
  destruct (call_new n TypeNew mcls name bases body h) as [c h'| |] eqn:Hc;
    [|done..].
  destruct bases as [|b bs]; [done|]. intros [= <- <-]. by apply (Htype n).
Qed.

(** [issubclass(Foo, to_cls)] for a class [Foo] that has [to_cls] in its
    MRO: true when [to_cls] is no top type; decided by the hook of its
    family when it is one. *)
Lemma issubclass_of_base h h2 to_cls to_mcls Foo :
  wf h → wf h2 → extends h h2 → grows h h2 → tops_fresh h h2 →
  type_of h to_cls = Some to_mcls →
  to_cls ∈ mro_of h2 Foo →
  ((∀ m, ¬ top_of h m to_cls) → ConformableMeta_id ∉ mro_of h to_cls →
   class___subclasscheck__ h2 to_cls Foo = Ret (VBool true)) ∧
  (∀ hook, top_of h to_mcls to_cls →
     getattr h to_cls "conformable_issubclass"
       = Some (OnMeta (ASubHook hook)) →
     class___subclasscheck__ h2 to_cls Foo =
       match hook to_cls Foo with
       | Ret VNotImplemented => Ret (VBool true)
       | r => r
       end).
Proof.
  intros Hwf Hwf2 Hext Hg Hfresh Hty Hin.
  assert (is_Some (h !! to_cls)) as Hto.
  { unfold type_of in Hty. by destruct (h !! to_cls); [eexists|]. }
  assert (type___subclasscheck__ h2 to_cls Foo = true) as Hnom.
  { unfold type___subclasscheck__, issubtype. by apply bool_decide_eq_true_2. }
  assert (mro_of h2 to_cls = mro_of h to_cls) as Hmro
    by (by apply extends_mro_of).
  split.
  - intros Hno Hmeta. unfold class___subclasscheck__.
    case_bool_decide as Hfam; [|by rewrite Hnom].
    unfold ConformableMeta___subclasscheck__.
    destruct (getattr_top_exists _ _ Hwf2 Hfam) as [fd Hfd]. rewrite Hfd.
    rewrite (not_top_is_not _ _ _ Hfd).
    + unfold super___subclasscheck__, issubtype.
      rewrite Hmro, bool_decide_eq_false_2 by done. by rewrite Hnom.
    + intros m Hm. destruct (Hfresh _ _ Hm) as [?|Hlen]; [by apply (Hno m)|].
      apply lookup_lt_is_Some_1 in Hto. lia.
  - intros hook Htop Hhook.
    assert (ConformableMeta_id ∈ type_mro h to_cls) as Hfam.
    { unfold type_mro. unfold type_of in Hty.
      destruct (h !! to_cls) as [cto|]; [|done]. injection Hty as ->.
      unfold top_of, dict_get in Htop. unfold mro_of.
      destruct (h !! to_mcls) as [cm|] eqn:Hcm; [|done].
      apply (wf_slot _ Hwf to_mcls); [done | by eexists]. }
    pose proof (elem_of_not_nil _ _ Hfam) as Hne.
    unfold class___subclasscheck__.
    rewrite (extends_type_mro h h2) by done.
    rewrite bool_decide_eq_true_2 by done.
    unfold ConformableMeta___subclasscheck__.
    rewrite (getattr_top_registered h2 to_cls to_mcls Hwf2);
      [|by eapply extends_type_of | by eapply extends_top_of].
    rewrite (grows_getattr h h2 to_cls) by done.
    rewrite Hhook. unfold is_not. simpl.
    rewrite bool_decide_eq_true_2 by done. simpl.
    unfold super___subclasscheck__.
    rewrite (top_is_no_metaclass h2 to_mcls to_cls);
      [|done | by eapply extends_top_of].
    rewrite Hnom. by destruct (hook to_cls Foo) as [[]|].
Qed.

Lemma strict_heap0_reachable : reachable strict_heap0.
Proof. apply run_reachable, shape_heap_reachable. Qed.
End built_facts.

(** C6, as the code has it.  After a successful [redirect_subclasses],
    every class statement of the family hands its base list to the
    captured constructor with [from_cls] replaced by [to_cls] at each
    position, the other bases and the order being kept.  When that
    constructor is a plain one and builds the class, the class has exactly
    these bases, [to_cls] among them and in its MRO.  In particular
    [class Foo(from_cls)] yields a class whose base is [to_cls].
    [issubclass(Foo, to_cls)] is true when [to_cls] is no top type; when
    [to_cls] is the top type of its family the hook
    [conformable_issubclass] decides, and the nominal result, true, is
    returned only when the hook returns [NotImplemented]. *)
Theorem redirect_rewrites_bases h target_mcls from_cls to_cls h1 :
  reachable h →
  redirect_subclasses h target_mcls from_cls to_cls = Ok () h1 →
  ∃ to_mcls to_mcls_new fd,
    type_of h to_cls = Some to_mcls ∧
    getattr h to_mcls new_key = Some fd ∧
    found_attr fd = ANew to_mcls_new ∧
    (∀ fuel name bases metaclass body,
       stmt_metaclass h1 bases metaclass = Some target_mcls →
       class_stmt (S fuel) h1 name bases metaclass body
         = call_new fuel to_mcls_new to_mcls name
                    (redirect_bases from_cls to_cls bases) body h1) ∧
    (∀ bases,
       length (redirect_bases from_cls to_cls bases) = length bases ∧
       ∀ i base, bases !! i = Some base →
         redirect_bases from_cls to_cls bases !! i =
           Some (if bool_decide (base = from_cls) then to_cls else base)) ∧
    (plain_new h1 to_mcls to_mcls_new →
     ∀ fuel name bases metaclass body Foo h2,
       stmt_metaclass h1 bases metaclass = Some target_mcls →
       from_cls ∈ bases →
       calculate_metaclass h1 to_mcls (redirect_bases from_cls to_cls bases)
         = Some to_mcls →
       class_stmt fuel h1 name bases metaclass body = Ok Foo h2 →
       ∃ co,
         h2 !! Foo = Some co ∧
         c_bases co = redirect_bases from_cls to_cls bases ∧
         to_cls ∈ c_bases co ∧
         type___subclasscheck__ h2 to_cls Foo = true ∧
         ((∀ m, ¬ top_of h m to_cls) →
          ConformableMeta_id ∉ mro_of h to_cls →
          class___subclasscheck__ h2 to_cls Foo = Ret (VBool true)) ∧
         (∀ hook, top_of h to_mcls to_cls →
            getattr h to_cls "conformable_issubclass"
              = Some (OnMeta (ASubHook hook)) →
            class___subclasscheck__ h2 to_cls Foo =
              match hook to_cls Foo with
              | Ret VNotImplemented => Ret (VBool true)
              | r => r
              end)) ∧
    (type_of h from_cls = Some target_mcls →
     plain_new h1 to_mcls to_mcls_new →
     ConformableMeta_id ∉ mro_of h to_cls →
     ∀ fuel name body, 3 ≤ fuel →
     ∃ Foo h2 co,
       class_stmt fuel h1 name [from_cls] None body = Ok Foo h2 ∧
       h2 !! Foo = Some co ∧
       c_bases co = [to_cls] ∧
       type___subclasscheck__ h2 to_cls Foo = true ∧
       ((∀ m, ¬ top_of h m to_cls) →
        class___subclasscheck__ h2 to_cls Foo = Ret (VBool true)) ∧
       (∀ hook, top_of h to_mcls to_cls →
          getattr h to_cls "conformable_issubclass"
            = Some (OnMeta (ASubHook hook)) →
          class___subclasscheck__ h2 to_cls Foo =
            match hook to_cls Foo with
            | Ret VNotImplemented => Ret (VBool true)
            | r => r
            end)).
Proof.
  intros Hr%reachable_wf Hok.
  destruct (exec_sound 0 h (OpRedirect target_mcls from_cls to_cls) Hr)
    as [Hwf1 Hext].
  destruct (exec_frame 0 h (OpRedirect target_mcls from_cls to_cls) Hr)
    as [Hg Hfresh].
  simpl in Hwf1, Hext, Hg, Hfresh. rewrite Hok in Hwf1, Hext, Hg, Hfresh.
  simpl in Hwf1, Hext, Hg, Hfresh.
  destruct (redirect_installed _ _ _ _ _ Hr Hok)
    as (to_mcls & inner & fd & Hin & Hty & Hfd & Hinner & Hs & Hnew & Hty1).
  (* what a class statement on [h1] that succeeds gives *)
  assert (∀ fuel name bases metaclass body Foo h2,
            class_stmt fuel h1 name bases metaclass body = Ok Foo h2 →
            wf h2 ∧ extends h h2 ∧ grows h h2 ∧ tops_fresh h h2) as Hlater.
  { intros fuel name bases metaclass body Foo h2 Hstmt.
    destruct (exec_sound fuel h1 (OpClass name bases metaclass body) Hwf1)
      as [Hwf2 Hext2].
    destruct (exec_frame fuel h1 (OpClass name bases metaclass body) Hwf1)
      as [Hg2 Hfresh2].
    simpl in Hwf2, Hext2, Hg2, Hfresh2.
    rewrite Hstmt in Hwf2, Hext2, Hg2, Hfresh2.
    simpl in Hwf2, Hext2, Hg2, Hfresh2.
    split; [done|]. split; [by eapply extends_trans|].
    split; [by eapply grows_trans|].
    eapply tops_fresh_trans; [by apply extends_length | done | done]. }
  exists to_mcls, inner, fd. repeat (split; [done|]).
  split; [|split; [|split]].
  - intros fuel name bases metaclass body Hmeta.
    unfold class_stmt. rewrite Hmeta, Hnew. cbn [call_new]. by rewrite Hty1.
  - intros bases. split; [apply redirect_bases_length|].
    intros i base Hi. by rewrite redirect_bases_lookup, Hi.
  - intros Hplain fuel name bases metaclass body Foo h2 Hmeta Hfrom Hcalc
      Hstmt.
    destruct (Hlater _ _ _ _ _ _ _ Hstmt) as (Hwf2 & Hext2 & Hg2 & Hfresh2).
    assert (to_cls ∈ redirect_bases from_cls to_cls bases) as Hto.
    { unfold redirect_bases. apply list_elem_of_fmap.
      exists from_cls. by rewrite bool_decide_eq_true_2. }
    unfold class_stmt in Hstmt. rewrite Hmeta, Hnew in Hstmt.
    destruct fuel as [|n]; [done|]. cbn [call_new] in Hstmt.
    rewrite Hty1 in Hstmt.
    apply plain_new_builds in Hstmt as (-> & mro & Hlin & ->);
      [|done | by eapply elem_of_not_nil | done].
    eexists. split; [by rewrite lookup_app_r, Nat.sub_diag|].
    split; [done|]. split; [done|].
    assert (to_cls ∈ mro_of
              (h1 ++ [ClassObj name (redirect_bases from_cls to_cls bases)
                               mro to_mcls (namespace_of body)])
              (length h1)) as Hmro.
    { unfold mro_of. rewrite lookup_app_r, Nat.sub_diag by done. simpl.
      apply linearize_Some in Hlin as (m & -> & _ & Hb & _).
      right. by apply Hb. }
    split.
    { unfold type___subclasscheck__, issubtype.
      by apply bool_decide_eq_true_2. }
    by apply (issubclass_of_base h _ to_cls to_mcls).
  - intros Hfrom Hplain Hmeta fuel name body Hfuel.
    destruct fuel as [|[|[|n]]]; [lia.. |].
    assert (is_Some (h1 !! target_mcls)) as Htgt.
    { apply setattr_Some in Hs as (_ & _ & co & Hco & _).
      destruct (Hext _ _ Hco) as (co' & ? & _). by eexists. }
    assert (is_Some (h1 !! to_mcls)) as Htm.
    { destruct (getattr_is_Some _ _ _ _ Hfd) as [co Hco].
      destruct (Hext _ _ Hco) as (co' & ? & _). by eexists. }
    pose proof Hty1 as Hty1'.
    unfold type_of in Hty1.
    destruct (h1 !! to_cls) as [cto|] eqn:Hto; [|done].
    injection Hty1 as Hty1.
    assert (ConformableMeta_id ∉ c_mro cto) as Hmeta1.
    { rewrite <- (setattr_mro_of _ _ _ _ _ to_cls Hs) in Hmeta.
      unfold mro_of in Hmeta. by rewrite Hto in Hmeta. }
    set (co := new_class h1 to_mcls name [to_cls] (c_mro cto) body).
    assert (class_stmt (S (S (S n))) h1 name [from_cls] None body
              = Ok (length h1) (h1 ++ [co])) as Hstmt.
    { unfold class_stmt, stmt_metaclass.
      rewrite (setattr_type_of _ _ _ _ _ from_cls Hs), Hfrom.
      rewrite calculate_metaclass_single; [|done| |done].
      2: by rewrite (setattr_type_of _ _ _ _ _ from_cls Hs).
      rewrite Hnew.
      rewrite (call_redirect_new _ _ _ _ _ to_mcls); [|done].
      rewrite redirect_bases_single. by apply build_single_base. }
    destruct (Hlater _ _ _ _ _ _ _ Hstmt) as (Hwf2 & Hext2 & Hg2 & Hfresh2).
    assert (to_cls ∈ mro_of (h1 ++ [co]) (length h1)) as Hmro.
    { unfold mro_of. rewrite lookup_app_r, Nat.sub_diag by done. simpl.
      destruct (wf_mro _ Hwf1 _ _ Hto) as ([tl ->] & _).
      right. by left. }
    exists (length h1), (h1 ++ [co]), co.
    split; [done|]. split; [by rewrite lookup_app_r, Nat.sub_diag|].
    split; [done|]. split; [by apply new_class_subclass|].
    destruct (issubclass_of_base h (h1 ++ [co]) to_cls to_mcls (length h1))
      as [Hplainly Hhook]; try done.
    split; [|done]. intros Hno. by apply Hplainly.
Qed.

Lemma redirect_rewrites_bases_witness :
  ∃ Foo h2 co,
    class_stmt 3 redirected_heap "Foo" [Shape] None empty_body = Ok Foo h2 ∧
    h2 !! Foo = Some co ∧
    c_bases co = [Impl] ∧
    type___subclasscheck__ h2 Impl Foo = true ∧
    class___subclasscheck__ h2 Impl Foo = Ret (VBool true).
Proof.
  destruct (redirect_rewrites_bases shape_heap ShapeMeta Shape Impl
              redirected_heap shape_heap_reachable redirected_heap_installed)
    as (to_mcls & to_mcls_new & fd & Hty & Hfd & Hinner & _ & _ & _ & Hfoo).
  vm_compute in Hty. injection Hty as <-.
  vm_compute in Hfd. injection Hfd as <-.
  simpl in Hinner. injection Hinner as <-.
  assert (type_of shape_heap Shape = Some ShapeMeta) as A1
    by (vm_compute; reflexivity).
  assert (plain_new redirected_heap ShapeMeta ConformableNew) as A2
    by (right; split; [reflexivity | vm_compute; reflexivity]).
  assert (ConformableMeta_id ∉ mro_of shape_heap Impl) as A3 by compute_done.
  destruct (Hfoo A1 A2 A3 3 "Foo" empty_body ltac:(lia))
    as (Foo & h2 & co & H1 & H2 & H3 & H4 & H5 & _).
  exists Foo, h2, co.
  split; [exact H1|]. split; [exact H2|]. split; [exact H3|].
  split; [exact H4|]. apply H5.
  apply (derived_not_top shape_heap Impl Shape ShapeMeta).
  - apply reachable_wf, shape_heap_reachable.
  - vm_compute; reflexivity.
  - compute_done.
  - lia.
Defined.

(** C6 as stated fails where [to_class] is the top type of a family whose
    hook rejects: [Strict] is the top type of [StrictMeta], whose
    [conformable_issubclass] returns [False] for every class, and
    subclassing of [Placeholder] is redirected to [Strict].  The class
    declared on [Placeholder] is built on [Strict] and has it in its MRO,
    yet [issubclass(Foo, Strict)] is false. *)
Lemma redirected_class_fails_issubclass :
  redirect_subclasses strict_heap0 StrictMeta Placeholder Strict
    = Ok () strict_heap1 ∧
  ∃ Foo h2 co,
    class_stmt 3 strict_heap1 "Foo" [Placeholder] None empty_body
      = Ok Foo h2 ∧
    h2 !! Foo = Some co ∧
    c_bases co = [Strict] ∧
    type___subclasscheck__ h2 Strict Foo = true ∧
    class___subclasscheck__ h2 Strict Foo = Ret (VBool false).
Proof.
  split; [vm_compute; reflexivity|].
  eexists _, _, _. split; [vm_compute; reflexivity|].
  split; [vm_compute; reflexivity|].
  split; [reflexivity|]. split; vm_compute; reflexivity.
Qed.

(** X1.  Only a class that is being constructed can become a top type: a
    class that exists and is no top type is no top type after any later
    program. *)
Theorem existing_class_never_becomes_top h c fuel ops :
  reachable h →
  is_Some (h !! c) →
  (∀ m, ¬ top_of h m c) →
  ∀ m, ¬ top_of (run fuel ops h) m c.
Proof.
  intros Hr%reachable_wf Hc Hno m Hm.
  destruct (run_frame fuel ops h Hr) as [_ Hfresh].
  destruct (Hfresh _ _ Hm) as [?|Hlen]; [by apply (Hno m)|].
  apply lookup_lt_is_Some_1 in Hc. lia.
Qed.

Lemma existing_class_never_becomes_top_witness :
  ¬ top_of later_heap ShapeMeta Circle ∧ ¬ top_of later_heap SubMeta Circle.
Proof.
  assert (∀ m, ¬ top_of later_heap m Circle) as Hno; [|by split].
  apply (existing_class_never_becomes_top shape_heap Circle 4 later_program
           shape_heap_reachable).
  - vm_compute. by eexists.
  - apply (derived_not_top shape_heap Circle Shape ShapeMeta).
    + apply reachable_wf, shape_heap_reachable.
    + vm_compute; reflexivity.
    + compute_done.
    + lia.
Defined.

(** X2.  The membership tests of a class of a family do not depend on
    what is declared or redirected later: for a class that is a family's
    top type or no top type at all, [__instancecheck__] and
    [__subclasscheck__] give the same answer after any later program, on
    every object and class that existed before. *)
Theorem membership_tests_stable h cls v subclass fuel ops :
  reachable h →
  ConformableMeta_id ∈ type_mro h cls →
  is_Some (h !! ob_type v) →
  is_Some (h !! subclass) →
  (∀ m, ¬ top_of h m cls) ∨
  (∃ mcls, type_of h cls = Some mcls ∧ top_of h mcls cls) →
  ConformableMeta___instancecheck__ (run fuel ops h) cls v
    = ConformableMeta___instancecheck__ h cls v ∧
  ConformableMeta___subclasscheck__ (run fuel ops h) cls subclass
    = ConformableMeta___subclasscheck__ h cls subclass.
Proof.
  intros Hreach Hfam Hv Hsub Hcase.
  pose proof (reachable_wf _ Hreach) as Hwf.
  pose proof (reachable_wf _ (run_reachable fuel ops h Hreach)) as Hwf'.
  pose proof (run_extends fuel ops h Hwf) as Hext.
  destruct (run_frame fuel ops h Hwf) as [Hg Hfresh].
  set (h' := run fuel ops h) in *.
  pose proof (elem_of_not_nil _ _ Hfam) as Hne.
  pose proof (type_mro_is_Some _ _ Hne) as Hcls.
  assert (type___instancecheck__ h' cls v = type___instancecheck__ h cls v)
    as Hnom1.
  { unfold type___instancecheck__, issubtype.
    by rewrite (extends_mro_of h h'). }
  assert (type___subclasscheck__ h' cls subclass
            = type___subclasscheck__ h cls subclass) as Hnom2.
  { unfold type___subclasscheck__, issubtype.
    by rewrite (extends_mro_of h h'). }
  assert (ConformableMeta_id ∈ type_mro h' cls) as Hfam'.
  { by rewrite (extends_type_mro h h'). }
  assert (issubtype h' cls ConformableMeta_id
            = issubtype h cls ConformableMeta_id) as Hsup.
  { unfold issubtype. by rewrite (extends_mro_of h h'). }
  unfold ConformableMeta___instancecheck__, ConformableMeta___subclasscheck__.
  unfold super___instancecheck__, super___subclasscheck__. rewrite Hsup.
  destruct Hcase as [Hno | (mcls & Hty & Htop)].
  - assert (∀ m, ¬ top_of h' m cls) as Hno'.
    { intros m Hm. destruct (Hfresh _ _ Hm) as [?|Hlen]; [by apply (Hno m)|].
      apply lookup_lt_is_Some_1 in Hcls. lia. }
    destruct (getattr_top_exists _ _ Hwf Hfam) as [fd Hfd].
    destruct (getattr_top_exists _ _ Hwf' Hfam') as [fd' Hfd'].
    rewrite Hfd, Hfd'.
    rewrite (not_top_is_not _ _ _ Hfd Hno), (not_top_is_not _ _ _ Hfd' Hno').
    by rewrite Hnom1, Hnom2.
  - rewrite (getattr_top_registered h cls mcls Hwf Hty Htop).
    rewrite (getattr_top_registered h' cls mcls Hwf');
      [|by eapply extends_type_of | by eapply extends_top_of].
    rewrite !(grows_getattr h h' cls); [|done..].
    by rewrite Hnom1, Hnom2.
Qed.

Lemma membership_tests_stable_witness :
  ConformableMeta___instancecheck__ later_heap Shape shape_like
    = ConformableMeta___instancecheck__ shape_heap Shape shape_like ∧
  ConformableMeta___subclasscheck__ later_heap Shape Circle
    = ConformableMeta___subclasscheck__ shape_heap Shape Circle.
Proof.
  apply (membership_tests_stable shape_heap Shape shape_like Circle 4
           later_program shape_heap_reachable).
  - compute_done.
  - vm_compute. by eexists.
  - vm_compute. by eexists.
  - right. exists ShapeMeta. split; vm_compute; reflexivity.
Defined.

Section blocked_facts.
Implicit Types (h : heap) (c cls mcls : cid).

(** [ConformableMeta.__new__] with an empty base list, when the lookup of
    [mcls.__top] finds a class: the class object is allocated, then the
    assertion fails. *)
Lemma conformable_new_blocked n h mcls name body T :
  wf h →
  super_lookup h ConformableMeta_id mcls new_key = Some (ANew TypeNew) →
  getattr h mcls top_key = Some (OnClass (AVal (VClass T))) →
  call_new (S (S n)) ConformableNew mcls name [] body h
    = Raise AssertionError
        (h ++ [new_class h mcls name [object_id] [object_id] body]).
Proof.
  intros Hwf Hsup Hget.
  cbn [call_new calculate_metaclass]. rewrite Hsup.
  rewrite bool_decide_eq_true_2; [|done].
  rewrite type_build_baseless; [|done].
  by rewrite (app_getattr_on_class _ _ _ _ (AVal (VClass T)) Hwf).
Qed.

Lemma reachable_grows_init h : reachable h → grows init_heap h.
Proof.
  induction 1 as [|h fuel o Hr IH]; [apply grows_refl|].
  eapply grows_trans; [done|]. by apply exec_frame, reachable_wf.
Qed.

(** The two abstract hooks stay in the dictionary of [ConformableMeta]. *)
Lemma abstract_hooks_kept h :
  reachable h →
  dict_get h ConformableMeta_id "conformable_isinstance"
    = Some (AInstHook conformable_isinstance) ∧
  dict_get h ConformableMeta_id "conformable_issubclass"
    = Some (ASubHook conformable_issubclass).
Proof.
  intros Hr. destruct (reachable_grows_init h Hr ConformableMeta_id)
    as [_ Hk]; [by eexists|].
  split; rewrite Hk; done.
Qed.
End blocked_facts.

(** X3.  The top slot is looked up along the MRO of the metaclass, so a
    metaclass that derives from a family with a top type and has none of
    its own cannot register one: a class constructed under it with an
    empty base list raises the assertion error, and the top types are as
    before. *)
Theorem inherited_top_blocks_registration
    h mcls parent T tl f fuel name body :
  reachable h →
  resolve_new h mcls = Some f →
  family_new h mcls f →
  new_depth f + 2 ≤ fuel →
  super_lookup h ConformableMeta_id mcls new_key = Some (ANew TypeNew) →
  mro_of h mcls = mcls :: parent :: tl →
  dict_get h mcls top_key = None →
  top_of h parent T →
  ∃ h',
    class_stmt fuel h name [] (Some mcls) body = Raise AssertionError h' ∧
    (∀ m T', top_of h' m T' ↔ top_of h m T').
Proof.
  intros Hr%reachable_wf Hnew Hfam Hfuel Hsup Hmro Hown Htop.
  assert (∃ n, fuel = new_depth f + S (S n)) as [n ->].
  { exists (fuel - new_depth f - 2). lia. }
  assert (getattr h mcls top_key = Some (OnClass (AVal (VClass T)))) as Hget.
  { unfold getattr. rewrite Hmro. simpl. by rewrite Hown, Htop. }
  eexists. split.
  - rewrite (class_stmt_explicit _ _ _ _ _ _ Hnew).
    rewrite call_family_new_baseless; [|done].
    by eapply conformable_new_blocked.
  - intros m T'. split.
    + apply app_top_of, namespace_of_top.
    + apply extends_top_of, extends_app.
Qed.

Lemma inherited_top_blocks_registration_witness :
  ∃ h',
    class_stmt 2 sub_heap "SubShape" [] (Some SubMeta) empty_body
      = Raise AssertionError h' ∧
    (∀ m T', top_of h' m T' ↔ top_of sub_heap m T').
Proof.
  apply (inherited_top_blocks_registration sub_heap SubMeta ShapeMeta Shape
           [ConformableMeta_id; type_id; object_id] ConformableNew).
  - apply run_reachable, shape_heap_reachable.
  - vm_compute; reflexivity.
  - exact I.
  - simpl; lia.
  - vm_compute; reflexivity.
  - vm_compute; reflexivity.
  - vm_compute; reflexivity.
  - vm_compute; reflexivity.
Defined.

(** X4.  [ConformableMeta] is abstract: for a class constructed directly
    with [metaclass=ConformableMeta], which thereby is the top type of
    [ConformableMeta] itself, both membership tests raise
    [NotImplementedError] on every argument. *)
Theorem abstract_family_tests_raise h cls v subclass :
  reachable h →
  type_of h cls = Some ConformableMeta_id →
  top_of h ConformableMeta_id cls →
  dict_get h cls "conformable_isinstance" = None →
  dict_get h cls "conformable_issubclass" = None →
  ConformableMeta___instancecheck__ h cls v = Exc NotImplementedError ∧
  ConformableMeta___subclasscheck__ h cls subclass = Exc NotImplementedError.
Proof.
  intros Hreach Hty Htop Hno1 Hno2.
  pose proof (reachable_wf _ Hreach) as Hwf.
  destruct (abstract_hooks_kept h Hreach) as [Hk1 Hk2].
  destruct (top_of_mro _ _ _ Hwf Htop) as [_ Hmro].
  destruct (wf_meta _ Hwf) as (co & Hco & Hmeta & _).
  assert (∀ key a, dict_get h cls key = None →
            dict_get h ConformableMeta_id key = Some a →
            key ≠ new_key →
            getattr h cls key = Some (OnMeta a)) as Hget.
  { intros key a Hnone Hsome Hkey. unfold getattr, type_mro.
    rewrite Hmro. simpl. rewrite Hnone.
    assert (dict_get h object_id key = None) as ->.
    { unfold dict_get. rewrite (wf_object _ Hwf). simpl.
      by apply lookup_singleton_ne. }
    unfold type_of in Hty. destruct (h !! cls) as [ccls|]; [|done].
    injection Hty as ->. unfold mro_of. rewrite Hco, Hmeta. simpl.
    by rewrite Hsome. }
  unfold ConformableMeta___instancecheck__, ConformableMeta___subclasscheck__.
  rewrite (getattr_top_registered _ _ _ Hwf Hty Htop).
  rewrite (Hget _ _ Hno1 Hk1), (Hget _ _ Hno2 Hk2); [|done..].
  unfold is_not. simpl. by rewrite bool_decide_eq_true_2.
Qed.

Lemma abstract_family_tests_raise_witness :
  ∃ h, class_stmt 2 init_heap "Bare" [] (Some ConformableMeta_id) empty_body
         = Ok 3 h ∧
       ConformableMeta___instancecheck__ h 3 plain_object
         = Exc NotImplementedError ∧
       ConformableMeta___subclasscheck__ h 3 object_id
         = Exc NotImplementedError.
Proof.
  eexists. split; [vm_compute; reflexivity|].
  apply abstract_family_tests_raise.
  - apply (reach_step init_heap 2
             (OpClass "Bare" [] (Some ConformableMeta_id) empty_body)
             reach_init).
  - vm_compute; reflexivity.
  - vm_compute; reflexivity.
  - vm_compute; reflexivity.
  - vm_compute; reflexivity.
Defined.

(** ** Further properties of [redirect_subclasses] *)

(** X5.  [redirect_subclasses] writes one attribute and nothing else: an
    exception leaves the heap as it was, and after a successful call every
    attribute of every class other than [target_mcls.__new__] is as
    before, no class object is added, and [target_mcls] is neither
    [object] nor [type], whose attributes cannot be set. *)
Theorem redirect_subclasses_effect h target_mcls from_cls to_cls :
  (∀ e h', redirect_subclasses h target_mcls from_cls to_cls = Raise e h' →
           h' = h) ∧
  redirect_subclasses h target_mcls from_cls to_cls ≠ OutOfFuel ∧
  (∀ h1, redirect_subclasses h target_mcls from_cls to_cls = Ok () h1 →
     target_mcls ∈ type_mro h from_cls ∧
     target_mcls ≠ object_id ∧ target_mcls ≠ type_id ∧
     length h1 = length h ∧
     (∀ c, mro_of h1 c = mro_of h c ∧ type_of h1 c = type_of h c) ∧
     (∀ c key, c ≠ target_mcls ∨ key ≠ new_key →
               dict_get h1 c key = dict_get h c key)).
Proof.
  destruct (redirect_subclasses_cases h target_mcls from_cls to_cls)
    as [[e ->]|(to_mcls & inner & h' & Hin & _ & _ & Hs & ->)].
  - split; [by intros ?? [= _ ->]|]. split; [done | by intros ? [=]].
  - split; [by intros ?? [=]|]. split; [done|]. intros h1 [= <-].
    destruct (setattr_Some _ _ _ _ _ Hs) as (? & ? & _).
    split; [done|]. split; [done|]. split; [done|].
    split; [by eapply setattr_length|]. split.
    + intros c. split; [by eapply setattr_mro_of | by eapply setattr_type_of].
    + intros c key Hck. rewrite (setattr_dict_get _ _ _ _ _ c key Hs).
      rewrite bool_decide_eq_false_2; [done|]. intros [-> ->].
      by destruct Hck.
Qed.

(** X6.  The rewritten base list never names [from_cls] when [to_cls] is
    another class, rewriting it again changes nothing, and [to_cls] occurs
    in it exactly when [to_cls] or [from_cls] was declared. *)
Theorem redirect_bases_removes_from from_cls to_cls bases :
  to_cls ≠ from_cls →
  (from_cls ∉ redirect_bases from_cls to_cls bases) ∧
  redirect_bases from_cls to_cls (redirect_bases from_cls to_cls bases)
    = redirect_bases from_cls to_cls bases ∧
  (to_cls ∈ redirect_bases from_cls to_cls bases ↔
   to_cls ∈ bases ∨ from_cls ∈ bases).
Proof.
  intros Hne.
  assert (from_cls ∉ redirect_bases from_cls to_cls bases) as Hnot.
  { unfold redirect_bases. intros (b & Hb & _)%list_elem_of_fmap.
    case_bool_decide; congruence. }
  split; [done|]. split; [by apply redirect_bases_id|].
  unfold redirect_bases. rewrite list_elem_of_fmap. split.
  - intros (b & Hb & Hin). case_bool_decide; [subst b; by right|].
    subst b. by left.
  - intros [Hin|Hin].
    + exists to_cls. by rewrite bool_decide_eq_false_2.
    + exists from_cls. by rewrite bool_decide_eq_true_2.
Qed.

Lemma redirect_bases_removes_from_witness :
  (Shape ∉ redirect_bases Shape Impl [Shape; Circle; Shape]) ∧
  redirect_bases Shape Impl (redirect_bases Shape Impl [Shape; Circle; Shape])
    = redirect_bases Shape Impl [Shape; Circle; Shape] ∧
  (Impl ∈ redirect_bases Shape Impl [Shape; Circle; Shape] ↔
   Impl ∈ [Shape; Circle; Shape] ∨ Shape ∈ [Shape; Circle; Shape]).
Proof.
  apply (redirect_bases_removes_from Shape Impl [Shape; Circle; Shape]). lia.
Defined.

Section duplicate_facts.
Implicit Types (h : heap) (c cls mcls b : cid) (seqs : list (list cid)).

(** [merge] succeeds only on sequences without repetition. *)
Lemma merge_inputs_NoDup fuel : ∀ seqs m,
  merge fuel seqs = Some m → ∀ s, s ∈ seqs → NoDup s.
Proof.
  induction fuel as [|n IH]; intros seqs m; simpl.
  - destruct (all_empty seqs) eqn:He; [|done]. intros _ s Hs.
    destruct s as [|x s]; [constructor|].
    by destruct (all_empty_elem seqs (x :: s) x He Hs); left.
  - destruct (all_empty seqs) eqn:He.
    { intros _ s Hs. destruct s as [|x s]; [constructor|].
      by destruct (all_empty_elem seqs (x :: s) x He Hs); left. }
    destruct (find_candidate seqs seqs) as [c|] eqn:Hc; [|done].
    destruct (merge n (drop_head c <$> seqs)) as [m'|] eqn:Hm; [|done].
    intros _ s Hs.
    assert (NoDup (drop_head c s)) as Hnd.
    { apply (IH _ _ Hm). apply list_elem_of_fmap. by exists s. }
    apply find_candidate_head in Hc as [Hg _].
    pose proof (good_head_not_in_tail _ _ _ Hg Hs) as Htail.
    destruct s as [|x t]; [constructor|]. simpl in Hnd, Htail.
    case_bool_decide; [|done]. subst x. by apply NoDup_cons.
Qed.

Lemma linearize_duplicate h cls b :
  linearize h cls [b; b] = None.
Proof.
  destruct (linearize h cls [b; b]) as [mro|] eqn:Hlin; [|done].
  unfold linearize in Hlin.
  destruct (base_mros h [b; b]) as [ms|]; [|done].
  destruct (merge _ _) as [m|] eqn:Hm; [|done].
  assert (NoDup [b; b]) as Hnd.
  { apply (merge_inputs_NoDup _ _ _ Hm). apply elem_of_app. right. by left. }
  apply NoDup_cons in Hnd as [Hnot _]. destruct Hnot. by left.
Qed.

Lemma type_build_duplicate h mt name b body :
  type_build h mt name [b; b] body = Raise TypeError h.
Proof. unfold type_build. cbn [actual_bases]. by rewrite linearize_duplicate. Qed.

Lemma calculate_metaclass_pair h b1 b2 mcls :
  wf h → type_of h b1 = Some mcls → type_of h b2 = Some mcls →
  is_Some (h !! mcls) →
  calculate_metaclass h mcls [b1; b2] = Some mcls.
Proof.
  intros Hwf H1 H2 Hm. simpl. rewrite H1, H2.
  by rewrite issubtype_refl.
Qed.
End duplicate_facts.

(** X7.  A redirection turns a declaration that names both [from_cls] and
    [to_cls] into one with a repeated base: the class statement raises
    [TypeError] and no class object is built. *)
Theorem redirect_makes_duplicate_base
    h M from_cls to_cls h1 to_mcls_new fuel name body :
  reachable h →
  type_of h from_cls = Some M →
  type_of h to_cls = Some M →
  resolve_new h M = Some to_mcls_new →
  redirect_subclasses h M from_cls to_cls = Ok () h1 →
  plain_new h1 M to_mcls_new →
  3 ≤ fuel →
  class_stmt fuel h1 name [from_cls; to_cls] None body = Raise TypeError h1.
Proof.
  intros Hr%reachable_wf Hfrom Hto Hres Hok Hplain Hfuel.
  destruct fuel as [|[|[|n]]]; [lia.. |].
  destruct (redirect_subclasses_sound h M from_cls to_cls Hr) as [Hwf1 _].
  rewrite Hok in Hwf1. simpl in Hwf1.
  destruct (redirect_installed _ _ _ _ _ Hr Hok)
    as (m1 & f1 & fd1 & _ & Hty1 & Hfd1 & Hf1 & Hs & Hnew & Hto1).
  rewrite Hto in Hty1. injection Hty1 as <-.
  rewrite (resolve_new_getattr _ _ _ Hres) in Hfd1. injection Hfd1 as <-.
  simpl in Hf1. injection Hf1 as <-.
  assert (type_of h1 from_cls = Some M) as Hfrom1.
  { by rewrite (setattr_type_of _ _ _ _ _ from_cls Hs). }
  assert (is_Some (h1 !! M)) as HM.
  { unfold resolve_new, mro_of in Hnew. by destruct (h1 !! M). }
  unfold class_stmt, stmt_metaclass. rewrite Hfrom1.
  rewrite (calculate_metaclass_pair _ _ _ _ Hwf1 Hfrom1 Hto1 HM), Hnew.
  rewrite (call_redirect_new _ _ _ _ _ M); [|done].
  assert (redirect_bases from_cls to_cls [from_cls; to_cls]
            = [to_cls; to_cls]) as ->.
  { unfold redirect_bases. simpl. rewrite bool_decide_eq_true_2; [|done].
    by case_bool_decide; subst. }
  pose proof (calculate_metaclass_pair _ _ _ _ Hwf1 Hto1 Hto1 HM) as Hcalc.
  destruct Hplain as [-> | [-> Hsup]]; cbn [call_new].
  - rewrite Hcalc, bool_decide_eq_true_2; [|done].
    apply type_build_duplicate.
  - rewrite Hsup, Hcalc, bool_decide_eq_true_2; [|done].
    by rewrite type_build_duplicate.
Qed.

Lemma redirect_makes_duplicate_base_witness :
  class_stmt 3 redirected_heap "Both" [Shape; Impl] None empty_body
    = Raise TypeError redirected_heap.
Proof.
  apply (redirect_makes_duplicate_base shape_heap ShapeMeta Shape Impl
           redirected_heap ConformableNew 3 "Both" empty_body
           shape_heap_reachable).
  - vm_compute; reflexivity.
  - vm_compute; reflexivity.
  - vm_compute; reflexivity.
  - apply redirected_heap_installed.
  - right. split; [reflexivity | vm_compute; reflexivity].
  - lia.
Defined.

(** X8.  Two redirections of one family compose: the later rule is applied
    to the declared base first, the earlier rule to what results.  So a
    rule whose [to_cls] is the earlier rule's [from_cls] is rewritten
    again, and redirecting a class onto itself removes no earlier rule. *)
Theorem redirect_rules_compose h0 h1 h2 M A B C D X to_mcls_new :
  reachable h0 →
  type_of h0 B = Some M → type_of h0 D = Some M → type_of h0 X = Some M →
  ConformableMeta_id ∉ mro_of h0 B →
  ConformableMeta_id ∉ mro_of h0 D →
  ConformableMeta_id ∉ mro_of h0 X →
  resolve_new h0 M = Some to_mcls_new →
  redirect_subclasses h0 M A B = Ok () h1 →
  redirect_subclasses h1 M C D = Ok () h2 →
  plain_new h2 M to_mcls_new →
  ∀ fuel name body, 4 ≤ fuel →
    ∃ cls h3 co,
      class_stmt fuel h2 name [X] None body = Ok cls h3 ∧
      h3 !! cls = Some co ∧
      c_bases co = redirect_bases A B (redirect_bases C D [X]).
Proof.
  intros Hr%reachable_wf HB HD HX HnoB HnoD HnoX Hres H1 H2 Hplain
         fuel name body Hfuel.
  destruct fuel as [|[|[|[|n]]]]; [lia.. |].
  destruct (redirect_subclasses_sound h0 M A B Hr) as [Hwf1 _].
  rewrite H1 in Hwf1. simpl in Hwf1.
  destruct (redirect_subclasses_sound h1 M C D Hwf1) as [Hwf2 _].
  rewrite H2 in Hwf2. simpl in Hwf2.
  destruct (redirect_installed _ _ _ _ _ Hr H1)
    as (m1 & f1 & fd1 & _ & Hty1 & Hfd1 & Hf1 & Hs1 & Hnew1 & _).
  rewrite HB in Hty1. injection Hty1 as <-.
  rewrite (resolve_new_getattr _ _ _ Hres) in Hfd1. injection Hfd1 as <-.
  simpl in Hf1. injection Hf1 as <-.
  destruct (redirect_installed _ _ _ _ _ Hwf1 H2)
    as (m2 & f2 & fd2 & _ & Hty2 & Hfd2 & Hf2 & Hs2 & Hnew2 & _).
  rewrite (setattr_type_of _ _ _ _ _ D Hs1), HD in Hty2.
  injection Hty2 as <-.
  rewrite (resolve_new_getattr _ _ _ Hnew1) in Hfd2. injection Hfd2 as <-.
  simpl in Hf2. injection Hf2 as <-.
  assert (∀ Y, type_of h2 Y = type_of h0 Y) as Hty.
  { intros Y. rewrite (setattr_type_of _ _ _ _ _ Y Hs2).
    apply (setattr_type_of _ _ _ _ _ Y Hs1). }
  assert (∀ Y, mro_of h2 Y = mro_of h0 Y) as Hmro.
  { intros Y. rewrite (setattr_mro_of _ _ _ _ _ Y Hs2).
    apply (setattr_mro_of _ _ _ _ _ Y Hs1). }
  assert (∃ Y, redirect_bases A B (redirect_bases C D [X]) = [Y] ∧
               type_of h0 Y = Some M ∧ ConformableMeta_id ∉ mro_of h0 Y)
    as (Y & HY & HtY & HnoY).
  { unfold redirect_bases. simpl.
    destruct (bool_decide (X = C)); destruct (bool_decide (_ = A));
      eauto. }
  rewrite <- Hty in HtY. rewrite <- Hmro in HnoY.
  unfold type_of, mro_of in HtY, HnoY.
  destruct (h2 !! Y) as [cY|] eqn:HcY; [|done]. injection HtY as HtY.
  eexists _, _, _. split; [|split].
  - eapply (chain_build n h2 M A B C D to_mcls_new X Y cY);
      try done; by rewrite Hty.
  - by rewrite lookup_app_r, Nat.sub_diag.
  - by rewrite HY.
Qed.

Lemma redirect_rules_compose_witness :
  ∃ cls h3 co,
    class_stmt 4 selfrule_heap "Foo" [Shape] None empty_body = Ok cls h3 ∧
    h3 !! cls = Some co ∧
    c_bases co = [Impl].
Proof.
  apply (redirect_rules_compose rules_heap0 rules_heap1 selfrule_heap
           ShapeMeta Shape Impl Shape Shape Shape ConformableNew).
  - apply reach_step, shape_heap_reachable.
  - vm_compute; reflexivity.
  - vm_compute; reflexivity.
  - vm_compute; reflexivity.
  - compute_done.
  - compute_done.
  - compute_done.
  - vm_compute; reflexivity.
  - vm_compute; reflexivity.
  - vm_compute; reflexivity.
  - right. split; [reflexivity | vm_compute; reflexivity].
  - lia.
Defined.

(** X9.  After subclassing has been redirected to a class of another
    family, a class constructed under the redirected metaclass with an
    empty base list is not checked against that metaclass's own top type:
    it is built with the other family's metaclass and becomes the top
    type of the other family, while the redirected metaclass gains none. *)
Theorem redirect_moves_top_registration
    h M from_cls to_cls h1 M' fuel name body :
  reachable h →
  redirect_subclasses h M from_cls to_cls = Ok () h1 →
  type_of h to_cls = Some M' →
  M' ≠ M →
  resolve_new h M' = Some ConformableNew →
  super_lookup h1 ConformableMeta_id M' new_key = Some (ANew TypeNew) →
  top_is_None h1 M' →
  3 ≤ fuel →
  ∃ T h2,
    class_stmt fuel h1 name [] (Some M) body = Ok T h2 ∧
    type_of h2 T = Some M' ∧
    top_of h2 M' T ∧
    (∀ T', top_of h2 M T' → top_of h1 M T').
Proof.
  intros Hr%reachable_wf Hok Hto Hne Hres Hsup Hnone Hfuel.
  destruct fuel as [|[|[|n]]]; [lia.. |].
  destruct (redirect_subclasses_sound h M from_cls to_cls Hr) as [Hwf1 _].
  rewrite Hok in Hwf1. simpl in Hwf1.
  destruct (redirect_installed _ _ _ _ _ Hr Hok)
    as (m1 & f1 & fd1 & _ & Hty1 & Hfd1 & Hf1 & Hs & Hnew & Hto1).
  rewrite Hto in Hty1. injection Hty1 as <-.
  rewrite (resolve_new_getattr _ _ _ Hres) in Hfd1. injection Hfd1 as <-.
  simpl in Hf1. injection Hf1 as <-.
  destruct (conformable_new_first n h1 M' name body Hwf1 Hsup Hnone)
    as (h2 & Hcall & Hs2 & Htop).
  pose proof (super_lookup_family _ _ _ _ _ Hsup) as [_ HM'].
  assert (is_Some (h1 !! M)) as HM.
  { unfold resolve_new, mro_of in Hnew. by destruct (h1 !! M). }
  exists (length h1), h2. split; [|split; [|split; [done|]]].
  - rewrite (class_stmt_explicit _ _ _ _ _ _ Hnew).
    by rewrite (call_redirect_new _ _ _ _ _ M').
  - rewrite (setattr_type_of _ _ _ _ _ (length h1) Hs2). unfold type_of.
    by rewrite lookup_app_r, Nat.sub_diag.
  - intros T'. unfold top_of.
    rewrite (setattr_dict_get _ _ _ _ _ M top_key Hs2).
    rewrite bool_decide_eq_false_2; [|by intros [? _]].
    by rewrite app_dict_get.
Qed.

Lemma redirect_moves_top_registration_witness :
  ∃ T h2,
    class_stmt 3 alien_heap1 "Solo" [] (Some ShapeMeta) empty_body
      = Ok T h2 ∧
    type_of h2 T = Some OtherMeta ∧
    top_of h2 OtherMeta T ∧
    (∀ T', top_of h2 ShapeMeta T' → top_of alien_heap1 ShapeMeta T').
Proof.
  apply (redirect_moves_top_registration alien_heap0 ShapeMeta Circle 8
           alien_heap1 OtherMeta 3 "Solo" empty_body).
  - apply run_reachable, shape_heap_reachable.
  - vm_compute; reflexivity.
  - vm_compute; reflexivity.
  - lia.
  - vm_compute; reflexivity.
  - vm_compute; reflexivity.
  - eexists. split; vm_compute; reflexivity.
  - lia.
Defined.

(** ** The helper functions *)

Section flatten_facts.

(** Induction on an item and on the items below it. *)
Lemma pyitem_nested_ind (P : pyitem → Prop) :
  (∀ n, P (Atom n)) →
  (∀ s, P (Str s)) →
  (∀ items, Forall P items → P (Iter items)) →
  ∀ e, P e.
Proof.
  intros HA HS HI. fix IH 1. intros [n|s|items].
  - apply HA.
  - apply HS.
  - apply HI. induction items as [|e items IHitems]; constructor.
    + apply IH.
    + apply IHitems.
Qed.

Lemma flatten_cons e i :
  flatten (e :: i) = (if is_leaf e then [e] else
                        match e with Iter items => flatten items | _ => [] end)
                     ++ flatten i.
Proof. by destruct e. Qed.

Lemma flatten_append i1 i2 : flatten (i1 ++ i2) = flatten i1 ++ flatten i2.
Proof.
  induction i1 as [|e i1 IH]; [done|].
  change (flatten_step e ++ flatten (i1 ++ i2)
          = (flatten_step e ++ flatten i1) ++ flatten i2).
  by rewrite IH, (assoc_L (++)).
Qed.

Lemma flatten_step_leaves e : Forall (λ x, is_leaf x = true) (flatten_step e).
Proof.
  induction e as [n|s|items IH] using pyitem_nested_ind.
  - by repeat constructor.
  - by repeat constructor.
  - change (Forall (λ x, is_leaf x = true) (flatten items)).
    induction IH as [|e items He _ IHitems]; [constructor|].
    change (Forall (λ x, is_leaf x = true) (flatten_step e ++ flatten items)).
    by apply Forall_app.
Qed.

Lemma flatten_leaves i : Forall (λ x, is_leaf x = true) (flatten i).
Proof.
  induction i as [|e i IH]; [constructor|].
  change (Forall (λ x, is_leaf x = true) (flatten_step e ++ flatten i)).
  apply Forall_app. split; [apply flatten_step_leaves | done].
Qed.

Lemma flatten_of_leaves i : Forall (λ x, is_leaf x = true) i → flatten i = i.
Proof.
  induction 1 as [|e i He _ IH]; [done|].
  rewrite flatten_cons, He, IH. done.
Qed.

End flatten_facts.

(** X10. [flatten] does not see how the items are grouped: flattening a
    concatenation is the concatenation of the flattened parts, and an
    iterable in front contributes the same as its items written out. *)
Theorem flatten_ignores_grouping (i1 i2 : list pyitem) :
  flatten (i1 ++ i2) = flatten i1 ++ flatten i2 ∧
  flatten (Iter i1 :: i2) = flatten (i1 ++ i2).
Proof.
  split; [apply flatten_append|].
  rewrite flatten_append. by rewrite flatten_cons.
Qed.

(** X11. [flatten] yields leaves only (strings and objects that are not
    iterable), it gives back its input exactly when the input holds no
    other iterable, and flattening twice is flattening once. *)
Theorem flatten_yields_leaves (i : list pyitem) :
  Forall (λ e, is_leaf e = true) (flatten i) ∧
  (flatten i = i ↔ Forall (λ e, is_leaf e = true) i) ∧
  flatten (flatten i) = flatten i.
Proof.
  split; [apply flatten_leaves|]. split.
  - split; [|apply flatten_of_leaves].
    intros Heq. rewrite <-Heq. apply flatten_leaves.
  - apply flatten_of_leaves, flatten_leaves.
Qed.

Section union_facts.
Context {A : Type} (ior : A → option A → res (option A)).

Lemma union_cons e i start :
  union ior (e :: i) start
  = foldl (union_step ior) (union_step ior (Ret start) e) i.
Proof. done. Qed.

Lemma union_loop_Exc x i : foldl (union_step ior) (Exc x) i = Exc x.
Proof. by induction i. Qed.

Lemma union_loop_not_None i r :
  (∀ r e, ior r e ≠ Ret None) → r ≠ Ret None →
  foldl (union_step ior) r i ≠ Ret None.
Proof.
  intros Hior. revert r. induction i as [|e i IH]; intros r Hr; [done|].
  cbn. apply IH. destruct r as [[s|]|x]; cbn; [apply Hior|done|done].
Qed.

Lemma union_returns_None i start :
  (∀ r e, ior r e ≠ Ret None) →
  union ior i start = Ret None ↔ start = None ∧ Forall (λ e, e = None) i.
Proof.
  intros Hior. unfold union. revert start.
  induction i as [|e i IH]; intros start.
  - cbn. split; [by intros [= ->]|by intros [-> _]].
  - cbn. destruct start as [s|].
    + split; [|by intros [? _]].
      intros Hres. by eapply union_loop_not_None in Hres; [| |apply Hior].
    + rewrite IH. split.
      * intros [-> Hall]. by split; [|constructor].
      * intros [_ Hall]. by inversion_clear Hall.
Qed.

Section with_op.
Context (op : A → A → A).
Hypothesis ior_op : ∀ r e, ior r (Some e) = Ret (Some (op r e)).

Lemma union_loop_Some j s :
  foldl (union_step ior) (Ret (Some s)) (Some <$> j) = Ret (Some (foldl op s j)).
Proof.
  revert s. induction j as [|e j IH]; intros s; [done|].
  cbn. rewrite ior_op. apply IH.
Qed.

Lemma union_loop_perm j j' r :
  Assoc (=) op → Comm (=) op → j ≡ₚ j' →
  foldl (union_step ior) r (Some <$> j)
  = foldl (union_step ior) r (Some <$> j').
Proof.
  intros Hassoc Hcomm Hperm. revert r.
  induction Hperm as [|x l l' _ IH|x y l|l l' l'' _ IH1 _ IH2]; intros r.
  - done.
  - cbn. apply IH.
  - cbn. f_equal. destruct r as [[s|]|e]; cbn; [| |done].
    + rewrite !ior_op. cbn. rewrite !ior_op.
      by rewrite <-!(assoc_L op), (comm_L op y x).
    + rewrite !ior_op. by rewrite (comm_L op y x).
  - by rewrite IH1.
Qed.

End with_op.
Lemma union_sets_from_Some i r σ :
  r < length σ →
  ∃ σ', union_sets i (Some r) σ = (Some r, σ') ∧
        length σ' = length σ ∧
        (∀ r', r' ≠ r → σ' !! r' = σ !! r') ∧
        (∀ x, x ∈ σ' !!! r ↔ x ∈ σ !!! r ∨ ∃ e, e ∈ i ∧ x ∈ σ !!! e).
Proof.
  revert σ. induction i as [|e i IH]; intros σ Hr.
  - exists σ. repeat split; try done.
    + by left.
    + intros [?|(e & He & _)]; [done|]. by apply elem_of_nil in He.
  - unfold union_sets. cbn [foldl]. unfold union_sets_step at 2. cbn [fst snd].
    fold (union_sets i (Some r) (set___ior__ r e σ)).
    assert (Hlen : length (set___ior__ r e σ) = length σ)
      by apply length_insert.
    destruct (IH (set___ior__ r e σ)) as (σ' & Heq & Hl & Hother & Hat);
      [by rewrite Hlen|].
    assert (Hnew : ∀ r', set___ior__ r e σ !!! r'
                         = if decide (r' = r) then σ !!! r ∪ σ !!! e else σ !!! r').
    { intros r'. unfold set___ior__. destruct (decide (r' = r)) as [->|Hne].
      - by apply list_lookup_total_insert_eq.
      - by apply list_lookup_total_insert_ne. }
    exists σ'. split; [done|]. split; [by rewrite Hl|]. split.
    + intros r' Hne. rewrite (Hother r' Hne). unfold set___ior__.
      by apply list_lookup_insert_ne.
    + intros x. rewrite Hat, (Hnew r), decide_True by done. split.
      * intros [[Hx|Hx]%elem_of_union|(e' & He' & Hx)].
        -- by left.
        -- right. exists e. split; [by left|done].
        -- rewrite Hnew in Hx. destruct (decide (e' = r)) as [->|].
           ++ apply elem_of_union in Hx as [Hx|Hx]; [by left|].
              right. exists e. split; [by left|done].
           ++ right. exists e'. split; [by right|done].
      * intros [Hx|(e' & [->|He']%elem_of_cons & Hx)].
        -- left. apply elem_of_union. by left.
        -- left. apply elem_of_union. by right.
        -- destruct (decide (e' = r)) as [->|Hne].
           ++ left. apply elem_of_union. by left.
           ++ right. exists e'. split; [done|].
              by rewrite Hnew, decide_False.
Qed.

End union_facts.

(** X12. [union] returns the start value for an empty input and skips
    the items in front that are [None] when there is no start value.
    When [|=] never leaves [None], the result is [None] only if there is
    no start value and every item is [None].  On items other than [None],
    with [|=] given by an operation, the result is the start value, or the
    first item when there is none, combined from left to right with the
    items that follow. *)
Theorem union_result {A : Type} (ior : A → option A → res (option A))
    (op : A → A → A) (i : list (option A)) (j : list A) (start : option A) :
  (∀ r e, ior r e ≠ Ret None) →
  (∀ r e, ior r (Some e) = Ret (Some (op r e))) →
  union ior [] start = Ret start ∧
  union ior (None :: i) None = union ior i None ∧
  (union ior i start = Ret None ↔ start = None ∧ Forall (λ e, e = None) i) ∧
  union ior (Some <$> j) start =
    Ret match start, j with
        | Some s, _ => Some (foldl op s j)
        | None, e :: j' => Some (foldl op e j')
        | None, [] => None
        end.
Proof.
  intros Hnone Hop. split; [done|]. split; [done|].
  split; [by apply union_returns_None|].
  destruct start as [s|].
  - by apply union_loop_Some.
  - destruct j as [|e j]; [done|]. by apply union_loop_Some.
Qed.

Lemma union_result_witness :
  union int_ior [] None = Ret None ∧
  union int_ior (None :: [None; Some 1; Some 2]) None
    = union int_ior [None; Some 1; Some 2] None ∧
  (union int_ior [None; Some 1; Some 2] None = Ret None
   ↔ None = None :> option nat ∧
     Forall (λ e, e = None) [None; Some 1; Some 2]) ∧
  union int_ior (Some <$> [1; 2; 12]) None =
    Ret (Some (foldl Nat.lor 1 [2; 12])).
Proof.
  apply (union_result int_ior Nat.lor [None; Some 1; Some 2] [1; 2; 12]
           None).
  - intros r [e|]; discriminate.
  - reflexivity.
Defined.

(** X13. When the operation behind [|=] is associative and commutative,
    the result of [union] does not depend on the order of the items,
    with or without a start value. *)
Theorem union_order_irrelevant {A : Type}
    (ior : A → option A → res (option A)) (op : A → A → A)
    (i i' : list A) (start : option A) :
  (∀ r e, ior r (Some e) = Ret (Some (op r e))) →
  Assoc (=) op → Comm (=) op → i ≡ₚ i' →
  union ior (Some <$> i) start = union ior (Some <$> i') start.
Proof. intros Hop Hassoc Hcomm Hperm. by eapply union_loop_perm. Qed.

Lemma union_order_irrelevant_witness :
  union int_ior (Some <$> [1; 2; 12]) None
  = union int_ior (Some <$> [12; 1; 2]) None.
Proof.
  apply (union_order_irrelevant int_ior Nat.lor).
  - reflexivity.
  - intros x y z. apply Nat.lor_assoc.
  - intros x y. apply Nat.lor_comm.
  - symmetry. apply (Permutation_cons_append [1; 2] 12).
Defined.

(** X14. On mutable sets [union] works in place: the set it returns is
    the start set, or the first item when there is no start value, and
    that set has received the elements of all the items; no other set of
    the store is changed. *)
Theorem union_sets_updates_first (i : list nat) (start : option nat)
    (σ : set_store) (r : nat) :
  from_option Some (head i) start = Some r →
  r < length σ →
  ∃ σ', union_sets i start σ = (Some r, σ') ∧
        length σ' = length σ ∧
        (∀ r', r' ≠ r → σ' !! r' = σ !! r') ∧
        (∀ x, x ∈ σ' !!! r ↔ x ∈ σ !!! r ∨ ∃ e, e ∈ i ∧ x ∈ σ !!! e).
Proof.
  intros Hr Hlen. destruct start as [s|]; cbn in Hr.
  - injection Hr as ->. by apply union_sets_from_Some.
  - destruct i as [|e i]; [done|]. cbn in Hr. injection Hr as ->.
    destruct (union_sets_from_Some i r σ Hlen) as (σ' & Heq & Hl & Ho & Hat).
    exists σ'. split; [done|]. split; [done|]. split; [done|].
    intros x. rewrite Hat. split.
    + intros [?|(e & He & Hx)]; [by left|].
      right. exists e. split; [by right|done].
    + intros [?|(e & [->|He]%elem_of_cons & Hx)]; [by left|by left|].
      right. by exists e.
Qed.

Lemma union_sets_updates_first_witness :
  ∃ σ', union_sets [0; 1; 2] None [{[1]}; {[2]}; {[3]}] = (Some 0, σ') ∧
        length σ' = 3 ∧
        (∀ r', r' ≠ 0 → σ' !! r' = ([{[1]}; {[2]}; {[3]}] : set_store) !! r') ∧
        (∀ x, x ∈ σ' !!! 0 ↔
              x ∈ ([{[1]}; {[2]}; {[3]}] : set_store) !!! 0 ∨
              ∃ e, e ∈ [0; 1; 2] ∧ x ∈ ([{[1]}; {[2]}; {[3]}] : set_store) !!! e).
Proof.
  apply (union_sets_updates_first [0; 1; 2] None [{[1]}; {[2]}; {[3]}] 0).
  - reflexivity.
  - cbn. lia.
Defined.

Section memoize_facts.
Context `{Countable Q} {K V : Type} (key : K → Q) (f : K → V).

(** The first of [argss] that is equal to a given argument. *)
Lemma list_find_snoc (q : Q) (l : list K) (x : K) :
  list_find (λ c, key c = q) (l ++ [x])
  = match list_find (λ c, key c = q) l with
    | Some r => Some r
    | None => if decide (key x = q) then Some (length l, x) else None
    end.
Proof.
  induction l as [|y l IH]; cbn.
  - by destruct (decide (key x = q)).
  - destruct (decide (key y = q)); [done|]. rewrite IH.
    destruct (list_find _ l) as [[m b]|]; [done|].
    by destruct (decide (key x = q)).
Qed.

Lemma list_find_prefix (q : Q) (l l' : list K) r :
  list_find (λ c, key c = q) l = Some r →
  list_find (λ c, key c = q) (l ++ l') = Some r.
Proof.
  induction l as [|y l IH] in r |- *; cbn; [done|].
  destruct (decide (key y = q)); [done|].
  destruct (list_find _ l) as [r'|] eqn:Hl; [|done].
  intros [= <-]. by rewrite (IH r').
Qed.

Lemma memoize_step pre args st :
  memo_inv key f pre st →
  (∃ m b, list_find (λ c, key c = key args) (pre ++ [args]) = Some (m, b) ∧
          (memoize key f args st).1 = f b) ∧
  memo_inv key f (pre ++ [args]) (memoize key f args st).2.
Proof.
  intros (Hmemo & Hnd & Hcalls). unfold memoize.
  pose proof (Hmemo (key args)) as Hargs.
  destruct (memo st !! key args) as [v|]; cbn [fst snd memo calls].
  - destruct (list_find _ pre) as [[m b]|] eqn:Hfind; [|done].
    injection Hargs as ->. split.
    { exists m, b. by rewrite list_find_snoc, Hfind. }
    split; [|split; [done|]].
    + intros q. rewrite list_find_snoc, Hmemo.
      destruct (list_find (λ c, key c = q) pre) as [r|] eqn:Hq; [done|].
      destruct (decide (key args = q)) as [<-|]; [|done].
      by rewrite Hfind in Hq.
    + intros a. rewrite Hcalls. setoid_rewrite list_find_snoc.
      destruct (list_find (λ c, key c = key a) pre) as [r|] eqn:Ha; [done|].
      destruct (decide (key args = key a)) as [Heq|].
      * rewrite Heq, Ha in Hfind. done.
      * split; by intros [? ?].
  - destruct (list_find _ pre) as [r|] eqn:Hfind; [done|]. split.
    { exists (length pre), args.
      by rewrite list_find_snoc, Hfind, decide_True. }
    unfold memo_inv. cbn [memo calls]. split; [|split].
    + intros q. rewrite list_find_snoc.
      destruct (decide (key args = q)) as [<-|Hne].
      * by rewrite lookup_insert_eq, Hfind.
      * rewrite lookup_insert_ne by done. rewrite Hmemo.
        by destruct (list_find (λ c, key c = q) pre).
    + rewrite fmap_app. apply NoDup_app. split; [done|].
      split; [|apply NoDup_singleton].
      intros q (a & -> & Ha)%list_elem_of_fmap Hq%list_elem_of_singleton.
      apply Hcalls in Ha as [m Ha]. rewrite Hq, Hfind in Ha. done.
    + intros a. rewrite elem_of_app, list_elem_of_singleton, Hcalls.
      setoid_rewrite list_find_snoc.
      destruct (list_find (λ c, key c = key a) pre) as [[m b]|] eqn:Ha.
      * split.
        -- intros [Hm| ->]; [done|]. by rewrite Hfind in Ha.
        -- intros Hm. by left.
      * destruct (decide (key args = key a)) as [Heq|Hne].
        -- split.
           ++ intros [[? ?]| ->]; [done|]. by eexists.
           ++ intros [m [= _ ->]]. by right.
        -- split.
           ++ intros [[? ?]| ->]; done.
           ++ by intros [? ?].
Qed.

Lemma memoize_calls_spec pre argss st :
  memo_inv key f pre st →
  Forall2 (λ a v, ∃ m b,
             list_find (λ c, key c = key a) (pre ++ argss) = Some (m, b) ∧
             v = f b)
          argss (memoize_calls key f argss st).1 ∧
  memo_inv key f (pre ++ argss) (memoize_calls key f argss st).2.
Proof.
  revert pre st. induction argss as [|args argss IH]; intros pre st Hinv.
  - cbn. split; [constructor|]. by rewrite app_nil_r.
  - destruct (memoize_step pre args st Hinv) as ((m & b & Hfind & Hv) & Hinv1).
    cbn [memoize_calls].
    destruct (memoize key f args st) as [v st1]. cbn [fst snd] in *.
    destruct (IH (pre ++ [args]) st1 Hinv1) as (Hvs & Hinv2).
    destruct (memoize_calls key f argss st1) as [vs st2]. cbn [fst snd] in *.
    rewrite <- (assoc_L (++)) in Hvs, Hinv2. cbn in Hvs, Hinv2.
    split; [|done]. constructor; [|done].
    exists m, b. split; [|done].
    replace (pre ++ args :: argss) with ((pre ++ [args]) ++ argss)
      by (by rewrite <- (assoc_L (++))).
    by apply list_find_prefix.
Qed.

Lemma memo_inv_empty : memo_inv key f [] (MemoState ∅ []).
Proof.
  split; [|split].
  - intros q. cbn. by rewrite lookup_empty.
  - cbn. apply NoDup_nil_2.
  - intros a. cbn. split; [by intros ?%elem_of_nil|by intros [? ?]].
Qed.

End memoize_facts.

(** X15. A function wrapped by [memoize], called any number of times from
    the empty dictionary, returns for each argument what [f] returns for
    the first argument of the sequence that is equal to it; it applies [f]
    exactly once for each class of equal arguments, to the first one of
    the class and to nothing else, and its dictionary holds that value
    for exactly these classes.  When [f] returns the same for equal
    arguments, every call returns what [f] returns for its own
    argument. *)
Theorem memoize_applies_f_once `{Countable Q} {K V : Type} (key : K → Q)
    (f : K → V) (argss : list K) :
  Forall2 (λ a v, ∃ m b,
             list_find (λ c, key c = key a) argss = Some (m, b) ∧ v = f b)
          argss (memoize_calls key f argss (MemoState ∅ [])).1 ∧
  NoDup (key <$> calls (memoize_calls key f argss (MemoState ∅ [])).2) ∧
  (∀ a, a ∈ calls (memoize_calls key f argss (MemoState ∅ [])).2
        ↔ ∃ m, list_find (λ c, key c = key a) argss = Some (m, a)) ∧
  (∀ q, memo (memoize_calls key f argss (MemoState ∅ [])).2 !! q
        = (f ∘ snd) <$> list_find (λ c, key c = q) argss) ∧
  ((∀ a b, key a = key b → f a = f b) →
   (memoize_calls key f argss (MemoState ∅ [])).1 = f <$> argss).
Proof.
  destruct (memoize_calls_spec key f [] argss (MemoState ∅ [])
              (memo_inv_empty key f)) as (Hvs & Hmemo & Hnd & Hcalls).
  cbn [app] in *. split; [done|]. split; [done|]. split; [done|].
  split; [done|].
  intros Hf. apply list_eq_Forall2. apply Forall2_fmap_r.
  eapply Forall2_flip, Forall2_impl; [apply Hvs|].
  intros a v (m & b & Hfind & ->). cbn.
  apply list_find_Some in Hfind as (_ & Hb & _). symmetry. by apply Hf.
Qed.

Lemma memoize_applies_f_once_witness :
  (memoize_calls pynum_key pynum_key [PyInt 1; PyFloat 1; PyBool true]
     (MemoState ∅ [])).1
  = pynum_key <$> [PyInt 1; PyFloat 1; PyBool true].
Proof.
  apply (memoize_applies_f_once pynum_key pynum_key
           [PyInt 1; PyFloat 1; PyBool true]).
  intros a b Hab. exact Hab.
Defined.

(** The same three calls with a function that tells the equal arguments
    apart: [f] is applied to the integer only, and the float and the
    boolean get the integer's result. *)
Example memoize_equal_arguments :
  (memoize_calls pynum_key type_name [PyInt 1; PyFloat 1; PyBool true]
     (MemoState ∅ [])).1 = ["int"; "int"; "int"]%string ∧
  calls (memoize_calls pynum_key type_name [PyInt 1; PyFloat 1; PyBool true]
     (MemoState ∅ [])).2 = [PyInt 1].
Proof. split; vm_compute; reflexivity. Qed.

(** X16. Under [_ignore_deprecated] a function marked [deprecated]
    behaves as the function itself: no deprecation warning reaches the
    warnings machinery, whatever filters were installed before.  And
    whatever the decorated function does, returning or raising, the
    filter list is afterwards what it was before the call. *)
Theorem ignore_deprecated_silences {W K V : Type}
    (emit : option waction → wcategory → string → W → W + W)
    (filters_mutated : W → W)
    (message : string) (f : K → wstate W → wres W V) (args : K)
    (s : wstate W) :
  _ignore_deprecated filters_mutated (deprecated emit message f) args s
    = _ignore_deprecated filters_mutated f args s ∧
  filters (wres_state (_ignore_deprecated filters_mutated f args s))
    = filters s.
Proof.
  split.
  - unfold _ignore_deprecated, warnings_catch_warnings, deprecated,
      warnings_warn, warnings_filterwarnings.
    cbn [filters find_action flt_applies flt_action is_category]. done.
  - unfold _ignore_deprecated, warnings_catch_warnings.
    by destruct (f args _).
Qed.

(** X17. [get_linter_option] fails, with [AssertionError], exactly when
    the option is present and the requested type is neither [bool] nor
    [int]; an option that is absent gives the default for every type, a
    boolean is returned only for the six listed spellings, and an integer
    only when the option parses as one. *)
Theorem get_linter_option_outcomes (int_of_literal : string → option Z)
    (options : gmap string string) (name : string) (type : option_type) :
  (get_linter_option int_of_literal options name type = Exc AssertionError
   ↔ type = TOther ∧ is_Some (options !! name)) ∧
  (∀ e, get_linter_option int_of_literal options name type = Exc e →
        e = AssertionError) ∧
  (options !! name = None →
   get_linter_option int_of_literal options name type = Ret UseDefault) ∧
  (∀ b, get_linter_option int_of_literal options name type = Ret (BoolValue b) ↔
        type = TBool ∧
        ∃ option, options !! name = Some option ∧
          option ∈ (if b then ["1"; "yes"; "enable"] else ["0"; "no"; "disable"])) ∧
  (∀ z, get_linter_option int_of_literal options name type = Ret (IntValue z) ↔
        type = TInt ∧
        ∃ option, options !! name = Some option ∧
          int_of_literal option = Some z).
Proof.
  unfold get_linter_option.
  destruct (options !! name) as [option|] eqn:Hopt.
  - destruct type.
    + split; [|split; [|split; [|split]]].
      * split; [|by intros [? _]].
        repeat case_bool_decide; done.
      * intros e. repeat case_bool_decide; done.
      * done.
      * intros b. split.
        -- intros Hb. split; [done|]. exists option. split; [done|].
           repeat case_bool_decide; try done.
           ++ by injection Hb as <-.
           ++ by injection Hb as <-.
        -- intros (_ & o & [= <-] & Hin).
           destruct b.
           ++ by rewrite bool_decide_eq_true_2.
           ++ case_bool_decide as H1; [|by rewrite bool_decide_eq_true_2].
              exfalso. revert H1 Hin. rewrite !elem_of_cons.
              rewrite !elem_of_nil.
              intros [->|[->|[->|[]]]] [?|[?|[?|[]]]]; done.
      * intros z. split; [|by intros [? _]].
        repeat case_bool_decide; done.
    + split; [|split; [|split; [|split]]].
      * split; [|by intros [? _]].
        by destruct (int_of_literal option).
      * intros e. by destruct (int_of_literal option).
      * done.
      * intros b. split; [|by intros [? _]].
        by destruct (int_of_literal option).
      * intros z. split.
        -- destruct (int_of_literal option) as [z'|] eqn:Hz; [|done].
           intros [= <-]. split; [done|]. by exists option.
        -- intros (_ & o & [= <-] & ->). done.
    + split; [|split; [|split; [|split]]].
      * split; [|done]. intros _. split; [done|by eexists].
      * by intros e [= <-].
      * done.
      * intros b. split; [done|by intros [? _]].
      * intros z. split; [done|by intros [? _]].
  - split; [|split; [|split; [|split]]].
    + split; [done|]. by intros [_ [? ?]].
    + done.
    + done.
    + intros b. split; [done|]. by intros (_ & o & ? & _).
    + intros z. split; [done|]. by intros (_ & o & ? & _).
Qed.
